(** * VibeNote-AI: the live-audio session pipeline, embedded and verified

    A shallow embedding of [services/audioUtils.ts] (PCM codec, resampler,
    base64 transport) and of the [useGeminiLive] hook (noise gate, transcript
    aggregation, session life cycle), followed by the properties the
    specification states about them.

    Conventions of the embedding.
    - A finite JavaScript number is the real number it denotes ([R]); the one
      non-finite value the code can manufacture from finite input, [NaN] (an
      operand read out of range is [undefined]), is kept as a separate
      constructor of [jsnum].  Infinities are not carried.
    - The arithmetic of the PCM conversion, of the noise gate and of the
      resampler's positions is rounded after every operation to the nearest
      binary64 number, a tie going to the even significand ([fl64]); the
      exponent range is taken as unbounded, which no operand of the audio path
      comes near.  [Math.sqrt] and [Math.tanh] are taken as the rounded exact
      values.
    - [downsampleTo16k] is the resampler over the reals, without rounding;
      [downsampleTo16k64] is the same loop in binary64, storing binary32.
    - Array indices and lengths are integers ([Z], [nat]).
    - Binary strings (code units below 256) are [string]s of 8-bit [ascii].
    - React state and refs of the hook are the fields of one record, and every
      callback is a function from that record to the next one. *)

From Stdlib Require Import ZArith NArith List String Ascii Strings.Byte.
From Stdlib Require Import Reals Lra Lia.
From Stdlib Require Import Sorting.Sorted Sorting.Permutation.
From stdpp Require Import base list option strings pretty.
Import ListNotations.

(* ===================================================================== *)
(** * Part I: the embedding                                               *)
(* ===================================================================== *)

(** ** Base64 transport strings ([encode], [decode] of audioUtils.ts) *)

Module Base64.
Local Open Scope N_scope.

(** *** The platform primitives [btoa] and [atob]

    Both are browser built-ins (WHATWG "forgiving-base64" over the RFC 4648
    alphabet); they are written out here so that [encode] and [decode]
    compute. *)

Definition alphabet : list ascii :=
  list_ascii_of_string
    "ABCDEFGHIJKLMNOPQRSTUVWXYZabcdefghijklmnopqrstuvwxyz0123456789+/".

Definition pad : ascii := "="%char.

Definition sextet_char (n : N) : ascii := nth (N.to_nat n) alphabet pad.

Definition char_sextet (c : ascii) : option N :=
  let k := N_of_ascii c in
  if (65 <=? k) && (k <=? 90) then Some (k - 65)
  else if (97 <=? k) && (k <=? 122) then Some (k - 71)
  else if (48 <=? k) && (k <=? 57) then Some (k + 4)
  else if k =? 43 then Some 62
  else if k =? 47 then Some 63
  else None.

(** Three octets make one 24-bit group, cut into four sextets; a final
    group of one or two octets is zero-extended and padded with [=]. *)
Fixpoint btoa_chars (l : list N) : list ascii :=
  match l with
  | a :: b :: c :: rest =>
      let n := a * 65536 + b * 256 + c in
      sextet_char (n / 262144) :: sextet_char (n / 4096 mod 64)
        :: sextet_char (n / 64 mod 64) :: sextet_char (n mod 64)
        :: btoa_chars rest
  | [a; b] =>
      let n := a * 65536 + b * 256 in
      [sextet_char (n / 262144); sextet_char (n / 4096 mod 64);
       sextet_char (n / 64 mod 64); pad]
  | [a] =>
      let n := a * 65536 in
      [sextet_char (n / 262144); sextet_char (n / 4096 mod 64); pad; pad]
  | [] => []
  end.

Definition btoa (binary : string) : string :=
  string_of_list_ascii
    (btoa_chars (map N_of_ascii (list_ascii_of_string binary))).

Definition is_ascii_whitespace (c : ascii) : bool :=
  let k := N_of_ascii c in
  (k =? 9) || (k =? 10) || (k =? 12) || (k =? 13) || (k =? 32).

(** Removes one or two trailing [=]. *)
Definition strip_padding (l : list ascii) : list ascii :=
  match rev l with
  | c1 :: r1 =>
      if Ascii.eqb c1 pad then
        match r1 with
        | c2 :: r2 => if Ascii.eqb c2 pad then rev r2 else rev r1
        | [] => []
        end
      else l
  | [] => l
  end.

(** Four sextets give three octets; two or three trailing sextets give one
    or two octets, the surplus low bits being dropped. *)
Fixpoint atob_bytes (l : list N) : list N :=
  match l with
  | s0 :: s1 :: s2 :: s3 :: rest =>
      let n := s0 * 262144 + s1 * 4096 + s2 * 64 + s3 in
      n / 65536 :: n / 256 mod 256 :: n mod 256 :: atob_bytes rest
  | [s0; s1; s2] =>
      let n := (s0 * 4096 + s1 * 64 + s2) / 4 in
      [n / 256; n mod 256]
  | [s0; s1] => [(s0 * 64 + s1) / 16]
  | _ => []
  end.

(** [None] stands for the [InvalidCharacterError] that [atob] throws. *)
Definition atob (data : string) : option string :=
  let d := List.filter (fun c => negb (is_ascii_whitespace c))
                       (list_ascii_of_string data) in
  let d := if N.of_nat (length d) mod 4 =? 0 then strip_padding d else d in
  if N.of_nat (length d) mod 4 =? 1 then None
  else
    match mapM char_sextet d with
    | Some sextets =>
        Some (string_of_list_ascii (map ascii_of_N (atob_bytes sextets)))
    | None => None
    end.

(** *** [encode] and [decode] as written in audioUtils.ts *)

Definition Uint8Array := list byte.

(** [String.fromCharCode(bytes[i])] *)
Definition fromCharCode (b : byte) : string :=
  String (ascii_of_byte b) EmptyString.

(** [binaryString.charCodeAt(i)]; out of range it is [NaN], here [None]. *)
Definition charCodeAt (s : string) (i : nat) : option N :=
  N_of_ascii <$> String.get i s.

(** Storing a number into a [Uint8Array] slot: modulo 256, [NaN] as 0. *)
Definition to_uint8 (v : option N) : byte :=
  match v with
  | Some n => byte_of_ascii (ascii_of_N (n mod 256))
  | None => x00
  end.

Definition encode (bytes : Uint8Array) : string :=
  let binary :=
    fold_left (fun acc b => (acc ++ fromCharCode b)%string) bytes EmptyString in
  btoa binary.

Definition decode (base64 : string) : option Uint8Array :=
  match atob base64 with
  | Some binaryString =>
      let len := String.length binaryString in
      Some (map (fun i => to_uint8 (charCodeAt binaryString i)) (seq 0 len))
  | None => None
  end.

(** *** Auxiliary views used by the proofs *)

(** The sextets and the padding that [btoa_chars] writes, taken apart. *)
Fixpoint btoa_sextets (l : list N) : list N :=
  match l with
  | a :: b :: c :: rest =>
      let n := a * 65536 + b * 256 + c in
      n / 262144 :: n / 4096 mod 64 :: n / 64 mod 64 :: n mod 64
        :: btoa_sextets rest
  | [a; b] =>
      let n := a * 65536 + b * 256 in
      [n / 262144; n / 4096 mod 64; n / 64 mod 64]
  | [a] => let n := a * 65536 in [n / 262144; n / 4096 mod 64]
  | [] => []
  end.

Fixpoint btoa_padding (l : list N) : list ascii :=
  match l with
  | _ :: _ :: _ :: rest => btoa_padding rest
  | [_; _] => [pad]
  | [_] => [pad; pad]
  | [] => []
  end.

(** What the round trip needs of one alphabet character. *)
Definition sextet_ok (n : N) : bool :=
  match char_sextet (sextet_char n) with
  | Some m => m =? n
  | None => false
  end
  && negb (is_ascii_whitespace (sextet_char n))
  && negb (Ascii.eqb (sextet_char n) pad).
End Base64.

(** ** Binary64 arithmetic *)

Module Binary64.
Local Open Scope R_scope.

Definition bpow (e : Z) : R := powerRZ 2 e.

(** The exponent of a number other than 0:
    [2 ^ (mag x - 1) <= |x| < 2 ^ mag x]. *)
Definition mag (x : R) : Z := (Int_part (ln (Rabs x) / ln 2) + 1)%Z.

(** The nearest integer, a tie going to the even one. *)
Definition ZnearestE (r : R) : Z :=
  let f := Int_part r in
  if Rlt_dec (r - IZR f) (/ 2) then f
  else if Rlt_dec (/ 2) (r - IZR f) then (f + 1)%Z
  else if Z.even f then f else (f + 1)%Z.

(** Rounding to a significand of [prec] bits, with no exponent below
    [emin]. *)
Definition round (prec emin : Z) (x : R) : R :=
  if Req_dec_T x 0 then 0
  else
    let e := Z.max (mag x - prec) emin in
    IZR (ZnearestE (x * bpow (- e))) * bpow e.

(** The result of a binary64 operation whose exact value is [x]: 53
    significant bits, the exponent unbounded. *)
Definition fl64 (x : R) : R :=
  if Req_dec_T x 0 then 0
  else IZR (ZnearestE (x * bpow (53 - mag x))) * bpow (mag x - 53).


End Binary64.

(** ** PCM codec and resampler ([createBlob], [downsampleTo16k] of audioUtils.ts) *)

Module AudioUtils.
Import Binary64.
Local Open Scope R_scope.

(** *** JavaScript numbers, as far as the audio path needs them *)

Inductive jsnum : Type :=
| Num (x : R)
| NaN.

Definition Float32Array := list jsnum.
Definition Int16Array := list Z.

(** Sums and products over the reals, for the interpolation of
    [downsampleTo16k]. *)
Definition jadd (a b : jsnum) : jsnum :=
  match a, b with Num x, Num y => Num (x + y) | _, _ => NaN end.

Definition jmul (a b : jsnum) : jsnum :=
  match a, b with Num x, Num y => Num (x * y) | _, _ => NaN end.

(** The operations as binary64 carries them out. *)
Definition jadd64 (a b : jsnum) : jsnum :=
  match a, b with Num x, Num y => Num (fl64 (x + y)) | _, _ => NaN end.


Definition jmul64 (a b : jsnum) : jsnum :=
  match a, b with Num x, Num y => Num (fl64 (x * y)) | _, _ => NaN end.

(** [a / b].  A non-zero number over zero is an infinity, which this model
    does not carry; the one division by zero on the audio path is [0 / 0]
    (an empty block), and that is [NaN]. *)
Definition jdiv64 (a b : jsnum) : jsnum :=
  match a, b with
  | Num x, Num y => if Req_dec_T y 0 then NaN else Num (fl64 (x / y))
  | _, _ => NaN
  end.

Definition jsqrt64 (a : jsnum) : jsnum :=
  match a with
  | Num x => if Rlt_dec x 0 then NaN else Num (fl64 (sqrt x))
  | NaN => NaN
  end.

Definition jtanh64 (a : jsnum) : jsnum :=
  match a with Num x => Num (fl64 (tanh x)) | NaN => NaN end.

(** [a < b]; every comparison with [NaN] is false. *)
Definition jlt (a b : jsnum) : bool :=
  match a, b with
  | Num x, Num y => if Rlt_dec x y then true else false
  | _, _ => false
  end.

(** [Math.floor], [Math.ceil], [Math.round] (halves go up) on finite input. *)
Definition js_floor (x : R) : Z := Int_part x.
Definition js_ceil (x : R) : Z := (- Int_part (- x))%Z.
Definition js_round (x : R) : Z := Int_part (x + / 2).

(** Truncation toward zero, the integer part used by [ToInt16]. *)
Definition js_trunc (x : R) : Z :=
  if Rle_dec 0 x then js_floor x else js_ceil x.

(** Storing a number into an [Int16Array] slot: truncate, wrap modulo
    [2^16] into the signed range; [NaN] is stored as 0. *)
Definition to_int16 (v : jsnum) : Z :=
  match v with
  | Num x => ((js_trunc x + 32768) mod 65536 - 32768)%Z
  | NaN => 0%Z
  end.

(** Reading [buffer[i]]: out of range the read is [undefined], which the
    arithmetic that follows turns into [NaN]. *)
Definition get (buffer : list jsnum) (i : Z) : jsnum :=
  if (i <? 0)%Z then NaN else default NaN (buffer !! Z.to_nat i).

(** *** [createBlob] *)

Definition PCM_SAMPLE_RATE : R := 16000.

Record Blob : Type := mkBlob { data : string; mimeType : string }.

(** The body of the conversion loop: soft clip, then asymmetric scaling. *)
Definition pcm_sample (d : jsnum) : Z :=
  let sample := jtanh64 d in
  to_int16 (if jlt sample (Num 0) then jmul64 sample (Num 32768)
            else jmul64 sample (Num 32767)).

Definition pcm16 (data : Float32Array) : Int16Array := map pcm_sample data.

(** [new Uint8Array(int16.buffer)]: each sample as two bytes, low byte
    first (typed arrays use the platform order, little-endian on every
    browser target). *)
Definition byte_of_Z (z : Z) : byte :=
  byte_of_ascii (ascii_of_N (Z.to_N (z mod 256))).

Definition int16_bytes (l : Int16Array) : list byte :=
  flat_map (fun z => [byte_of_Z z; byte_of_Z (z / 256)]) l.

Definition createBlob (data : Float32Array) : Blob :=
  {| data := Base64.encode (int16_bytes (pcm16 data));
     mimeType := "audio/pcm;rate=16000" |}.

(** *** [downsampleTo16k], over the reals *)

(** The two source positions read for output index [i]. *)
Definition read_indices (buffer : Float32Array) (ratio : R) (i : nat) : Z * Z :=
  let inputIndex := INR i * ratio in
  let indexFloor := js_floor inputIndex in
  let indexCeil := Z.min (js_ceil inputIndex) (Z.of_nat (length buffer) - 1) in
  (indexFloor, indexCeil).

(** The body of the interpolation loop. *)
Definition lerp_sample (buffer : Float32Array) (ratio : R) (i : nat) : jsnum :=
  let inputIndex := INR i * ratio in
  let '(indexFloor, indexCeil) := read_indices buffer ratio i in
  let weight := inputIndex - IZR indexFloor in
  jadd (jmul (get buffer indexFloor) (Num (1 - weight)))
       (jmul (get buffer indexCeil) (Num weight)).

(** [None] is the [RangeError] of [new Float32Array(newLength)] for a
    negative or infinite length.  With [ratio = 0] the quotient is [0/0 = NaN]
    for an empty buffer (length 0) and an infinity otherwise. *)
Definition downsampleTo16k (buffer : Float32Array) (inputRate : R)
  : option Float32Array :=
  if Req_dec_T inputRate PCM_SAMPLE_RATE then Some buffer
  else
    let ratio := inputRate / PCM_SAMPLE_RATE in
    if Req_dec_T ratio 0 then
      match buffer with [] => Some [] | _ :: _ => None end
    else
      let newLength := js_round (INR (length buffer) / ratio) in
      if (newLength <? 0)%Z then None
      else Some (map (lerp_sample buffer ratio) (seq 0 (Z.to_nat newLength))).

(** *** [downsampleTo16k], in binary64

    The same function with every operation rounded as the code carries it
    out.  Rounding the ratio and the quotient can move
    [buffer.length / ratio] across a half, and with it the output length:
    7 samples at 8960 Hz give 12.5 over the reals and 12.499999999999998 in
    binary64.  As above, [None] is the [RangeError] of a negative or
    infinite length; lengths have no upper limit here, where an engine
    refuses an array it cannot allocate. *)








End AudioUtils.

(** ** The [useGeminiLive] hook *)

Module GeminiLive.
Import AudioUtils.

(** *** Data ([types.ts]) *)

Inductive StreamStatus : Type := DISCONNECTED | CONNECTING | CONNECTED | ERROR.

Inductive Sender : Type := user | model.

Definition Sender_eqb (a b : Sender) : bool :=
  match a, b with user, user | model, model => true | _, _ => false end.

(** [timestamp] is the millisecond clock value; [id] is its decimal
    rendering ([Date.now().toString()]). *)
Record TranscriptSegment : Type := mkSegment {
  id : string;
  sender : Sender;
  text : string;
  timestamp : Z;
  isPartial : bool
}.

Inductive LatencyMode : Type := interactive | balanced | playback.

Record AudioConfig : Type := mkAudioConfig {
  latencyMode : LatencyMode;
  noiseGateThreshold : R
}.

(** The fields of a [LiveServerMessage] that [onmessage] looks at. *)
Record LiveServerMessage : Type := mkMessage {
  inputTranscription : option string;
  outputTranscription : option string;
  turnComplete : bool;
  inlineData : option string
}.

(** What the closure of [connect] captured from the render it was made in. *)
Record Props : Type := mkProps {
  apiKey : option string;
  systemAudioEnabled : bool
}.

(** JavaScript truthiness of an optional string: present and non-empty. *)
Definition truthy (s : option string) : bool :=
  match s with
  | Some EmptyString | None => false
  | Some (String _ _) => true
  end.

(** *** State of the hook *)

(** Transcript state: [segments] and [currentTranscriptBuffer] are React
    state, the accumulator and the debounce timer are refs. *)
Record Transcript : Type := mkTranscript {
  segments : list TranscriptSegment;
  currentTranscriptBuffer : string;
  bufferAccumulator : string;
  bufferDebounceTimer : bool
}.

(** The audio handles held in refs ([true]: the ref is set), the analyser
    state, and the set of playing reply buffers. *)
Record Pipeline : Type := mkPipeline {
  audioContext : bool;
  stream : bool;
  systemStream : bool;
  processor : bool;
  source : bool;
  systemSource : bool;
  analyser : bool;
  audioSources : list Base64.Uint8Array
}.

(** Requests the hook has made of the platform, in order. *)
Inductive Effect : Type :=
| NewAudioContext (latencyHint : LatencyMode)
| GetUserMedia
| GetDisplayMedia
| LiveConnect (key : string)
| SessionClose (handle : nat)
| SendMedia (media : Blob).

Record Hook : Type := mkHook {
  status : StreamStatus;
  errorMessage : option string;
  isReconnecting : bool;
  isLive : bool;                 (* isLiveRef *)
  shouldReconnect : bool;        (* shouldReconnectRef *)
  session : option nat;          (* sessionRef *)
  config : AudioConfig;          (* configRef *)
  talkback : bool;               (* talkbackRef *)
  transcript : Transcript;
  pipeline : Pipeline;
  reconnectTimers : list Props;  (* pending [setTimeout(connect, 1500)] *)
  effects : list Effect
}.

Definition set_status (v : StreamStatus) (h : Hook) : Hook :=
  mkHook v (errorMessage h) (isReconnecting h) (isLive h) (shouldReconnect h)
    (session h) (config h) (talkback h) (transcript h) (pipeline h)
    (reconnectTimers h) (effects h).

Definition set_errorMessage (v : option string) (h : Hook) : Hook :=
  mkHook (status h) v (isReconnecting h) (isLive h) (shouldReconnect h)
    (session h) (config h) (talkback h) (transcript h) (pipeline h)
    (reconnectTimers h) (effects h).

Definition set_isReconnecting (v : bool) (h : Hook) : Hook :=
  mkHook (status h) (errorMessage h) v (isLive h) (shouldReconnect h)
    (session h) (config h) (talkback h) (transcript h) (pipeline h)
    (reconnectTimers h) (effects h).

Definition set_isLive (v : bool) (h : Hook) : Hook :=
  mkHook (status h) (errorMessage h) (isReconnecting h) v (shouldReconnect h)
    (session h) (config h) (talkback h) (transcript h) (pipeline h)
    (reconnectTimers h) (effects h).

Definition set_shouldReconnect (v : bool) (h : Hook) : Hook :=
  mkHook (status h) (errorMessage h) (isReconnecting h) (isLive h) v
    (session h) (config h) (talkback h) (transcript h) (pipeline h)
    (reconnectTimers h) (effects h).

Definition set_session (v : option nat) (h : Hook) : Hook :=
  mkHook (status h) (errorMessage h) (isReconnecting h) (isLive h)
    (shouldReconnect h) v (config h) (talkback h) (transcript h) (pipeline h)
    (reconnectTimers h) (effects h).

Definition set_transcript (v : Transcript) (h : Hook) : Hook :=
  mkHook (status h) (errorMessage h) (isReconnecting h) (isLive h)
    (shouldReconnect h) (session h) (config h) (talkback h) v (pipeline h)
    (reconnectTimers h) (effects h).

Definition set_pipeline (v : Pipeline) (h : Hook) : Hook :=
  mkHook (status h) (errorMessage h) (isReconnecting h) (isLive h)
    (shouldReconnect h) (session h) (config h) (talkback h) (transcript h) v
    (reconnectTimers h) (effects h).

Definition set_reconnectTimers (v : list Props) (h : Hook) : Hook :=
  mkHook (status h) (errorMessage h) (isReconnecting h) (isLive h)
    (shouldReconnect h) (session h) (config h) (talkback h) (transcript h)
    (pipeline h) v (effects h).

Definition perform (e : Effect) (h : Hook) : Hook :=
  mkHook (status h) (errorMessage h) (isReconnecting h) (isLive h)
    (shouldReconnect h) (session h) (config h) (talkback h) (transcript h)
    (pipeline h) (reconnectTimers h) (effects h ++ [e]).

Definition initialTranscript : Transcript := mkTranscript [] "" "" false.

Definition noPipeline : Pipeline :=
  mkPipeline false false false false false false false [].

(** The state of a freshly mounted hook. *)
Definition initial (cfg : AudioConfig) (talkbackEnabled : bool) : Hook :=
  mkHook DISCONNECTED None false false false None cfg talkbackEnabled
    initialTranscript noPipeline [] [].

(** *** Callbacks as computations over the hook state

    A callback either returns or throws; both leave a state behind. *)

Inductive JsError : Type := NotAllowedError | OtherError.

Inductive outcome (A : Type) : Type :=
| Returned (a : A)
| Thrown (e : JsError).
Arguments Returned {A} a.
Arguments Thrown {A} e.

Definition Js (A : Type) : Type := Hook -> outcome A * Hook.

#[global] Instance Js_ret : MRet Js := fun A a h => (Returned a, h).

#[global] Instance Js_bind : MBind Js := fun A B k m h =>
  match m h with
  | (Returned a, h') => k a h'
  | (Thrown e, h') => (Thrown e, h')
  end.

Definition throw {A} (e : JsError) : Js A := fun h => (Thrown e, h).

Definition try_catch {A} (body : Js A) (handler : JsError -> Js A) : Js A :=
  fun h =>
    match body h with
    | (Returned a, h') => (Returned a, h')
    | (Thrown e, h') => handler e h'
    end.

Definition modify (f : Hook -> Hook) : Js unit := fun h => (Returned tt, f h).

Definition read {A} (f : Hook -> A) : Js A := fun h => (Returned (f h), h).

(** The state a computation leaves behind. *)
Definition exec {A} (m : Js A) (h : Hook) : Hook := snd (m h).

(** *** Transcript aggregation *)

(** [queueTranscriptUpdate]: accumulate, and arm the 200 ms timer unless
    one is pending. *)
Definition queueTranscriptUpdate (fragment : string) (t : Transcript)
  : Transcript :=
  let acc := (bufferAccumulator t ++ " " ++ fragment)%string in
  mkTranscript (segments t) (currentTranscriptBuffer t) acc
    (if bufferDebounceTimer t then bufferDebounceTimer t else true).

(** Fragments queued one after the other, and the two texts a flush could
    be compared with: each fragment behind a space, or the fragments alone. *)
Definition queueAll (fragments : list string) (t : Transcript) : Transcript :=
  fold_left (fun t f => queueTranscriptUpdate f t) fragments t.

Definition spaced (fragments : list string) : string :=
  fold_right (fun f rest => (" " ++ f ++ rest)%string) "" fragments.

Definition bare (fragments : list string) : string :=
  fold_right (fun f rest => (f ++ rest)%string) "" fragments.

(** The callback of the debounce timer. *)
Definition flushTranscript (t : Transcript) : Transcript :=
  let textToFlush := bufferAccumulator t in
  match textToFlush with
  | String _ _ =>
      mkTranscript (segments t)
        (currentTranscriptBuffer t ++ textToFlush)%string "" false
  | EmptyString =>
      mkTranscript (segments t) (currentTranscriptBuffer t)
        (bufferAccumulator t) false
  end.

Definition newSegment (who : Sender) (fragment : string) (now : Z)
  : TranscriptSegment :=
  mkSegment (pretty now) who fragment now true.

(** The updater passed to [setSegments] for a fragment of [who] (the two
    blocks of [onmessage] differ in the sender literal only);
    [prev !! (length prev - 1)] is [prev[prev.length - 1]]. *)
Definition mergeFragment (who : Sender) (fragment : string) (now : Z)
    (prev : list TranscriptSegment) : list TranscriptSegment :=
  match prev !! (length prev - 1)%nat with
  | Some last =>
      if Sender_eqb (sender last) who && isPartial last then
        <[(length prev - 1)%nat :=
            mkSegment (id last) (sender last) (text last ++ fragment)%string
                      (timestamp last) (isPartial last)]> prev
      else prev ++ [newSegment who fragment now]
  | None => prev ++ [newSegment who fragment now]
  end.

(** One transcription block of [onmessage]: nothing happens unless the
    message carries a non-empty text. *)
Definition onTranscription (who : Sender) (field : option string) (now : Z)
    (t : Transcript) : Transcript :=
  match field with
  | Some (String c s) =>
      let fragment := String c s in
      queueTranscriptUpdate fragment
        (mkTranscript (mergeFragment who fragment now (segments t))
           (currentTranscriptBuffer t) (bufferAccumulator t)
           (bufferDebounceTimer t))
  | _ => t
  end.

Definition finalizeSegments (t : Transcript) : Transcript :=
  mkTranscript
    (map (fun s => mkSegment (id s) (sender s) (text s) (timestamp s) false)
         (segments t))
    (currentTranscriptBuffer t) (bufferAccumulator t) (bufferDebounceTimer t).

(** The reply-audio part of [onmessage]: a chunk that fails to decode (bad
    base64, odd byte count, no sample at all) is caught and skipped. *)
Definition onAudioChunk (chunk : option string) (h : Hook) : Hook :=
  if truthy chunk && audioContext (pipeline h) && talkback h then
    match Base64.decode (default "" chunk) with
    | Some bytes =>
        if Nat.even (length bytes) && negb (length bytes =? 0)%nat then
          let p := pipeline h in
          set_pipeline
            (mkPipeline (audioContext p) (stream p) (systemStream p)
               (processor p) (source p) (systemSource p) (analyser p)
               (audioSources p ++ [bytes])) h
        else h
    | None => h
    end
  else h.

Definition onmessage (msg : LiveServerMessage) (now : Z) : Js unit :=
  modify (fun h =>
    set_transcript (onTranscription user (inputTranscription msg) now
                      (transcript h)) h);;
  modify (fun h =>
    set_transcript (onTranscription model (outputTranscription msg) now
                      (transcript h)) h);;
  (if turnComplete msg
   then modify (fun h => set_transcript (finalizeSegments (transcript h)) h)
   else mret tt);;
  modify (onAudioChunk (inlineData msg)).

(** The debounce timer fires (only a pending timer can). *)
Definition debounceTimerFires : Js unit :=
  modify (fun h =>
    if bufferDebounceTimer (transcript h)
    then set_transcript (flushTranscript (transcript h)) h
    else h).

(** *** Noise gate and the per-block send path *)

(** The block energy as the loop computes it, each step in binary64. *)
Definition blockRms (inputData : Float32Array) : jsnum :=
  let sumSquares :=
    fold_left (fun acc x => jadd64 acc (jmul64 x x)) inputData (Num 0) in
  jsqrt64 (jdiv64 sumSquares (Num (INR (length inputData)))).

(** The block energy in the specification's words, on finite samples and
    over the reals: the square root of the mean of the squared samples. *)
Definition sumSquares (samples : list R) : R :=
  fold_right (fun x rest => x * x + rest)%R 0%R samples.

Definition RMS (samples : list R) : R :=
  sqrt (sumSquares samples / INR (length samples)).

(** [inputData.fill(0)] when the energy is below the threshold. *)
Definition noiseGate (threshold : R) (inputData : Float32Array) : Float32Array :=
  if jlt (blockRms inputData) (Num threshold)
  then map (fun _ => Num 0) inputData
  else inputData.

(** The synchronous part of [processor.onaudioprocess]: the block as the
    callback leaves it, and the frame handed to the promise continuation, if
    any.  The context's sample rate is a positive number. *)
Definition onaudioprocess (effectiveSampleRate : posreal)
    (inputData : Float32Array) : Js (Float32Array * option Blob) :=
  h ← read (fun h => h);
  if negb (isLive h) || negb (processor (pipeline h))
     || negb (audioContext (pipeline h))
  then mret (inputData, None)
  else
    let gated := noiseGate (noiseGateThreshold (config h)) inputData in
    match downsampleTo16k gated effectiveSampleRate with
    | Some downsampledData => mret (gated, Some (createBlob downsampledData))
    | None => throw OtherError
    end.

(** [session.sendRealtimeInput], which may throw (socket closing). *)
Definition sendRealtimeInput (throws : bool) (media : Blob) : Js unit :=
  if throws then throw OtherError else modify (perform (SendMedia media)).

(** The continuation [sessionPromise.then (...)]. *)
Definition sendBlock (sendThrows : bool) (pcmBlob : Blob) : Js unit :=
  live ← read isLive;
  if negb live then mret tt
  else try_catch (sendRealtimeInput sendThrows pcmBlob) (fun _ => mret tt).

(** The callback followed by its continuation. *)
Definition audioCallback (effectiveSampleRate : posreal) (sendThrows : bool)
    (inputData : Float32Array) : Js Float32Array :=
  r ← onaudioprocess effectiveSampleRate inputData;
  match r.2 with
  | Some pcmBlob => sendBlock sendThrows pcmBlob;; mret r.1
  | None => mret r.1
  end.

(** *** Session life cycle *)

Definition stopAudioPipeline : Js unit :=
  modify (set_isLive false);;
  modify (fun h =>
    let t := transcript h in
    set_transcript
      (mkTranscript (segments t) (currentTranscriptBuffer t) "" false) h);;
  modify (set_pipeline noPipeline).

(** [closeThrows]: whether the session's [close] raises. *)
Definition disconnect (closeThrows : bool) : Js unit :=
  modify (set_shouldReconnect false);;
  modify (set_isLive false);;
  modify (set_isReconnecting false);;
  s ← read session;
  match s with
  | Some handle =>
      try_catch
        (modify (perform (SessionClose handle));;
         if closeThrows then throw OtherError else mret tt)
        (fun _ => mret tt);;
      modify (set_session None)
  | None => mret tt
  end;;
  stopAudioPipeline;;
  modify (set_status DISCONNECTED).

(** What the platform answers during one [connect]. *)
Inductive MicOutcome : Type := MicGranted | MicDenied | MicFailed.

Record ConnectEnv : Type := mkEnv {
  contextStarts : bool;
  microphone : MicOutcome;
  (** [None]: the display capture was cancelled or failed; [Some b]: a
      stream, with audio tracks iff [b]. *)
  display : option bool;
  (** [None]: [ai.live.connect] rejects; [Some n]: the session handle. *)
  liveSession : option nat
}.

Definition set_audioContext (v : bool) (p : Pipeline) : Pipeline :=
  mkPipeline v (stream p) (systemStream p) (processor p) (source p)
    (systemSource p) (analyser p) (audioSources p).

Definition set_stream (v : bool) (p : Pipeline) : Pipeline :=
  mkPipeline (audioContext p) v (systemStream p) (processor p) (source p)
    (systemSource p) (analyser p) (audioSources p).

Definition set_systemStream (v : bool) (p : Pipeline) : Pipeline :=
  mkPipeline (audioContext p) (stream p) v (processor p) (source p)
    (systemSource p) (analyser p) (audioSources p).

Definition set_processor (v : bool) (p : Pipeline) : Pipeline :=
  mkPipeline (audioContext p) (stream p) (systemStream p) v (source p)
    (systemSource p) (analyser p) (audioSources p).

Definition set_source (v : bool) (p : Pipeline) : Pipeline :=
  mkPipeline (audioContext p) (stream p) (systemStream p) (processor p) v
    (systemSource p) (analyser p) (audioSources p).

Definition set_systemSource (v : bool) (p : Pipeline) : Pipeline :=
  mkPipeline (audioContext p) (stream p) (systemStream p) (processor p)
    (source p) v (analyser p) (audioSources p).

Definition set_analyser (v : bool) (p : Pipeline) : Pipeline :=
  mkPipeline (audioContext p) (stream p) (systemStream p) (processor p)
    (source p) (systemSource p) v (audioSources p).

Definition on_pipeline (f : Pipeline -> Pipeline) : Js unit :=
  modify (fun h => set_pipeline (f (pipeline h)) h).

(** The [try] block of [connect]. *)
Definition connectSetup (props : Props) (env : ConnectEnv) : Js unit :=
  latency ← read (fun h => latencyMode (config h));
  modify (perform (NewAudioContext latency));;
  (if contextStarts env then mret tt else throw OtherError);;
  on_pipeline (set_audioContext true);;
  modify (perform GetUserMedia);;
  match microphone env with
  | MicGranted => mret tt
  | MicDenied => throw NotAllowedError
  | MicFailed => throw OtherError
  end;;
  on_pipeline (set_stream true);;
  (if systemAudioEnabled props then
     modify (perform GetDisplayMedia);;
     match display env with
     | Some _ => on_pipeline (set_systemStream true)
     | None => mret tt
     end
   else mret tt);;
  modify (perform (LiveConnect (default "" (apiKey props))));;
  match liveSession env with
  | Some handle => modify (set_session (Some handle))
  | None => throw OtherError
  end;;
  on_pipeline (set_analyser true);;
  on_pipeline (set_source true);;
  (if systemAudioEnabled props && bool_decide (display env = Some true)
   then on_pipeline (set_systemSource true)
   else mret tt);;
  on_pipeline (set_processor true).

Definition connect (props : Props) (env : ConnectEnv) : Js unit :=
  if negb (truthy (apiKey props)) then
    modify (set_errorMessage (Some "API Key is missing."))
  else
    modify (set_isLive true);;
    modify (set_shouldReconnect false);;
    modify (set_errorMessage None);;
    modify (set_status CONNECTING);;
    try_catch (connectSetup props env)
      (fun e =>
         let msg := match e with
                    | NotAllowedError => "Microphone permission denied."
                    | OtherError => "Failed to start session."
                    end in
         modify (set_errorMessage (Some msg));;
         modify (set_status ERROR);;
         stopAudioPipeline).

Definition onopen : Js unit :=
  live ← read isLive;
  if negb live then mret tt
  else modify (set_status CONNECTED);; modify (set_isReconnecting false).

Definition onclose : Js unit :=
  pending ← read shouldReconnect;
  if pending : bool then mret tt
  else modify (set_status DISCONNECTED);; stopAudioPipeline.

(** [props] are those of the [connect] whose session reports the error; the
    timer's callback calls that same [connect]. *)
Definition onerror (props : Props) : Js unit :=
  live ← read isLive;
  if live : bool then
    modify (set_shouldReconnect true);;
    modify (set_isReconnecting true);;
    modify (set_status CONNECTING);;
    stopAudioPipeline;;
    modify (fun h => set_reconnectTimers (reconnectTimers h ++ [props]) h)
  else stopAudioPipeline.

(** The oldest pending reconnect timer fires: its callback is [connect ()]. *)
Definition reconnectTimerFires (env : ConnectEnv) : Js unit :=
  timers ← read reconnectTimers;
  match timers with
  | props :: rest => modify (set_reconnectTimers rest);; connect props env
  | [] => mret tt
  end.
(** *** A scenario: the user disconnects while a reconnect is pending *)

(** A platform on which every step of [connect] succeeds, answering with
    session handle [n]. *)
Definition healthy (n : nat) : ConnectEnv := mkEnv true MicGranted None (Some n).

Definition withKey : Props := mkProps (Some "key"%string) false.

(** The hook connected, its session reported an error, and the user
    disconnected before the reconnect timer fired. *)
Definition disconnectedWhilePending (cfg : AudioConfig) (talkbackEnabled : bool)
  : Hook :=
  exec (disconnect false)
    (exec (onerror withKey)
       (exec onopen
          (exec (connect withKey (healthy 1)) (initial cfg talkbackEnabled)))).
End GeminiLive.

(** ** More of the hook: what [connect] needs of the platform *)

Module Lifecycle.
Import GeminiLive.

(** The answers under which the [try] block of [connect] runs to its end:
    the context starts, the microphone is granted and the session opens.  The
    display capture is not among them. *)
Definition setupSucceeds (env : ConnectEnv) : bool :=
  contextStarts env
  && match microphone env with MicGranted => true | _ => false end
  && match liveSession env with Some _ => true | None => false end.

(** The message [connect] surfaces when its [try] block throws. *)
Definition failureMessage (env : ConnectEnv) : string :=
  if contextStarts env
  then match microphone env with
       | MicDenied => "Microphone permission denied."
       | _ => "Failed to start session."
       end
  else "Failed to start session.".

(** Whether an effect is the opening of a remote session. *)
Definition isLiveConnect (e : Effect) : bool :=
  match e with LiveConnect _ => true | _ => false end.

(** The requests one [connect] with a key makes of the platform, given the
    platform's answers: each step is reached only if the ones before it
    succeeded, except the display capture, whose failure is skipped over. *)
Definition setupEffects (latency : LatencyMode) (props : Props)
    (env : ConnectEnv) : list Effect :=
  NewAudioContext latency
    :: (if contextStarts env then
          GetUserMedia
            :: match microphone env with
               | MicGranted =>
                   (if systemAudioEnabled props then [GetDisplayMedia] else [])
                     ++ [LiveConnect (default "" (apiKey props))]
               | _ => []
               end
        else []).
End Lifecycle.

(** ** Views of the transcript *)

Module TranscriptViews.
Import GeminiLive.

(** Everything one speaker has said so far: the texts of that speaker's
    segments, in order, run together. *)
Definition textOf (who : Sender) (segs : list TranscriptSegment) : string :=
  bare (map text (List.filter (fun s => Sender_eqb (sender s) who) segs)).

(** A run of fragments, each with its sender and its arrival time, applied
    to the segment list in arrival order. *)
Definition mergeAll (arrivals : list (Sender * string * Z))
    (prev : list TranscriptSegment) : list TranscriptSegment :=
  fold_left (fun acc a => mergeFragment a.1.1 a.1.2 a.2 acc) arrivals prev.

(** The fragments of one speaker among the arrivals, in order. *)
Definition fragmentsOf (who : Sender) (arrivals : list (Sender * string * Z))
  : list string :=
  map (fun a => a.1.2) (List.filter (fun a => Sender_eqb a.1.1 who) arrivals).
End TranscriptViews.

(** ** Reply audio ([decodeAudioData] of audioUtils.ts) *)

Module Playback.
Import AudioUtils.

(** The numeric value of a byte. *)
Definition Z_of_byte (b : byte) : Z := Z.of_N (N_of_ascii (ascii_of_byte b)).

(** [new Int16Array(data.buffer)]: the bytes taken two at a time, low byte
    first, as two's-complement numbers.  [None] is the [RangeError] for a byte
    length that is not a multiple of 2. *)
Fixpoint int16_of_bytes (bytes : list byte) : option Int16Array :=
  match bytes with
  | [] => Some []
  | lo :: hi :: rest =>
      let u := (Z_of_byte lo + 256 * Z_of_byte hi)%Z in
      let z := if (u <? 32768)%Z then u else (u - 65536)%Z in
      match int16_of_bytes rest with
      | Some l => Some (z :: l)
      | None => None
      end
  | [_] => None
  end.

(** An [AudioBuffer]: its rate and one list of samples per channel. *)
Record AudioBuffer : Type := mkAudioBuffer {
  sampleRate : R;
  channelData : list (list R)
}.

(** [decodeAudioData], for a channel count and a rate the audio context
    supports.  [ctx.createBuffer] refuses a buffer of no channels or no frames
    ([None], with the [RangeError] above).  A slot [i] of channel [channel] is
    [dataInt16[i * numChannels + channel] / 32768.0]; every slot of the buffer
    reads inside [dataInt16]. *)
Definition decodeAudioData (data : list byte) (sampleRate : R)
    (numChannels : nat) : option AudioBuffer :=
  match int16_of_bytes data with
  | None => None
  | Some dataInt16 =>
      let frameCount := (length dataInt16 / numChannels)%nat in
      if (numChannels =? 0)%nat || (frameCount =? 0)%nat then None
      else
        Some (mkAudioBuffer sampleRate
                (map (fun channel =>
                        map (fun i =>
                               (IZR (nth (i * numChannels + channel) dataInt16 0%Z)
                                / 32768)%R)
                            (seq 0 frameCount))
                     (seq 0 numChannels)))
  end.
End Playback.

(** ** Typed messages ([sendTextMessage] of the hook, [handleManualSubmit]) *)

Module TextInput.
Import GeminiLive.

(** The white space [String.prototype.trim] removes, among the code units
    a [string] here can hold: tab, line feed, vertical tab, form feed,
    carriage return, space and no-break space. *)
Definition isWhiteSpace (c : ascii) : bool :=
  let k := N_of_ascii c in
  (k =? 9)%N || (k =? 10)%N || (k =? 11)%N || (k =? 12)%N || (k =? 13)%N
  || (k =? 32)%N || (k =? 160)%N.

Fixpoint dropWhile {A} (f : A -> bool) (l : list A) : list A :=
  match l with
  | x :: r => if f x then dropWhile f r else l
  | [] => []
  end.

(** [s.trim()] *)
Definition trim (s : string) : string :=
  string_of_list_ascii
    (rev (dropWhile isWhiteSpace
            (rev (dropWhile isWhiteSpace (list_ascii_of_string s))))).

(** [!s.trim()] *)
Definition blank (s : string) : bool :=
  match trim s with EmptyString => true | String _ _ => false end.

(** [sendTextMessage].  The value returned is the text handed to
    [session.sendRealtimeInput], if any; [sendThrows] tells whether that call
    raises, and nothing in the function catches it. *)
Definition sendTextMessage (sendThrows : bool) (text : string) (now : Z)
  : Js (option string) :=
  if blank text then mret None
  else
    modify (fun h =>
      let t := transcript h in
      set_transcript
        (mkTranscript
           (segments t ++ [mkSegment (pretty now) user text now false])
           (currentTranscriptBuffer t) (bufferAccumulator t)
           (bufferDebounceTimer t)) h);;
    modify (fun h => set_transcript (queueTranscriptUpdate text (transcript h)) h);;
    h ← read (fun h => h);
    match session h with
    | Some _ =>
        if isLive h then
          if sendThrows then throw OtherError else mret (Some text)
        else mret None
    | None => mret None
    end.

(** The hook together with the text of the input box. *)
Record Form : Type := mkForm { hook : Hook; manualInput : string }.

(** [handleManualSubmit]: the input box is cleared only after
    [sendTextMessage] has returned. *)
Definition handleManualSubmit (sendThrows : bool) (now : Z) (f : Form)
  : outcome (option string) * Form :=
  if blank (manualInput f) then (Returned None, f)
  else
    match sendTextMessage sendThrows (manualInput f) now (hook f) with
    | (Returned sent, h') => (Returned sent, mkForm h' "")
    | (Thrown e, h') => (Thrown e, mkForm h' (manualInput f))
    end.
End TextInput.

(** ** Notes: [organizeTranscript], [handleGenerateInsight], [chartData] *)

Module Notes.
Import GeminiLive TextInput.

Inductive Sentiment : Type := positive | neutral | negative.

(** The fields the response schema requires. *)
Record NoteData : Type := mkNoteData {
  title : string;
  summary : string;
  topics : list string;
  actionItems : list string;
  decisions : list string;
  sentiment : Sentiment
}.

Record OrganizedNote : Type := mkNote {
  noteData : NoteData;
  noteTimestamp : string
}.

(** What the text model does with one request: the call rejects, or it
    answers with an optional text. *)
Inductive ServiceAnswer : Type :=
| Rejects
| Answers (responseText : option string).

Definition newline : string := String (ascii_of_nat 10) EmptyString.

Definition prompt (transcript : string) : string :=
  ("Analyze the following transcript and extract structured notes:"
   ++ newline ++ newline ++ transcript)%string.

(** [organizeTranscript].  [parse] stands for [JSON.parse] on a response that
    follows the schema ([None]: it throws); [nowISO] is the clock reading put
    on the note.  The first component lists the requests sent to the model,
    the second is the function's result ([None] for [null]). *)
Definition organizeTranscript (parse : string -> option NoteData)
    (answer : ServiceAnswer) (nowISO : string)
    (transcript : string) (apiKey : option string)
  : list string * option OrganizedNote :=
  if negb (truthy apiKey) || blank transcript then ([], None)
  else
    ([prompt transcript],
     match answer with
     | Rejects => None
     | Answers jsonText =>
         if truthy jsonText then
           match parse (default "" jsonText) with
           | Some data => Some (mkNote data nowISO)
           | None => None
           end
         else None
     end).

(** The state of the [App] component that the note logic touches. *)
Record App : Type := mkApp {
  hook : Hook;
  notes : list OrganizedNote;
  isProcessingNotes : bool
}.

Definition AUTO_ANALYZE_THRESHOLD : nat := 200.

Definition setCurrentTranscriptBuffer (v : string) (h : Hook) : Hook :=
  let t := transcript h in
  set_transcript
    (mkTranscript (segments t) v (bufferAccumulator t) (bufferDebounceTimer t)) h.

(** [handleGenerateInsight] up to its [await]: the transcript handed to
    [organizeTranscript], if the guards let it through. *)
Definition insightBegin (apiKey : option string) (a : App)
  : App * option string :=
  if negb (truthy apiKey) then (a, None)
  else
    let buffer := currentTranscriptBuffer (transcript (hook a)) in
    if (String.length buffer <? 10)%nat then (a, None)
    else (mkApp (hook a) (notes a) true, Some buffer).

(** [handleGenerateInsight] after its [await], in the state of that moment. *)
Definition insightEnd (note : option OrganizedNote) (a : App) : App :=
  match note with
  | Some n => mkApp (setCurrentTranscriptBuffer "" (hook a)) (n :: notes a) false
  | None => mkApp (hook a) (notes a) false
  end.

(** One whole run with nothing happening in between; the requests sent to
    the model come with the final state. *)
Definition handleGenerateInsight (parse : string -> option NoteData)
    (answer : ServiceAnswer) (nowISO : string) (apiKey : option string)
    (a : App) : list string * App :=
  match insightBegin apiKey a with
  | (a', Some buffer) =>
      let '(requests, note) :=
        organizeTranscript parse answer nowISO buffer apiKey in
      (requests, insightEnd note a')
  | (a', None) => ([], a')
  end.

(** The effect that starts an analysis by itself. *)
Definition autoAnalyze (parse : string -> option NoteData)
    (answer : ServiceAnswer) (nowISO : string) (apiKey : option string)
    (a : App) : list string * App :=
  if (AUTO_ANALYZE_THRESHOLD
        <=? String.length (currentTranscriptBuffer (transcript (hook a))))%nat
     && negb (isProcessingNotes a)
  then handleGenerateInsight parse answer nowISO apiKey a
  else ([], a).

(** *** The topic chart *)

Record StatPoint : Type := mkStat { topic : string; count : nat }.

(** The body of the [reduce]: bump the first entry of that topic, or push a
    new entry at the end. *)
Fixpoint bump (t : string) (acc : list StatPoint) : list StatPoint :=
  match acc with
  | p :: rest =>
      if String.eqb (topic p) t then mkStat (topic p) (S (count p)) :: rest
      else p :: bump t rest
  | [] => [mkStat t 1]
  end.

Definition countTopics (ts : list string) : list StatPoint :=
  fold_left (fun acc t => bump t acc) ts [].

(** [sort((a, b) => b.count - a.count)]: the sort is stable, so entries of
    equal count keep their order. *)
Fixpoint insertDesc (p : StatPoint) (l : list StatPoint) : list StatPoint :=
  match l with
  | q :: r => if (count p <? count q)%nat then q :: insertDesc p r else p :: l
  | [] => [p]
  end.

Definition sortDesc (l : list StatPoint) : list StatPoint :=
  fold_right insertDesc [] l.

Definition allTopics (ns : list OrganizedNote) : list string :=
  flat_map (fun n => topics (noteData n)) ns.

Definition chartData (ns : list OrganizedNote) : list StatPoint :=
  take 5 (sortDesc (countTopics (allTopics ns))).
End Notes.

(** ** The spectrum bars ([draw] of Visualizer.tsx) *)

Module Visualizer.
Import Playback.
Local Open Scope R_scope.

Inductive FillStyle : Type :=
| Yellow                       (* the fixed high-contrast colour *)
| Rgb (r g b : R).

(** One [fillRect (x, y, w, h)] with the fill style set for it. *)
Record Bar : Type := mkBar {
  style : FillStyle;
  barX : R;
  barY : R;
  barW : R;
  barH : R
}.

(** The body of the loop for bin [i], drawn at the running position [x]. *)
Definition drawBar (highContrast : bool) (width height : R)
    (bufferLength : nat) (barWidth : R) (i : nat) (value : byte) (x : R) : Bar :=
  let barHeight := IZR (Z_of_byte value) / (15 / 10) in
  let fill :=
    if highContrast then Yellow
    else Rgb (barHeight + 25 * (INR i / INR bufferLength))
             (250 * (INR i / INR bufferLength)) 50 in
  mkBar fill x (height - barHeight) barWidth barHeight.

(** The loop: [x] starts at 0 and advances by [barWidth + 1] per bin. *)
Fixpoint drawFrom (highContrast : bool) (width height : R)
    (bufferLength : nat) (barWidth : R) (i : nat) (x : R)
    (dataArray : list byte) : list Bar :=
  match dataArray with
  | value :: rest =>
      drawBar highContrast width height bufferLength barWidth i value x
        :: drawFrom highContrast width height bufferLength barWidth (S i)
             (x + (barWidth + 1)) rest
  | [] => []
  end.

(** The bars of one frame, for a canvas of the given size and the byte
    frequency data of the analyser ([bufferLength] is their count). *)
Definition draw (highContrast : bool) (width height : R)
    (dataArray : list byte) : list Bar :=
  let bufferLength := length dataArray in
  let barWidth := width / INR bufferLength * (25 / 10) in
  drawFrom highContrast width height bufferLength barWidth 0 0 dataArray.
End Visualizer.

(* ===================================================================== *)
(** * Part II: the properties                                             *)
(* ===================================================================== *)

Section Base64Facts.
Import Base64.
Local Open Scope N_scope.

Example encode_hello :
  encode [x48; x65; x6c; x6c; x6f] = "SGVsbG8="%string.
Proof. reflexivity. Qed.

Example decode_hello :
  decode "SGVsbG8=" = Some [x48; x65; x6c; x6c; x6f].
Proof. reflexivity. Qed.

(** Linear arithmetic with the divisions by constants turned into their
    Euclidean equations. *)
Ltac div_lia := zify; Z.to_euclidean_division_equations; lia.

(** Induction over a list three elements at a time. *)
Lemma list_ind3 {A} (P : list A -> Prop) :
  P [] -> (forall a, P [a]) -> (forall a b, P [a; b]) ->
  (forall a b c l, P l -> P (a :: b :: c :: l)) ->
  forall l, P l.
Proof.
  intros H0 H1 H2 H3 l.
  assert (Hall : P l /\ (forall a, P (a :: l)) /\ (forall a b, P (a :: b :: l))).
  { induction l as [|x l (IH0 & IH1 & IH2)]; [now auto|].
    repeat split; [apply IH1 | intros; apply IH2 | intros; now apply H3]. }
  apply Hall.
Qed.

Lemma btoa_chars_split l :
  btoa_chars l = map sextet_char (btoa_sextets l) ++ btoa_padding l.
Proof.
  induction l as [| a | a b | a b c l IH] using list_ind3; try reflexivity.
  cbn [btoa_chars btoa_sextets btoa_padding map app]. now rewrite IH.
Qed.

Lemma sextet_ok_all n : n < 64 -> sextet_ok n = true.
Proof.
  intros Hn.
  assert (Hall : forallb sextet_ok (map N.of_nat (seq 0 64)) = true)
    by (vm_compute; reflexivity).
  rewrite forallb_forall in Hall. apply Hall.
  rewrite <- (N2Nat.id n). apply in_map, in_seq. lia.
Qed.

Lemma char_sextet_char n : n < 64 -> char_sextet (sextet_char n) = Some n.
Proof.
  intros Hn. pose proof (sextet_ok_all n Hn) as Hok. unfold sextet_ok in Hok.
  destruct (char_sextet (sextet_char n)) as [m|]; [|discriminate].
  apply andb_prop in Hok as [Hok _]. apply andb_prop in Hok as [Hok _].
  apply N.eqb_eq in Hok. now subst.
Qed.

Lemma sextet_char_not_ws n :
  n < 64 -> is_ascii_whitespace (sextet_char n) = false.
Proof.
  intros Hn. pose proof (sextet_ok_all n Hn) as Hok. unfold sextet_ok in Hok.
  apply andb_prop in Hok as [Hok _]. apply andb_prop in Hok as [_ Hok].
  now apply negb_true_iff in Hok.
Qed.

Lemma sextet_char_not_pad n : n < 64 -> Ascii.eqb (sextet_char n) pad = false.
Proof.
  intros Hn. pose proof (sextet_ok_all n Hn) as Hok. unfold sextet_ok in Hok.
  apply andb_prop in Hok as [_ Hok]. now apply negb_true_iff in Hok.
Qed.

Lemma btoa_sextets_bounded l :
  Forall (fun b => b < 256) l -> Forall (fun s => s < 64) (btoa_sextets l).
Proof.
  induction l as [| a | a b | a b c l IH] using list_ind3; intros Hl;
    cbn [btoa_sextets].
  - constructor.
  - inversion_clear Hl. repeat constructor; div_lia.
  - inversion_clear Hl as [|? ? ? Hl']. inversion_clear Hl'.
    repeat constructor; div_lia.
  - inversion_clear Hl as [|? ? ? Hl']. inversion_clear Hl' as [|? ? ? Hl''].
    inversion_clear Hl''.
    repeat (constructor; [div_lia|]). now apply IH.
Qed.

Lemma atob_bytes_sextets l :
  Forall (fun b => b < 256) l -> atob_bytes (btoa_sextets l) = l.
Proof.
  induction l as [| a | a b | a b c l IH] using list_ind3; intros Hl;
    cbn [btoa_sextets atob_bytes].
  - reflexivity.
  - inversion_clear Hl. f_equal. div_lia.
  - inversion_clear Hl as [|? ? ? Hl']. inversion_clear Hl'.
    repeat f_equal; div_lia.
  - inversion_clear Hl as [|? ? ? Hl']. inversion_clear Hl' as [|? ? ? Hl''].
    inversion_clear Hl''.
    rewrite IH by assumption. repeat f_equal; div_lia.
Qed.

Lemma btoa_padding_cases l :
  btoa_padding l = [] \/ btoa_padding l = [pad] \/ btoa_padding l = [pad; pad].
Proof.
  induction l as [| a | a b | a b c l IH] using list_ind3; cbn; auto.
Qed.

Lemma btoa_lengths l :
  exists k : nat,
    (length (btoa_sextets l) + length (btoa_padding l) = 4 * k)%nat /\
    (length (btoa_padding l) <= 2)%nat /\
    (length (btoa_sextets l) = 0 -> length (btoa_padding l) = 0)%nat /\
    (length (btoa_padding l) = 0 -> exists j, length (btoa_sextets l) = 4 * j)%nat.
Proof.
  induction l as [| a | a b | a b c l IH] using list_ind3; cbn [btoa_sextets btoa_padding length].
  - exists 0%nat. repeat split; try lia. now exists 0%nat.
  - exists 1%nat. repeat split; lia.
  - exists 1%nat. repeat split; lia.
  - destruct IH as (k & Hk & Hp & Hz & Hj). exists (S k).
    repeat split; try lia.
    intros H0. destruct (Hj H0) as [j Hj']. exists (S j). lia.
Qed.

Lemma strip_padding_body body padding :
  Forall (fun c => Ascii.eqb c pad = false) body ->
  padding = [] \/ padding = [pad] \/ padding = [pad; pad] ->
  (body = [] -> padding = []) ->
  strip_padding (body ++ padding) = body.
Proof.
  intros Hbody Hpad Hnil. unfold strip_padding. rewrite rev_app_distr.
  assert (Hlast : forall c r, rev body = c :: r -> Ascii.eqb c pad = false).
  { intros c r Hr. rewrite List.Forall_forall in Hbody. apply Hbody.
    apply in_rev. rewrite Hr. now left. }
  destruct Hpad as [-> | [-> | ->]]; cbn [rev app].
  - rewrite app_nil_r. destruct (rev body) as [|c r] eqn:Hr; [reflexivity|].
    now rewrite (Hlast c r eq_refl).
  - destruct (rev body) as [|c r] eqn:Hr.
    + destruct body; [discriminate (Hnil eq_refl)|].
      apply (f_equal (@length ascii)) in Hr. rewrite length_rev in Hr. discriminate.
    + rewrite (Hlast c r eq_refl), <- Hr. apply rev_involutive.
  - apply rev_involutive.
Qed.

Lemma filter_all {A} (f : A -> bool) l :
  Forall (fun x => f x = true) l -> List.filter f l = l.
Proof.
  induction 1 as [|x l Hx _ IH]; cbn; [reflexivity|]. now rewrite Hx, IH.
Qed.

(** [atob] undoes [btoa] on every binary string. *)
Lemma atob_btoa (binary : string) : atob (btoa binary) = Some binary.
Proof.
  unfold atob, btoa. rewrite list_ascii_of_string_of_list_ascii.
  set (l := map N_of_ascii (list_ascii_of_string binary)).
  assert (Hl : Forall (fun b => b < 256) l).
  { apply List.Forall_forall. intros b Hb. apply in_map_iff in Hb as (c & <- & _).
    apply N_ascii_bounded. }
  pose proof (btoa_sextets_bounded l Hl) as Hsx.
  pose proof (btoa_padding_cases l) as Hpad.
  destruct (btoa_lengths l) as (k & Hk & Hp2 & Hz & Hj).
  rewrite btoa_chars_split.
  set (body := map sextet_char (btoa_sextets l)) in *.
  assert (Hbody_len : length body = length (btoa_sextets l))
    by (unfold body; apply length_map).
  assert (Hbody_pad : Forall (fun c => Ascii.eqb c pad = false) body).
  { unfold body. apply List.Forall_forall. intros c Hc.
    apply in_map_iff in Hc as (n & <- & Hn). rewrite List.Forall_forall in Hsx.
    apply sextet_char_not_pad, Hsx, Hn. }
  rewrite filter_all.
  2:{ apply Forall_app. split.
      - unfold body. apply List.Forall_forall. intros c Hc.
        apply in_map_iff in Hc as (n & <- & Hn). rewrite List.Forall_forall in Hsx.
        now rewrite sextet_char_not_ws by (apply Hsx, Hn).
      - destruct Hpad as [-> | [-> | ->]]; repeat constructor. }
  replace (N.of_nat (length (body ++ btoa_padding l)) mod 4 =? 0) with true.
  2:{ symmetry. apply N.eqb_eq. rewrite length_app, Hbody_len, Hk. div_lia. }
  rewrite strip_padding_body; [|assumption..|].
  2:{ intros Hb. apply (f_equal (@length ascii)) in Hb. cbn in Hb.
      rewrite Hbody_len in Hb. specialize (Hz Hb).
      now destruct (btoa_padding l). }
  replace (N.of_nat (length body) mod 4 =? 1) with false.
  2:{ symmetry. apply N.eqb_neq. rewrite Hbody_len.
      destruct (btoa_padding l) as [|p1 [|p2 [|p3 ps]]] eqn:Ep; cbn in *.
      - destruct (Hj eq_refl) as [j ->]. div_lia.
      - div_lia.
      - div_lia.
      - lia. }
  unfold body. rewrite mapM_fmap_Forall_Some.
  2:{ eapply List.Forall_impl; [|exact Hsx]. intros n Hn. now apply char_sextet_char. }
  rewrite atob_bytes_sextets by assumption. unfold l.
  rewrite List.map_map, (List.map_ext _ (fun x => x)), List.map_id by (intros; apply ascii_N_embedding).
  now rewrite string_of_list_ascii_of_string.
Qed.

Lemma string_app_nil_r (s : string) : (s ++ "")%string = s.
Proof.
  induction s as [|c s IH]; [reflexivity|].
  change (String c (s ++ "")%string = String c s). now rewrite IH.
Qed.

Lemma string_app_assoc (s t u : string) :
  ((s ++ t) ++ u)%string = (s ++ (t ++ u))%string.
Proof.
  induction s as [|c s IH]; [reflexivity|].
  change (String c ((s ++ t) ++ u)%string = String c (s ++ (t ++ u))%string).
  now rewrite IH.
Qed.

(** The accumulation loop of [encode] builds the binary string whose
    characters are the bytes, in order. *)
Lemma encode_loop (bytes : Uint8Array) (acc : string) :
  fold_left (fun acc b => (acc ++ fromCharCode b)%string) bytes acc
  = (acc ++ string_of_list_ascii (map ascii_of_byte bytes))%string.
Proof.
  revert acc. induction bytes as [|b bytes IH]; intros acc; cbn.
  - now rewrite string_app_nil_r.
  - rewrite IH, string_app_assoc. reflexivity.
Qed.

(** The indexed copy loop of [decode] reads every character once. *)
Lemma decode_loop (cs : list ascii) :
  map (fun i => to_uint8 (charCodeAt (string_of_list_ascii cs) i))
      (seq 0 (String.length (string_of_list_ascii cs)))
  = map byte_of_ascii cs.
Proof.
  induction cs as [|c cs IH]; [reflexivity|].
  cbn [string_of_list_ascii String.length seq map].
  f_equal.
  - unfold charCodeAt. cbn. pose proof (N_ascii_bounded c).
    rewrite N.mod_small by assumption. now rewrite ascii_N_embedding.
  - rewrite <- seq_shift, List.map_map. exact IH.
Qed.

(** C10: for every byte array [b], [decode (encode b)] returns [b]: the
    base64 transport encoding is a lossless round trip. *)
Theorem decode_encode_roundtrip (b : Uint8Array) : decode (encode b) = Some b.
Proof.
  unfold decode, encode. rewrite encode_loop.
  replace ("" ++ string_of_list_ascii (map ascii_of_byte b))%string
    with (string_of_list_ascii (map ascii_of_byte b)) by reflexivity.
  rewrite atob_btoa. cbv beta iota zeta.
  rewrite decode_loop, List.map_map.
  rewrite (List.map_ext _ (fun x => x)), List.map_id by (intros; apply byte_of_ascii_of_byte).
  reflexivity.
Qed.

End Base64Facts.

Section RealFacts.
Local Open Scope R_scope.

(** *** Floor and ceiling *)

Lemma floor_spec (x : R) : IZR (Int_part x) <= x < IZR (Int_part x) + 1.
Proof. destruct (base_Int_part x). lra. Qed.

Lemma floor_unique (x : R) (z : Z) : IZR z <= x < IZR z + 1 -> Int_part x = z.
Proof. intros H. symmetry. apply Int_part_spec. lra. Qed.

Lemma floor_IZR (z : Z) : Int_part (IZR z) = z.
Proof. apply floor_unique. lra. Qed.

Lemma floor_nonneg (x : R) : 0 <= x -> (0 <= Int_part x)%Z.
Proof.
  intros Hx. destruct (floor_spec x) as [_ Hlt].
  apply Z.lt_succ_r, lt_IZR. rewrite succ_IZR. lra.
Qed.

Lemma floor_lt (x : R) (z : Z) : x < IZR z -> (Int_part x < z)%Z.
Proof. intros Hx. destruct (floor_spec x). apply lt_IZR. lra. Qed.

Lemma floor_le (x : R) (z : Z) : IZR z <= x -> (z <= Int_part x)%Z.
Proof.
  intros Hx. destruct (floor_spec x). apply Z.lt_succ_r, lt_IZR.
  rewrite succ_IZR. lra.
Qed.

(** *** The hyperbolic tangent *)

Lemma tanh_exp (x : R) :
  tanh x = (exp x - exp (- x)) / (exp x + exp (- x)).
Proof.
  unfold tanh, sinh, cosh. pose proof (exp_pos x). pose proof (exp_pos (- x)).
  field. lra.
Qed.

Lemma tanh_bounds (x : R) : -1 < tanh x < 1.
Proof.
  rewrite tanh_exp. pose proof (exp_pos x) as Ha. pose proof (exp_pos (- x)) as Hb.
  set (a := exp x) in *. set (b := exp (- x)) in *.
  assert (Hs : 0 < a + b) by lra.
  split.
  - apply Rmult_lt_reg_r with (a + b); [assumption|].
    unfold Rdiv. rewrite Rmult_assoc, Rinv_l by lra. lra.
  - apply Rmult_lt_reg_r with (a + b); [assumption|].
    unfold Rdiv. rewrite Rmult_assoc, Rinv_l by lra. lra.
Qed.

Lemma tanh_nonneg (x : R) : 0 <= x -> 0 <= tanh x.
Proof.
  intros Hx. rewrite tanh_exp.
  pose proof (exp_pos x) as Ha. pose proof (exp_pos (- x)) as Hb.
  assert (Hle : exp (- x) <= exp x).
  { destruct (Req_dec x 0) as [-> | Hne]; [rewrite Ropp_0; lra|].
    left. apply exp_increasing. lra. }
  apply Rmult_le_reg_r with (exp x + exp (- x)); [lra|].
  unfold Rdiv. rewrite Rmult_assoc, Rinv_l by lra. lra.
Qed.

Lemma tanh_neg (x : R) : x < 0 -> tanh x < 0.
Proof.
  intros Hx. rewrite tanh_exp.
  pose proof (exp_pos x) as Ha. pose proof (exp_pos (- x)) as Hb.
  assert (Hlt : exp x < exp (- x)) by (apply exp_increasing; lra).
  apply Rmult_lt_reg_r with (exp x + exp (- x)); [lra|].
  unfold Rdiv. rewrite Rmult_assoc, Rinv_l by lra. lra.
Qed.

(** *** Rational bounds for [exp (-1)], from its alternating series *)

Lemma INR_fact_S (n : nat) : INR (fact (S n)) = INR (S n) * INR (fact n).
Proof. rewrite fact_simpl, mult_INR. reflexivity. Qed.

Lemma INR_fact_values :
  INR (fact 0) = 1 /\ INR (fact 1) = 1 /\ INR (fact 2) = 2 /\ INR (fact 3) = 6 /\
  INR (fact 4) = 24 /\ INR (fact 5) = 120 /\ INR (fact 6) = 720 /\
  INR (fact 7) = 5040 /\ INR (fact 8) = 40320 /\ INR (fact 9) = 362880.
Proof.
  assert (F0 : INR (fact 0) = 1) by reflexivity.
  assert (F1 : INR (fact 1) = 1) by (rewrite INR_fact_S, F0; cbv [INR]; lra).
  assert (F2 : INR (fact 2) = 2) by (rewrite INR_fact_S, F1; cbv [INR]; lra).
  assert (F3 : INR (fact 3) = 6) by (rewrite INR_fact_S, F2; cbv [INR]; lra).
  assert (F4 : INR (fact 4) = 24) by (rewrite INR_fact_S, F3; cbv [INR]; lra).
  assert (F5 : INR (fact 5) = 120) by (rewrite INR_fact_S, F4; cbv [INR]; lra).
  assert (F6 : INR (fact 6) = 720) by (rewrite INR_fact_S, F5; cbv [INR]; lra).
  assert (F7 : INR (fact 7) = 5040) by (rewrite INR_fact_S, F6; cbv [INR]; lra).
  assert (F8 : INR (fact 8) = 40320) by (rewrite INR_fact_S, F7; cbv [INR]; lra).
  assert (F9 : INR (fact 9) = 362880) by (rewrite INR_fact_S, F8; cbv [INR]; lra).
  tauto.
Qed.

Lemma exp_m1_bounds : 133496 / 362880 <= exp (-1) <= 14833 / 40320.
Proof.
  unfold exp. destruct (exist_exp (-1)) as (u, Hu). cbn [proj1_sig].
  unfold exp_in in Hu.
  assert (H : sum_f_R0 (tg_alt (fun i : nat => / INR (fact i))) (S (2 * 4)) <= u
              <= sum_f_R0 (tg_alt (fun i : nat => / INR (fact i))) (2 * 4)).
  { apply alternated_series_ineq.
    - intros n. apply Rinv_le_contravar; [apply INR_fact_lt_0|].
      apply le_INR, fact_le. lia.
    - intros eps Heps. destruct (cv_speed_pow_fact 1 eps Heps) as [N HN].
      exists N. intros n Hn. specialize (HN n Hn).
      unfold Rdiv in HN. now rewrite pow1, Rmult_1_l in HN.
    - intros eps Heps. destruct (Hu eps Heps) as [N HN]. exists N. intros n Hn.
      specialize (HN n Hn).
      erewrite sum_eq; [exact HN|]. intros i _. unfold tg_alt. apply Rmult_comm. }
  change (2 * 4)%nat with 8%nat in H.
  unfold tg_alt in H. cbn [sum_f_R0 pow] in H.
  destruct INR_fact_values as (F0 & F1 & F2 & F3 & F4 & F5 & F6 & F7 & F8 & F9).
  rewrite F0, F1, F2, F3, F4, F5, F6, F7, F8, F9 in H.
  lra.
Qed.


Lemma tanh_opp (x : R) : tanh (- x) = - tanh x.
Proof.
  rewrite !tanh_exp, Ropp_involutive.
  pose proof (exp_pos x). pose proof (exp_pos (- x)). field. lra.
Qed.

Lemma tanh_monotone (x y : R) : x <= y -> tanh x <= tanh y.
Proof.
  intros Hxy. rewrite !tanh_exp.
  pose proof (exp_pos x) as Ha. pose proof (exp_pos (- x)) as Ha'.
  pose proof (exp_pos y) as Hb. pose proof (exp_pos (- y)) as Hb'.
  assert (Hab : exp x <= exp y).
  { destruct Hxy as [Hlt | ->]; [left; now apply exp_increasing | lra]. }
  assert (Hba : exp (- y) <= exp (- x)).
  { destruct Hxy as [Hlt | ->]; [left; apply exp_increasing; lra | lra]. }
  set (a := exp x) in *. set (a' := exp (- x)) in *.
  set (b := exp y) in *. set (b' := exp (- y)) in *.
  apply Rmult_le_reg_r with ((a + a') * (b + b')); [nra|].
  replace ((a - a') / (a + a') * ((a + a') * (b + b')))
    with ((a - a') * (b + b')) by (field; lra).
  replace ((b - b') / (b + b') * ((a + a') * (b + b')))
    with ((b - b') * (a + a')) by (field; lra).
  nra.
Qed.

Lemma tanh_0 : tanh 0 = 0.
Proof. rewrite tanh_exp, Ropp_0, exp_0. lra. Qed.

Lemma exp_mult_nat (n : nat) (x : R) : exp (INR n * x) = exp x ^ n.
Proof.
  induction n as [|n IH]; [cbn [INR pow]; rewrite Rmult_0_l; apply exp_0|].
  rewrite S_INR, Rmult_plus_distr_r, Rmult_1_l, exp_plus, IH. cbn [pow]. ring.
Qed.

(** From 20 on, [tanh] is within [2 ^ -55] of 1. *)
Lemma tanh_20_bounds (x : R) : 20 <= x -> 1 - / 36028797018963968 <= tanh x < 1.
Proof.
  intros Hx. split; [|apply tanh_bounds].
  apply Rle_trans with (tanh 20); [|now apply tanh_monotone].
  rewrite tanh_exp.
  assert (Hu : exp (- (20)) * exp (- (20)) <= / 72057594037927936).
  { rewrite <- exp_plus.
    assert (E40 : INR 40 = 40) by (rewrite INR_IZR_INZ; reflexivity).
    replace (- (20) + - (20)) with (INR 40 * -1) by (rewrite E40; lra).
    rewrite exp_mult_nat. pose proof exp_m1_bounds as [_ Hhi].
    pose proof (exp_pos (-1)) as Hpos.
    apply Rle_trans with ((3 / 8) ^ 40).
    - apply pow_incr. lra.
    - lra. }
  pose proof (exp_pos 20) as Ha. pose proof (exp_pos (- (20))) as Hb.
  assert (Hab : exp 20 * exp (- (20)) = 1).
  { rewrite <- exp_plus. replace (20 + - (20)) with 0 by lra. apply exp_0. }
  set (a := exp 20) in *. set (b := exp (- (20))) in *.
  apply Rmult_le_reg_r with (a + b); [lra|].
  replace ((a - b) / (a + b) * (a + b)) with (a - b) by (field; lra).
  nra.
Qed.

End RealFacts.

Section Binary64Facts.
Import Binary64.
Local Open Scope R_scope.

Lemma bpow_pos (e : Z) : 0 < bpow e.
Proof. apply powerRZ_lt. lra. Qed.

Lemma bpow_add (a b : Z) : bpow (a + b) = bpow a * bpow b.
Proof. apply powerRZ_add. lra. Qed.

Lemma bpow_0 : bpow 0 = 1.
Proof. reflexivity. Qed.

Lemma bpow_opp (e : Z) : bpow (- e) = / bpow e.
Proof. apply powerRZ_neg'. Qed.

Lemma bpow_cancel (e : Z) : bpow e * bpow (- e) = 1.
Proof. rewrite <- bpow_add, Z.add_opp_diag_r. reflexivity. Qed.

Lemma bpow_succ (e : Z) : bpow (e + 1) = 2 * bpow e.
Proof. rewrite bpow_add. change (bpow 1) with (2 * 1). lra. Qed.

Lemma bpow_nonneg_IZR (e : Z) : (0 <= e)%Z -> bpow e = IZR (2 ^ e).
Proof.
  intros He. unfold bpow. rewrite <- (Z2Nat.id e He), <- pow_powerRZ.
  rewrite <- pow_IZR. reflexivity.
Qed.

Lemma bpow_le (a b : Z) : (a <= b)%Z -> bpow a <= bpow b.
Proof.
  intros Hab. replace b with (a + (b - a))%Z by lia. rewrite bpow_add.
  rewrite (bpow_nonneg_IZR (b - a)) by lia.
  assert (H1 : (1 <= 2 ^ (b - a))%Z).
  { apply (Z.pow_le_mono_r 2 0 (b - a)); lia. }
  apply IZR_le in H1. pose proof (bpow_pos a). nra.
Qed.

Lemma bpow_lt (a b : Z) : (a < b)%Z -> bpow a < bpow b.
Proof.
  intros Hab. apply Rlt_le_trans with (bpow (a + 1)).
  - rewrite bpow_succ. pose proof (bpow_pos a). lra.
  - apply bpow_le. lia.
Qed.

Lemma bpow_exp (e : Z) : bpow e = exp (IZR e * ln 2).
Proof. unfold bpow. rewrite powerRZ_Rpower by lra. reflexivity. Qed.

Lemma mag_spec (x : R) : x <> 0 -> bpow (mag x - 1) <= Rabs x < bpow (mag x).
Proof.
  intros Hx. pose proof (Rabs_pos_lt x Hx) as Ha. unfold mag.
  set (a := Rabs x) in *. pose proof ln_lt_2 as Hl2.
  destruct (floor_spec (ln a / ln 2)) as [Hlo Hhi].
  set (n := Int_part (ln a / ln 2)) in *.
  assert (Hq : ln a / ln 2 * ln 2 = ln a) by (field; lra).
  replace (n + 1 - 1)%Z with n by lia. rewrite !bpow_exp, plus_IZR.
  pose proof (exp_ln a Ha) as Ea. split.
  - rewrite <- Ea.
    destruct (Req_dec (IZR n * ln 2) (ln a)) as [-> | Hne]; [lra|].
    left. apply exp_increasing. nra.
  - rewrite <- Ea at 1. apply exp_increasing. nra.
Qed.

Lemma mag_unique (x : R) (e : Z) :
  bpow (e - 1) <= Rabs x < bpow e -> mag x = e.
Proof.
  intros [Hlo Hhi].
  assert (Hx : x <> 0).
  { intros ->. rewrite Rabs_R0 in Hlo. pose proof (bpow_pos (e - 1)). lra. }
  destruct (mag_spec x Hx) as [Mlo Mhi].
  destruct (Z.lt_trichotomy (mag x) e) as [Hlt | [Heq | Hgt]]; [|assumption|].
  - assert (H : bpow (mag x) <= bpow (e - 1)) by (apply bpow_le; lia). lra.
  - assert (H : bpow e <= bpow (mag x - 1)) by (apply bpow_le; lia). lra.
Qed.

Lemma mag_opp (x : R) : mag (- x) = mag x.
Proof. unfold mag. now rewrite Rabs_Ropp. Qed.

(** *** Rounding to the nearest integer *)

Lemma ZnearestE_cases (r : R) :
  let f := Int_part r in
  (r - IZR f < / 2 /\ ZnearestE r = f) \/
  (/ 2 < r - IZR f /\ ZnearestE r = (f + 1)%Z) \/
  (r - IZR f = / 2 /\ ZnearestE r = if Z.even f then f else (f + 1)%Z).
Proof.
  intros f. unfold ZnearestE. fold f.
  destruct (Rlt_dec (r - IZR f) (/ 2)) as [H1 | H1]; [now left|].
  destruct (Rlt_dec (/ 2) (r - IZR f)) as [H2 | H2]; [right; now left|].
  right; right. split; [lra | reflexivity].
Qed.

Lemma ZnearestE_unique (r : R) (n : Z) :
  IZR n - / 2 < r < IZR n + / 2 -> ZnearestE r = n.
Proof.
  intros [Hlo Hhi]. destruct (floor_spec r) as [Flo Fhi].
  destruct (ZnearestE_cases r) as [[Hc ->] | [[Hc ->] | [Hc _]]].
  - apply floor_unique. split; [|lra].
    assert (H : (Int_part r <= n)%Z).
    { apply Z.lt_succ_r, lt_IZR. rewrite succ_IZR. lra. }
    assert (H' : (n <= Int_part r)%Z).
    { apply Z.lt_succ_r, lt_IZR. rewrite succ_IZR. lra. }
    assert (E : Int_part r = n) by lia. rewrite <- E. lra.
  - assert (H : (Int_part r + 1 <= n)%Z).
    { apply Z.lt_succ_r, lt_IZR. rewrite succ_IZR, plus_IZR. lra. }
    assert (H' : (n <= Int_part r + 1)%Z).
    { apply Z.lt_succ_r, lt_IZR. rewrite succ_IZR, plus_IZR. lra. }
    lia.
  - exfalso.
    assert (H : (Int_part r < n)%Z) by (apply lt_IZR; lra).
    assert (H' : (n < Int_part r + 1)%Z) by (apply lt_IZR; rewrite plus_IZR; lra).
    lia.
Qed.

Lemma ZnearestE_IZR (z : Z) : ZnearestE (IZR z) = z.
Proof. apply ZnearestE_unique. lra. Qed.


Lemma ZnearestE_floor (r : R) :
  (Int_part r <= ZnearestE r <= Int_part r + 1)%Z.
Proof.
  destruct (ZnearestE_cases r) as [[_ ->] | [[_ ->] | [_ ->]]]; try lia.
  destruct (Z.even (Int_part r)); lia.
Qed.

Lemma ZnearestE_le (r s : R) : r <= s -> (ZnearestE r <= ZnearestE s)%Z.
Proof.
  intros Hrs. destruct (floor_spec r) as [Rlo Rhi].
  destruct (floor_spec s) as [Slo Shi].
  assert (Hf : (Int_part r <= Int_part s)%Z).
  { apply Z.lt_succ_r, lt_IZR. rewrite succ_IZR. lra. }
  destruct (Z.eq_dec (Int_part r) (Int_part s)) as [E | NE].
  - destruct (ZnearestE_cases r) as [[Hr Er] | [[Hr Er] | [Hr Er]]];
    destruct (ZnearestE_cases s) as [[Hs Es] | [[Hs Es] | [Hs Es]]];
      rewrite Er, Es, <- ?E; rewrite <- ?E in Hs;
      try destruct (Z.even (Int_part r)); try lia; exfalso; lra.
  - pose proof (ZnearestE_floor r). pose proof (ZnearestE_floor s). lia.
Qed.

Lemma floor_opp_int (r : R) :
  r = IZR (Int_part r) -> Int_part (- r) = (- Int_part r)%Z.
Proof. intros E. apply floor_unique. rewrite opp_IZR. lra. Qed.

Lemma floor_opp_frac (r : R) :
  r <> IZR (Int_part r) -> Int_part (- r) = (- Int_part r - 1)%Z.
Proof.
  intros NE. destruct (floor_spec r). apply floor_unique.
  rewrite minus_IZR, opp_IZR. lra.
Qed.

Lemma ZnearestE_opp (r : R) : ZnearestE (- r) = (- ZnearestE r)%Z.
Proof.
  destruct (floor_spec r) as [Flo Fhi].
  destruct (Req_dec r (IZR (Int_part r))) as [E | NE].
  - rewrite E, <- opp_IZR, !ZnearestE_IZR. reflexivity.
  - destruct (ZnearestE_cases r) as [[Hc Er] | [[Hc Er] | [Hc Er]]]; rewrite Er.
    + apply ZnearestE_unique. rewrite opp_IZR. lra.
    + apply ZnearestE_unique. rewrite opp_IZR, plus_IZR. lra.
    + pose proof (floor_opp_frac r NE) as Fo.
      destruct (ZnearestE_cases (- r)) as [[Hn _] | [[Hn _] | [_ En]]].
      { rewrite Fo, minus_IZR, opp_IZR in Hn. lra. }
      { rewrite Fo, minus_IZR, opp_IZR in Hn. lra. }
      rewrite En, Fo.
      replace (- Int_part r - 1)%Z with (- (Int_part r + 1))%Z by lia.
      rewrite Z.even_opp, Z.even_add.
      destruct (Z.even (Int_part r)); cbn; lia.
Qed.

(** *** Rounding to binary64 *)

Lemma fl64_0 : fl64 0 = 0.
Proof. unfold fl64. destruct (Req_dec_T 0 0); [reflexivity | contradiction]. Qed.

Lemma fl64_opp (x : R) : fl64 (- x) = - fl64 x.
Proof.
  unfold fl64. destruct (Req_dec_T x 0) as [-> | Hx].
  - rewrite Ropp_0. destruct (Req_dec_T 0 0); [lra | contradiction].
  - destruct (Req_dec_T (- x) 0) as [H0 | _]; [lra|].
    rewrite mag_opp, Ropp_mult_distr_l_reverse, ZnearestE_opp, opp_IZR. lra.
Qed.

(** The scaled significand of a positive number lies in [2^52, 2^53). *)
Lemma scaled_range (x : R) :
  0 < x -> 4503599627370496 <= x * bpow (53 - mag x) < 9007199254740992.
Proof.
  intros Hx. assert (Hne : x <> 0) by lra.
  destruct (mag_spec x Hne) as [Mlo Mhi]. rewrite Rabs_pos_eq in Mlo, Mhi by lra.
  pose proof (bpow_pos (53 - mag x)) as Hp.
  assert (E1 : bpow (mag x - 1) * bpow (53 - mag x) = 4503599627370496).
  { rewrite <- bpow_add. replace (mag x - 1 + (53 - mag x))%Z with 52%Z by lia.
    rewrite bpow_nonneg_IZR by lia. reflexivity. }
  assert (E2 : bpow (mag x) * bpow (53 - mag x) = 9007199254740992).
  { rewrite <- bpow_add. replace (mag x + (53 - mag x))%Z with 53%Z by lia.
    rewrite bpow_nonneg_IZR by lia. reflexivity. }
  split; nra.
Qed.

Lemma fl64_pos_range (x : R) :
  0 < x -> bpow (mag x - 1) <= fl64 x <= bpow (mag x).
Proof.
  intros Hx. unfold fl64. destruct (Req_dec_T x 0) as [H0 | _]; [lra|].
  destruct (scaled_range x Hx) as [Slo Shi].
  set (s := x * bpow (53 - mag x)) in *.
  assert (Zlo : (4503599627370496 <= ZnearestE s)%Z).
  { rewrite <- (ZnearestE_IZR 4503599627370496). now apply ZnearestE_le. }
  assert (Zhi : (ZnearestE s <= 9007199254740992)%Z).
  { rewrite <- (ZnearestE_IZR 9007199254740992). apply ZnearestE_le. lra. }
  apply IZR_le in Zlo, Zhi. pose proof (bpow_pos (mag x - 53)) as Hp.
  assert (E1 : bpow (mag x - 1) = 4503599627370496 * bpow (mag x - 53)).
  { replace (mag x - 1)%Z with (52 + (mag x - 53))%Z by lia.
    rewrite bpow_add, (bpow_nonneg_IZR 52) by lia. reflexivity. }
  assert (E2 : bpow (mag x) = 9007199254740992 * bpow (mag x - 53)).
  { replace (mag x) with (53 + (mag x - 53))%Z at 1 by lia.
    rewrite bpow_add, (bpow_nonneg_IZR 53) by lia. reflexivity. }
  rewrite E1, E2. split; nra.
Qed.

Lemma fl64_pos (x : R) : 0 < x -> 0 < fl64 x.
Proof.
  intros Hx. destruct (fl64_pos_range x Hx) as [H _].
  pose proof (bpow_pos (mag x - 1)). lra.
Qed.

Lemma fl64_le_pos (x y : R) : 0 < x -> x <= y -> fl64 x <= fl64 y.
Proof.
  intros Hx Hxy. assert (Hy : 0 < y) by lra.
  assert (Hm : (mag x <= mag y)%Z).
  { destruct (Z.le_gt_cases (mag x) (mag y)) as [H | H]; [assumption|].
    destruct (mag_spec x) as [Xlo _]; [lra|].
    destruct (mag_spec y) as [_ Yhi]; [lra|].
    rewrite Rabs_pos_eq in Xlo, Yhi by lra.
    assert (B : bpow (mag y) <= bpow (mag x - 1)) by (apply bpow_le; lia). lra. }
  destruct (Z.eq_dec (mag x) (mag y)) as [E | NE].
  - unfold fl64. destruct (Req_dec_T x 0); [lra|]. destruct (Req_dec_T y 0); [lra|].
    rewrite E. pose proof (bpow_pos (mag y - 53)) as Hp.
    pose proof (bpow_pos (53 - mag y)) as Hq.
    assert (Hs : x * bpow (53 - mag y) <= y * bpow (53 - mag y)) by nra.
    apply ZnearestE_le, IZR_le in Hs. nra.
  - destruct (fl64_pos_range x Hx) as [_ Xhi].
    destruct (fl64_pos_range y Hy) as [Ylo _].
    assert (B : bpow (mag x) <= bpow (mag y - 1)) by (apply bpow_le; lia). lra.
Qed.

Lemma fl64_le (x y : R) : x <= y -> fl64 x <= fl64 y.
Proof.
  intros Hxy.
  destruct (Rlt_dec 0 x) as [Hx | Hx]; [now apply fl64_le_pos|].
  destruct (Req_dec x 0) as [-> | Hx0].
  - rewrite fl64_0. destruct (Req_dec y 0) as [-> | Hy0]; [rewrite fl64_0; lra|].
    left. apply fl64_pos. lra.
  - assert (Hxn : 0 < - x) by lra. pose proof (fl64_pos _ Hxn) as Hfx.
    rewrite fl64_opp in Hfx.
    destruct (Rlt_dec 0 y) as [Hy | Hy]; [pose proof (fl64_pos y Hy); lra|].
    destruct (Req_dec y 0) as [-> | Hy0]; [rewrite fl64_0; lra|].
    assert (Hyn : 0 < - y) by lra.
    assert (H : fl64 (- y) <= fl64 (- x)) by (apply fl64_le_pos; lra).
    rewrite !fl64_opp in H. lra.
Qed.

Lemma fl64_nonneg (x : R) : 0 <= x -> 0 <= fl64 x.
Proof. intros Hx. rewrite <- fl64_0. now apply fl64_le. Qed.

(** A number with an enclosed exponent and significand rounds to that
    significand. *)
Lemma fl64_eval (x : R) (e n : Z) :
  bpow (e - 1) <= Rabs x < bpow e ->
  IZR n - / 2 < x * bpow (53 - e) < IZR n + / 2 ->
  fl64 x = IZR n * bpow (e - 53).
Proof.
  intros He Hn. pose proof (mag_unique x e He) as Hm. unfold fl64.
  destruct (Req_dec_T x 0) as [-> | _].
  { rewrite Rabs_R0 in He. pose proof (bpow_pos (e - 1)). lra. }
  rewrite Hm, (ZnearestE_unique _ n Hn). reflexivity.
Qed.

(** Numbers that binary64 holds are not changed by rounding. *)
Lemma fl64_exact_lt (m e : Z) :
  (Z.abs m < 9007199254740992)%Z -> fl64 (IZR m * bpow e) = IZR m * bpow e.
Proof.
  intros Hm. set (x := IZR m * bpow e). unfold fl64.
  destruct (Req_dec_T x 0) as [-> | Hx]; [reflexivity|].
  destruct (mag_spec x Hx) as [Mlo Mhi].
  assert (Habs : Rabs x = IZR (Z.abs m) * bpow e).
  { unfold x. rewrite Rabs_mult, <- abs_IZR, (Rabs_pos_eq (bpow e)); [reflexivity|].
    left. apply bpow_pos. }
  assert (Hk : (mag x <= 53 + e)%Z).
  { destruct (Z.le_gt_cases (mag x) (53 + e)) as [H | H]; [assumption|].
    exfalso.
    assert (B : bpow (53 + e) <= bpow (mag x - 1)) by (apply bpow_le; lia).
    rewrite bpow_add, (bpow_nonneg_IZR 53) in B by lia.
    change (2 ^ 53)%Z with 9007199254740992%Z in B.
    apply IZR_lt in Hm. pose proof (bpow_pos e).
    assert (Rabs x < 9007199254740992 * bpow e) by (rewrite Habs; nra).
    lra. }
  set (k := (53 + e - mag x)%Z).
  assert (Es : x * bpow (53 - mag x) = IZR (m * 2 ^ k)).
  { assert (Ex : x = IZR m * bpow e) by reflexivity. rewrite Ex at 1.
    rewrite Rmult_assoc, <- bpow_add.
    replace (e + (53 - mag x))%Z with k by (unfold k; lia).
    rewrite (bpow_nonneg_IZR k) by (unfold k; lia). now rewrite mult_IZR. }
  rewrite Es, ZnearestE_IZR, mult_IZR, <- (bpow_nonneg_IZR k) by (unfold k; lia).
  rewrite Rmult_assoc, <- bpow_add.
  replace (k + (mag x - 53))%Z with e by (unfold k; lia). reflexivity.
Qed.

Lemma fl64_exact (m e : Z) :
  (Z.abs m <= 9007199254740992)%Z -> fl64 (IZR m * bpow e) = IZR m * bpow e.
Proof.
  intros Hm. destruct (Z.eq_dec (Z.abs m) 9007199254740992%Z) as [E | NE].
  - assert (Hs : m = (Z.sgn m * 2 ^ 53)%Z).
    { change (2 ^ 53)%Z with 9007199254740992%Z. rewrite <- E. symmetry.
      rewrite Z.mul_comm. apply Z.abs_sgn. }
    rewrite Hs, mult_IZR, <- (bpow_nonneg_IZR 53), Rmult_assoc, <- bpow_add by lia.
    apply fl64_exact_lt. lia.
  - apply fl64_exact_lt. lia.
Qed.

Lemma fl64_IZR (m : Z) : (Z.abs m <= 9007199254740992)%Z -> fl64 (IZR m) = IZR m.
Proof.
  intros Hm. pose proof (fl64_exact m 0 Hm) as H.
  rewrite bpow_0, Rmult_1_r in H. exact H.
Qed.



Lemma fl64_dyadic (m d k : Z) :
  d = (2 ^ k)%Z -> (0 <= k)%Z -> (Z.abs m <= 9007199254740992)%Z ->
  fl64 (IZR m / IZR d) = IZR m / IZR d.
Proof.
  intros -> Hk Hm. rewrite <- (bpow_nonneg_IZR k Hk).
  unfold Rdiv. rewrite <- bpow_opp. now apply fl64_exact.
Qed.

Lemma fl64_INR (n : nat) :
  (Z.of_nat n <= 9007199254740992)%Z -> fl64 (INR n) = INR n.
Proof. intros Hn. rewrite INR_IZR_INZ. apply fl64_IZR. lia. Qed.

(** Rounding lands on a number of the same sign and never crosses a
    number binary64 holds. *)
Lemma fl64_le_IZR (x : R) (m : Z) :
  (Z.abs m <= 9007199254740992)%Z -> x <= IZR m -> fl64 x <= IZR m.
Proof. intros Hm Hx. rewrite <- (fl64_IZR m Hm). now apply fl64_le. Qed.

Lemma fl64_ge_IZR (x : R) (m : Z) :
  (Z.abs m <= 9007199254740992)%Z -> IZR m <= x -> IZR m <= fl64 x.
Proof. intros Hm Hx. rewrite <- (fl64_IZR m Hm). now apply fl64_le. Qed.

(** With 53 bits and a lowest exponent that is not reached, the general
    rounding is [fl64]. *)
Lemma round_fl64 (emin : Z) (x : R) :
  (emin <= mag x - 53)%Z -> round 53 emin x = fl64 x.
Proof.
  intros He. unfold round, fl64. destruct (Req_dec_T x 0); [reflexivity|].
  rewrite Z.max_l by lia.
  replace (- (mag x - 53))%Z with (53 - mag x)%Z by lia. reflexivity.
Qed.

Lemma fl64_neg (x : R) : x < 0 -> fl64 x < 0.
Proof.
  intros Hx. assert (Hn : 0 < - x) by lra. pose proof (fl64_pos _ Hn) as H.
  rewrite fl64_opp in H. lra.
Qed.

End Binary64Facts.

Section CodecFacts.
Import Binary64 AudioUtils.
Local Open Scope R_scope.

Lemma to_int16_in_range (y : R) :
  -32769 < y < 32768 -> to_int16 (Num y) = js_trunc y.
Proof.
  intros [Hlo Hhi]. unfold to_int16.
  assert (Hr : (-32769 < js_trunc y < 32768)%Z).
  { unfold js_trunc, js_floor, js_ceil. destruct (Rle_dec 0 y) as [Hy | Hy].
    - pose proof (floor_nonneg y Hy). pose proof (floor_lt y 32768 Hhi). lia.
    - assert (Hn : 0 <= - y) by lra. pose proof (floor_nonneg (- y) Hn).
      assert (Hm : - y < IZR 32769) by lra.
      pose proof (floor_lt (- y) 32769 Hm). lia. }
  rewrite Z.mod_small by lia. lia.
Qed.

(** The soft-clipped sample keeps the sign of the input and stays within
    [-1, 1], both ends included: rounding can reach them. *)
Lemma soft_clip_range (x : R) :
  (-1 <= fl64 (tanh x) <= 1) /\
  (x < 0 -> fl64 (tanh x) < 0) /\ (0 <= x -> 0 <= fl64 (tanh x)).
Proof.
  pose proof (tanh_bounds x) as [Hlo Hhi]. repeat split.
  - apply (fl64_ge_IZR _ (-1)); [lia | lra].
  - apply (fl64_le_IZR _ 1); [lia | lra].
  - intros Hx. apply fl64_neg. now apply tanh_neg.
  - intros Hx. apply fl64_nonneg. now apply tanh_nonneg.
Qed.

(** The conversion loop's body on a finite sample: the soft-clipped value
    times 32768 below zero and times 32767 from zero on, truncated. *)
Lemma pcm_sample_scaled (x : R) :
  pcm_sample (Num x)
  = js_trunc (fl64 (fl64 (tanh x) * (if Rlt_dec x 0 then 32768 else 32767))).
Proof.
  unfold pcm_sample, jtanh64, jlt, jmul64.
  destruct (soft_clip_range x) as ([Hlo Hhi] & Hneg & Hpos).
  destruct (Rlt_dec x 0) as [Hx | Hx].
  - specialize (Hneg Hx). destruct (Rlt_dec (fl64 (tanh x)) 0); [|lra].
    apply to_int16_in_range. split.
    + apply Rlt_le_trans with (IZR (-32768)); [lra|].
      apply fl64_ge_IZR; [lia | lra].
    + apply Rle_lt_trans with (IZR 0); [|lra]. apply fl64_le_IZR; [lia | lra].
  - assert (Hx' : 0 <= x) by lra. specialize (Hpos Hx').
    destruct (Rlt_dec (fl64 (tanh x)) 0); [lra|].
    apply to_int16_in_range. split.
    + apply Rlt_le_trans with (IZR 0); [lra|]. apply fl64_ge_IZR; [lia | lra].
    + apply Rle_lt_trans with (IZR 32767); [|lra].
      apply fl64_le_IZR; [lia | lra].
Qed.

Lemma pcm_sample_range (x : R) : (-32768 <= pcm_sample (Num x) <= 32767)%Z.
Proof.
  rewrite pcm_sample_scaled.
  destruct (soft_clip_range x) as ([Hlo Hhi] & Hneg & Hpos).
  unfold js_trunc, js_floor, js_ceil.
  destruct (Rlt_dec x 0) as [Hx | Hx].
  - specialize (Hneg Hx).
    assert (H1 : IZR (-32768) <= fl64 (fl64 (tanh x) * 32768))
      by (apply fl64_ge_IZR; [lia | lra]).
    assert (H2 : fl64 (fl64 (tanh x) * 32768) <= IZR 0)
      by (apply fl64_le_IZR; [lia | lra]).
    set (y := fl64 (fl64 (tanh x) * 32768)) in *.
    destruct (Rle_dec 0 y) as [Hy | Hy].
    + assert (E : y = 0) by lra. rewrite E, floor_IZR. lia.
    + assert (Hn : 0 <= - y) by lra. pose proof (floor_nonneg _ Hn).
      assert (Hm : - y < IZR 32769) by lra. pose proof (floor_lt _ _ Hm). lia.
  - assert (Hx' : 0 <= x) by lra. specialize (Hpos Hx').
    assert (H1 : IZR 0 <= fl64 (fl64 (tanh x) * 32767))
      by (apply fl64_ge_IZR; [lia | lra]).
    assert (H2 : fl64 (fl64 (tanh x) * 32767) <= IZR 32767)
      by (apply fl64_le_IZR; [lia | lra]).
    set (y := fl64 (fl64 (tanh x) * 32767)) in *.
    destruct (Rle_dec 0 y) as [Hy | Hy]; [|lra].
    pose proof (floor_nonneg _ Hy).
    assert (Hm : y < IZR 32768) by lra. pose proof (floor_lt _ _ Hm). lia.
Qed.




(** Far from the boundary the clipped sample is rounded to 1 or -1, and
    full scale is reached. *)
Lemma pcm_sample_saturates (x : R) :
  20 <= x ->
  pcm_sample (Num x) = 32767%Z /\ pcm_sample (Num (- x)) = (-32768)%Z.
Proof.
  intros Hx. pose proof (tanh_20_bounds x Hx) as [Hlo Hhi].
  assert (Hone : fl64 (tanh x) = 1).
  { rewrite (fl64_eval (tanh x) 0 9007199254740992).
    - unfold bpow. simpl. lra.
    - rewrite Rabs_pos_eq by lra. unfold bpow. simpl. lra.
    - unfold bpow. simpl. lra. }
  split.
  - rewrite pcm_sample_scaled, Hone. destruct (Rlt_dec x 0); [lra|].
    rewrite Rmult_1_l, (fl64_IZR 32767) by lia.
    unfold js_trunc, js_floor. destruct (Rle_dec 0 32767); [|lra].
    apply floor_IZR.
  - rewrite pcm_sample_scaled, tanh_opp, fl64_opp, Hone.
    destruct (Rlt_dec (- x) 0); [|lra].
    replace (- (1) * 32768) with (IZR (-32768)) by lra.
    rewrite (fl64_IZR (-32768)) by lia.
    unfold js_trunc, js_ceil. destruct (Rle_dec 0 (IZR (-32768))); [lra|].
    rewrite <- opp_IZR, floor_IZR. reflexivity.
Qed.



End CodecFacts.

Section ResamplerFacts.
Import Binary64 AudioUtils.
Local Open Scope R_scope.

Lemma js_round_nonneg (x : R) : 0 <= x -> (0 <= js_round x)%Z.
Proof. intros Hx. apply floor_nonneg. lra. Qed.

Lemma js_round_nonpos (x : R) : x <= 0 -> (js_round x <= 0)%Z.
Proof.
  intros Hx. unfold js_round.
  assert (H1 : x + / 2 < IZR 1) by lra. pose proof (floor_lt _ _ H1). lia.
Qed.

(** Every position the interpolation loop reads lies inside the buffer. *)
Lemma read_indices_in_bounds (buffer : Float32Array) (ratio : R) (i : nat) :
  0 < ratio ->
  (Z.of_nat i < js_round (INR (length buffer) / ratio))%Z ->
  (0 <= fst (read_indices buffer ratio i) <= Z.of_nat (length buffer) - 1)%Z /\
  (0 <= snd (read_indices buffer ratio i) <= Z.of_nat (length buffer) - 1)%Z.
Proof.
  intros Hr Hi. unfold read_indices, js_floor, js_ceil. cbn [fst snd].
  set (len := length buffer) in *. set (q := INR len / ratio) in *.
  assert (Hq : q * ratio = INR len) by (unfold q; field; lra).
  assert (Hpos : 0 <= INR i * ratio).
  { apply Rmult_le_pos; [apply pos_INR | lra]. }
  assert (Hi' : INR i + 1 <= q + / 2).
  { destruct (floor_spec (q + / 2)) as [Hfl _]. fold (js_round q) in Hfl.
    assert (Hz : (Z.of_nat i + 1 <= js_round q)%Z) by lia.
    apply IZR_le in Hz. rewrite plus_IZR, <- INR_IZR_INZ in Hz. lra. }
  assert (Hlt : INR i * ratio < INR len) by nra.
  assert (Hlen : (1 <= Z.of_nat len)%Z).
  { assert (H0 : INR 0 < INR len) by (cbn [INR]; lra). apply INR_lt in H0. lia. }
  assert (Hfloor : (Int_part (INR i * ratio) < Z.of_nat len)%Z).
  { apply floor_lt. rewrite <- INR_IZR_INZ. exact Hlt. }
  pose proof (floor_nonneg _ Hpos) as Hf0.
  assert (Hceil : (0 <= - Int_part (- (INR i * ratio)))%Z).
  { assert (Hn : - (INR i * ratio) < IZR 1) by lra.
    pose proof (floor_lt _ _ Hn). lia. }
  lia.
Qed.

Lemma downsampleTo16k_eval (buffer : Float32Array) (inputRate : R) :
  0 < inputRate -> inputRate <> PCM_SAMPLE_RATE ->
  downsampleTo16k buffer inputRate
  = Some (map (lerp_sample buffer (inputRate / PCM_SAMPLE_RATE))
            (seq 0 (Z.to_nat (js_round (INR (length buffer)
                                        / (inputRate / PCM_SAMPLE_RATE)))))).
Proof.
  intros Hpos Hne. unfold downsampleTo16k.
  destruct (Req_dec_T inputRate PCM_SAMPLE_RATE) as [He | _]; [contradiction|].
  assert (Hr : 0 < inputRate / PCM_SAMPLE_RATE).
  { unfold PCM_SAMPLE_RATE. apply Rdiv_lt_0_compat; lra. }
  destruct (Req_dec_T (inputRate / PCM_SAMPLE_RATE) 0) as [H0 | _]; [lra|].
  assert (Hn : (0 <= js_round (INR (length buffer) / (inputRate / PCM_SAMPLE_RATE)))%Z).
  { apply js_round_nonneg. apply Rmult_le_pos; [apply pos_INR|].
    left. now apply Rinv_0_lt_compat. }
  destruct (Z.ltb_spec (js_round (INR (length buffer) / (inputRate / PCM_SAMPLE_RATE))) 0);
    [lia | reflexivity].
Qed.

(** A worked run: three samples at 24 kHz become two at 16 kHz, the second
    one half-way between its neighbours. *)
Example downsampleTo16k_24k :
  downsampleTo16k [Num 0; Num 2; Num 4] 24000 = Some [Num 0; Num 3].
Proof.
  rewrite downsampleTo16k_eval by (unfold PCM_SAMPLE_RATE; lra).
  unfold PCM_SAMPLE_RATE. cbn [length INR].
  replace (js_round ((1 + 1 + 1) / (24000 / 16000))) with 2%Z
    by (symmetry; apply floor_unique; lra).
  change (Z.to_nat 2) with 2%nat. cbn [seq map].
  unfold lerp_sample, read_indices, js_floor, js_ceil. cbn [length INR].
  replace (0 * (24000 / 16000)) with 0 by lra.
  replace (1 * (24000 / 16000)) with (3 / 2) by lra.
  rewrite (floor_unique 0 0), (floor_unique (- 0) 0),
    (floor_unique (3 / 2) 1), (floor_unique (- (3 / 2)) (-2)) by lra.
  cbv -[Rplus Rminus Rmult Rdiv Rinv Ropp IZR]. repeat f_equal; lra.
Qed.

(** *** The resampler in binary64 *)








Lemma lookup_map_seq {A} (f : nat -> A) (n i : nat) :
  (i < n)%nat -> map f (seq 0 n) !! i = Some (f i).
Proof.
  intros Hi. change (map f (seq 0 n)) with (f <$> seq 0 n).
  rewrite list_lookup_fmap, lookup_seq_lt by assumption. reflexivity.
Qed.



Lemma get_replicate (v : jsnum) (n : nat) (k : Z) :
  (0 <= k <= Z.of_nat n - 1)%Z -> get (replicate n v) k = v.
Proof.
  intros Hk. unfold get. destruct (Z.ltb_spec k 0); [lia|].
  rewrite lookup_replicate_2 by lia. reflexivity.
Qed.

(** Interpolating between two equal neighbours gives that same value. *)
Lemma lerp_same (v : jsnum) (w : R) :
  jadd (jmul v (Num (1 - w))) (jmul v (Num w)) = v.
Proof. destruct v as [c|]; cbn; [f_equal; ring | reflexivity]. Qed.

Lemma map_seq_const {A} (f : nat -> A) (v : A) (m s : nat) :
  (forall i, (s <= i < s + m)%nat -> f i = v) ->
  map f (seq s m) = replicate m v.
Proof.
  revert s. induction m as [|m IH]; intros s Hf; cbn; [reflexivity|].
  rewrite Hf by lia. f_equal. apply IH. intros i Hi. apply Hf. lia.
Qed.

(** C6: at an input rate of 16000 the resampler returns its input, and on
    a constant-valued input every output sample is that same constant, at
    any input rate (a rate at which the call does not return is not
    positive). *)
Theorem downsampleTo16k_identity_and_constant :
  (forall buffer : Float32Array,
      downsampleTo16k buffer PCM_SAMPLE_RATE = Some buffer) /\
  (forall (v : jsnum) (n : nat) (inputRate : R),
      match downsampleTo16k (replicate n v) inputRate with
      | Some out => out = replicate (length out) v
      | None => inputRate <= 0
      end).
Proof.
  split.
  - intros buffer. unfold downsampleTo16k.
    destruct (Req_dec_T PCM_SAMPLE_RATE PCM_SAMPLE_RATE); [reflexivity | contradiction].
  - intros v n inputRate. unfold downsampleTo16k.
    destruct (Req_dec_T inputRate PCM_SAMPLE_RATE) as [_ | Hne].
    { now rewrite length_replicate. }
    set (ratio := inputRate / PCM_SAMPLE_RATE).
    destruct (Req_dec_T ratio 0) as [H0 | Hr0].
    { destruct n; cbn [replicate]; [reflexivity|].
      unfold ratio, PCM_SAMPLE_RATE in H0. lra. }
    rewrite length_replicate.
    destruct (Rlt_dec 0 inputRate) as [Hpos | Hneg].
    + assert (Hr : 0 < ratio).
      { unfold ratio, PCM_SAMPLE_RATE. apply Rdiv_lt_0_compat; lra. }
      assert (Hn : (0 <= js_round (INR n / ratio))%Z).
      { apply js_round_nonneg. apply Rmult_le_pos; [apply pos_INR|].
        left. now apply Rinv_0_lt_compat. }
      destruct (Z.ltb_spec (js_round (INR n / ratio)) 0); [lia|].
      rewrite length_map, length_seq. apply map_seq_const.
      intros i Hi. unfold lerp_sample.
      pose proof (read_indices_in_bounds (replicate n v) ratio i Hr) as Hb.
      rewrite length_replicate in Hb.
      destruct Hb as [Hf Hc]; [lia|].
      destruct (read_indices (replicate n v) ratio i) as [f c].
      cbn [fst snd] in Hf, Hc.
      rewrite !get_replicate by assumption. apply lerp_same.
    + destruct (Z.ltb_spec (js_round (INR n / ratio)) 0) as [Hlt | Hge]; [lra|].
      assert (Hr : ratio < 0).
      { unfold ratio, PCM_SAMPLE_RATE in *. lra. }
      assert (Hq : INR n / ratio <= 0).
      { pose proof (pos_INR n). assert (Hi : / ratio < 0) by now apply Rinv_lt_0_compat.
        unfold Rdiv. nra. }
      pose proof (js_round_nonpos _ Hq).
      replace (js_round (INR n / ratio)) with 0%Z by lia. reflexivity.
Qed.

End ResamplerFacts.

Section TranscriptFacts.
Import GeminiLive.

Lemma string_length_app (s t : string) :
  String.length (s ++ t)%string = String.length s + String.length t.
Proof.
  induction s as [|c s IH]; [reflexivity|].
  change (S (String.length (s ++ t)%string) = S (String.length s) + String.length t).
  now rewrite IH.
Qed.

(** *** Segment merging *)

Lemma mergeFragment_snoc who fragment now prev0 (l : TranscriptSegment) :
  mergeFragment who fragment now (prev0 ++ [l])
  = if Sender_eqb (sender l) who && isPartial l
    then prev0 ++ [mkSegment (id l) (sender l) (text l ++ fragment)%string
                             (timestamp l) (isPartial l)]
    else (prev0 ++ [l]) ++ [newSegment who fragment now].
Proof.
  unfold mergeFragment. rewrite length_app. cbn [length].
  replace (length prev0 + 1 - 1) with (length prev0) by lia.
  rewrite list_lookup_middle by reflexivity.
  destruct (Sender_eqb (sender l) who && isPartial l); [|reflexivity].
  rewrite insert_app_r_alt by lia. now rewrite Nat.sub_diag.
Qed.

Lemma Sender_eqb_eq (a b : Sender) : Sender_eqb a b = true <-> a = b.
Proof. destruct a, b; cbn; split; congruence. Qed.

Lemma mergeFragment_prefix who fragment now (prev : list TranscriptSegment) :
  take (length prev - 1) (mergeFragment who fragment now prev)
  = take (length prev - 1) prev.
Proof.
  unfold mergeFragment.
  destruct (prev !! (length prev - 1)) as [l|].
  - destruct (Sender_eqb (sender l) who && isPartial l).
    + apply take_insert_ge. lia.
    + apply take_app_le. lia.
  - apply take_app_le. lia.
Qed.

(** C7: a fragment is appended to the last segment when that segment
    exists, has the fragment's sender and is partial; otherwise a new partial
    segment is added at the end; in both cases the segments before the last
    are left as they were.  [onmessage] applies this rule to the user and to
    the model transcription of a message, and ["Hello"] then [" world"] from
    the user give the single segment ["Hello world"], after which a model
    fragment opens a second segment. *)
Theorem fragment_merge_rule (who : Sender) (fragment : string) (now : Z) :
  (forall prev0 l,
      sender l = who -> isPartial l = true ->
      mergeFragment who fragment now (prev0 ++ [l])
      = prev0 ++ [mkSegment (id l) who (text l ++ fragment)%string
                            (timestamp l) true]) /\
  (forall prev,
      (forall l, last prev = Some l -> sender l <> who \/ isPartial l = false) ->
      mergeFragment who fragment now prev
      = prev ++ [mkSegment (pretty now) who fragment now true]) /\
  (forall prev,
      take (length prev - 1) (mergeFragment who fragment now prev)
      = take (length prev - 1) prev) /\
  (forall c s h,
      segments (transcript (exec
        (onmessage (mkMessage (Some (String c s)) None false None) now) h))
      = mergeFragment user (String c s) now (segments (transcript h)) /\
      segments (transcript (exec
        (onmessage (mkMessage None (Some (String c s)) false None) now) h))
      = mergeFragment model (String c s) now (segments (transcript h))) /\
  mergeFragment user " world" 2 (mergeFragment user "Hello" 1 [])
  = [mkSegment "1" user "Hello world" 1 true] /\
  mergeFragment model "Hi" 3
    (mergeFragment user " world" 2 (mergeFragment user "Hello" 1 []))
  = [mkSegment "1" user "Hello world" 1 true; mkSegment "3" model "Hi" 3 true].
Proof.
  repeat split.
  - intros prev0 l Hs Hp. rewrite mergeFragment_snoc, Hp.
    replace (Sender_eqb (sender l) who) with true
      by (symmetry; now apply Sender_eqb_eq).
    cbn [andb]. now rewrite Hs.
  - intros prev Hlast.
    destruct prev as [|x prev'] using rev_ind; [reflexivity|].
    rewrite mergeFragment_snoc.
    destruct (Hlast x (last_snoc _ _)) as [Hs | Hp].
    + replace (Sender_eqb (sender x) who) with false; [reflexivity|].
      symmetry. apply not_true_is_false. intros He. now apply Sender_eqb_eq in He.
    + rewrite Hp, andb_false_r. reflexivity.
  - apply mergeFragment_prefix.
Qed.

Lemma fragment_merge_rule_witness :
  mergeFragment user " world" 2 ([] ++ [mkSegment "1" user "Hello" 1 true])
  = [] ++ [mkSegment "1" user "Hello world" 1 true].
Proof.
  apply (proj1 (fragment_merge_rule user " world" 2)); reflexivity.
Defined.

(** *** Debounced buffer *)

Lemma queueAll_state (fragments : list string) (t : Transcript) :
  bufferAccumulator (queueAll fragments t)
  = (bufferAccumulator t ++ spaced fragments)%string /\
  currentTranscriptBuffer (queueAll fragments t) = currentTranscriptBuffer t /\
  segments (queueAll fragments t) = segments t.
Proof.
  revert t. induction fragments as [|f fs IH]; intros t.
  - cbn. now rewrite string_app_nil_r.
  - change (queueAll (f :: fs) t) with (queueAll fs (queueTranscriptUpdate f t)).
    destruct (IH (queueTranscriptUpdate f t)) as (Ha & Hb & Hs).
    rewrite Ha, Hb, Hs. cbn [queueTranscriptUpdate bufferAccumulator
      currentTranscriptBuffer segments spaced fold_right].
    repeat split. now rewrite !string_app_assoc.
Qed.

Lemma queueAll_timer (f : string) (fs : list string) (t : Transcript) :
  bufferDebounceTimer (queueAll (f :: fs) t) = true.
Proof.
  change (queueAll (f :: fs) t) with (queueAll fs (queueTranscriptUpdate f t)).
  assert (H : bufferDebounceTimer (queueTranscriptUpdate f t) = true)
    by (cbn; now destruct (bufferDebounceTimer t)).
  revert H. generalize (queueTranscriptUpdate f t). clear t f.
  induction fs as [|g fs IH]; intros t Ht; [exact Ht|].
  apply IH. cbn. now rewrite Ht.
Qed.

Lemma spaced_length (fragments : list string) :
  String.length (spaced fragments)
  = String.length (bare fragments) + length fragments.
Proof.
  induction fragments as [|f fs IH]; [reflexivity|].
  cbn [spaced bare fold_right length]. fold (spaced fs). fold (bare fs).
  rewrite !string_length_app, IH. cbn [String.length]. lia.
Qed.

Lemma flushTranscript_buffer (t : Transcript) :
  currentTranscriptBuffer (flushTranscript t)
  = (currentTranscriptBuffer t ++ bufferAccumulator t)%string /\
  bufferAccumulator (flushTranscript t) = ""%string /\
  bufferDebounceTimer (flushTranscript t) = false /\
  segments (flushTranscript t) = segments t.
Proof.
  unfold flushTranscript. destruct (bufferAccumulator t) eqn:E; cbn.
  - now rewrite string_app_nil_r.
  - repeat split.
Qed.

(** C9: [queueTranscriptUpdate] puts one space before every fragment it
    accumulates; once one or more fragments are queued a timer is pending,
    and its flush appends to the visible buffer what was pending followed by
    [" " ++ fragment] for each fragment in arrival order, which is longer than
    the bare concatenation of the fragments by one character per fragment. *)
Theorem queueTranscriptUpdate_flush_spaced
    (t : Transcript) (f : string) (fs : list string) :
  bufferDebounceTimer (queueAll (f :: fs) t) = true /\
  currentTranscriptBuffer (queueAll (f :: fs) t) = currentTranscriptBuffer t /\
  currentTranscriptBuffer (flushTranscript (queueAll (f :: fs) t))
  = (currentTranscriptBuffer t ++ bufferAccumulator t ++ spaced (f :: fs))%string /\
  bufferAccumulator (flushTranscript (queueAll (f :: fs) t)) = ""%string /\
  bufferDebounceTimer (flushTranscript (queueAll (f :: fs) t)) = false /\
  spaced (f :: fs) = (" " ++ f ++ spaced fs)%string /\
  String.length (spaced (f :: fs))
  = String.length (bare (f :: fs)) + length (f :: fs) /\
  spaced (f :: fs) <> bare (f :: fs).
Proof.
  destruct (queueAll_state (f :: fs) t) as (Ha & Hb & _).
  destruct (flushTranscript_buffer (queueAll (f :: fs) t)) as (Hf & Hacc & Ht & _).
  repeat split.
  - apply queueAll_timer.
  - exact Hb.
  - now rewrite Hf, Ha, Hb.
  - exact Hacc.
  - exact Ht.
  - apply spaced_length.
  - intros Heq. apply (f_equal String.length) in Heq.
    rewrite spaced_length in Heq. cbn [length] in Heq. lia.
Qed.

End TranscriptFacts.

Section NoiseGateFacts.
Import Binary64 AudioUtils GeminiLive.
Local Open Scope R_scope.










Lemma sumSquares_loop_NaN (block : Float32Array) :
  fold_left (fun acc x => jadd64 acc (jmul64 x x)) block NaN = NaN.
Proof. induction block as [|x block IH]; [reflexivity | exact IH]. Qed.

Lemma sumSquares_loop_has_NaN (block : Float32Array) (acc : jsnum) :
  In NaN block ->
  fold_left (fun acc x => jadd64 acc (jmul64 x x)) block acc = NaN.
Proof.
  revert acc. induction block as [|x block IH]; intros acc Hin; [destruct Hin|].
  destruct Hin as [-> | Hin].
  - cbn [fold_left jmul64]. replace (jadd64 acc NaN) with NaN by now destruct acc.
    apply sumSquares_loop_NaN.
  - cbn [fold_left]. now apply IH.
Qed.



Lemma fill_zero (block : Float32Array) :
  map (fun _ => Num 0) block = replicate (length block) (Num 0).
Proof. induction block as [|y l IH]; cbn; [reflexivity|]. now rewrite <- IH. Qed.

(** A quiet block that is not silent: two samples of size [1 / 1024]. *)
Example blockRms_quiet_block :
  blockRms [Num (/ 1024); Num (- / 1024)] = Num (/ 1024).
Proof.
  unfold blockRms. cbn [fold_left jadd64 jmul64 length].
  assert (E2 : INR 2 = 2) by (rewrite INR_IZR_INZ; reflexivity). rewrite E2.
  replace (/ 1024 * / 1024) with (1 / 1048576) by lra.
  replace (- / 1024 * - / 1024) with (1 / 1048576) by lra.
  rewrite (fl64_dyadic 1 1048576 20) by (reflexivity || lia).
  rewrite Rplus_0_l, (fl64_dyadic 1 1048576 20) by (reflexivity || lia).
  replace (1 / 1048576 + 1 / 1048576) with (1 / 524288) by lra.
  rewrite (fl64_dyadic 1 524288 19) by (reflexivity || lia).
  unfold jdiv64. destruct (Req_dec_T 2 0) as [H0 | _]; [lra|].
  replace (1 / 524288 / 2) with (1 / 1048576) by lra.
  rewrite (fl64_dyadic 1 1048576 20) by (reflexivity || lia).
  unfold jsqrt64. destruct (Rlt_dec (1 / 1048576) 0) as [Hn | _]; [lra|].
  replace (1 / 1048576) with (/ 1024 * / 1024) by lra.
  rewrite sqrt_square by lra.
  replace (/ 1024) with (1 / 1024) by lra.
  now rewrite (fl64_dyadic 1 1024 10) by (reflexivity || lia).
Qed.

Lemma sqrt_between (x lo hi : R) :
  0 <= lo -> 0 <= hi -> lo * lo < x < hi * hi -> lo < sqrt x < hi.
Proof.
  intros Hlo Hhi [H1 H2]. split.
  - rewrite <- (sqrt_square lo Hlo). apply sqrt_lt_1; nra.
  - rewrite <- (sqrt_square hi Hhi). apply sqrt_lt_1; nra.
Qed.

(** A block on the boundary: with the threshold [Math.sqrt(2 ^ -11)], the
    block [[0.03125, 0]] has exactly that energy as the loop computes it and
    passes, although the square root of its mean square, over the reals, is
    a little less than the threshold. *)
Example noiseGate_at_rounded_threshold :
  blockRms [Num (/ 32); Num 0] = Num (fl64 (sqrt (/ 2048))) /\
  noiseGate (fl64 (sqrt (/ 2048))) [Num (/ 32); Num 0] = [Num (/ 32); Num 0] /\
  RMS [/ 32; 0] < fl64 (sqrt (/ 2048)).
Proof.
  assert (Hrms : blockRms [Num (/ 32); Num 0] = Num (fl64 (sqrt (/ 2048)))).
  { unfold blockRms. cbn [fold_left jadd64 jmul64 length].
    assert (E2 : INR 2 = 2) by (rewrite INR_IZR_INZ; reflexivity). rewrite E2.
    replace (/ 32 * / 32) with (1 / 1024) by lra.
    rewrite Rmult_0_l, fl64_0, Rplus_0_l, Rplus_0_r.
    rewrite !(fl64_dyadic 1 1024 10) by (reflexivity || lia).
    unfold jdiv64. destruct (Req_dec_T 2 0) as [H0 | _]; [lra|].
    replace (1 / 1024 / 2) with (1 / 2048) by lra.
    rewrite (fl64_dyadic 1 2048 11) by (reflexivity || lia).
    unfold jsqrt64. destruct (Rlt_dec (1 / 2048) 0) as [Hn | _]; [lra|].
    now replace (1 / 2048) with (/ 2048) by lra. }
  split; [exact Hrms|]. split.
  - unfold noiseGate. rewrite Hrms. unfold jlt.
    destruct (Rlt_dec (fl64 (sqrt (/ 2048))) (fl64 (sqrt (/ 2048)))); [lra | reflexivity].
  - unfold RMS, sumSquares. cbn [fold_right length].
    assert (E2 : INR 2 = 2) by (rewrite INR_IZR_INZ; reflexivity). rewrite E2.
    replace ((/ 32 * / 32 + (0 * 0 + 0)) / 2) with (/ 2048) by lra.
    destruct (sqrt_between (/ 2048)
                (12738103345051545 / 576460752303423488)
                (12738103345051546 / 576460752303423488)) as [Slo Shi]; try lra.
    rewrite (fl64_eval (sqrt (/ 2048)) (-5) 6369051672525773).
    + unfold bpow. simpl. lra.
    + rewrite Rabs_pos_eq by apply sqrt_pos. unfold bpow. simpl. lra.
    + unfold bpow. simpl. lra.
Qed.



End NoiseGateFacts.

Section SendPathFacts.
Import AudioUtils GeminiLive.
Local Open Scope R_scope.

(** At the sample rate of an audio context the resampler always returns. *)
Lemma downsampleTo16k_returns (buffer : Float32Array) (rate : posreal) :
  exists out, downsampleTo16k buffer rate = Some out.
Proof.
  destruct (Req_dec_T rate PCM_SAMPLE_RATE) as [He | Hne].
  - exists buffer. unfold downsampleTo16k.
    destruct (Req_dec_T rate PCM_SAMPLE_RATE); [reflexivity | contradiction].
  - eexists. apply downsampleTo16k_eval; [apply cond_pos | assumption].
Qed.

(** The continuation alone, in whatever state it finds: a failing send
    leaves the state as it was, a successful one only records the frame. *)
Lemma sendBlock_outcome (sendThrows : bool) (pcmBlob : Blob) (h : Hook) :
  sendBlock sendThrows pcmBlob h
  = (Returned tt,
     if isLive h && negb sendThrows then perform (SendMedia pcmBlob) h else h).
Proof.
  unfold sendBlock, read, mbind, Js_bind.
  destruct (isLive h), sendThrows; reflexivity.
Qed.

(** C8: when the hook is not live, or the processor or the audio context
    has been torn down, the callback returns with the block and the state
    untouched and nothing sent; otherwise the block is gated, resampled and
    encoded, and the callback returns whether or not the send throws: a
    failing send leaves the state exactly as it was.  In no case does the
    callback throw, schedule a reconnect, or change the status or the
    reconnect flag. *)
Theorem audioCallback_never_throws
    (rate : posreal) (sendThrows : bool) (inputData : Float32Array) (h : Hook) :
  let gated := noiseGate (noiseGateThreshold (config h)) inputData in
  exists downsampled,
    downsampleTo16k gated rate = Some downsampled /\
    audioCallback rate sendThrows inputData h
    = (if isLive h && processor (pipeline h) && audioContext (pipeline h)
       then (Returned gated,
             if sendThrows then h
             else perform (SendMedia (createBlob downsampled)) h)
       else (Returned inputData, h)) /\
    (forall e, fst (audioCallback rate sendThrows inputData h) <> Thrown e) /\
    reconnectTimers (exec (audioCallback rate sendThrows inputData) h)
    = reconnectTimers h /\
    shouldReconnect (exec (audioCallback rate sendThrows inputData) h)
    = shouldReconnect h /\
    isReconnecting (exec (audioCallback rate sendThrows inputData) h)
    = isReconnecting h /\
    status (exec (audioCallback rate sendThrows inputData) h) = status h /\
    (forall (pcmBlob : Blob) (later : Hook),
        sendBlock true pcmBlob later = (Returned tt, later) /\
        sendBlock false pcmBlob later
        = (Returned tt,
           if isLive later then perform (SendMedia pcmBlob) later else later)).
Proof.
  intros gated. destruct (downsampleTo16k_returns gated rate) as [d Hd].
  exists d. split; [exact Hd|].
  assert (Heq : audioCallback rate sendThrows inputData h
    = (if isLive h && processor (pipeline h) && audioContext (pipeline h)
       then (Returned gated,
             if sendThrows then h else perform (SendMedia (createBlob d)) h)
       else (Returned inputData, h))).
  { unfold audioCallback, onaudioprocess, mbind, Js_bind, read.
    destruct (isLive h) eqn:El; cbn [negb orb andb]; [|reflexivity].
    destruct (processor (pipeline h)); cbn [negb orb andb]; [|reflexivity].
    destruct (audioContext (pipeline h)); cbn [negb orb andb]; [|reflexivity].
    fold gated. rewrite Hd. cbn [mret Js_ret fst snd].
    rewrite sendBlock_outcome, El. now destruct sendThrows. }
  split; [exact Heq|]. unfold exec. rewrite Heq.
  assert (Hlater : forall (pcmBlob : Blob) (later : Hook),
    sendBlock true pcmBlob later = (Returned tt, later) /\
    sendBlock false pcmBlob later
    = (Returned tt,
       if isLive later then perform (SendMedia pcmBlob) later else later)).
  { intros pcmBlob later. rewrite !sendBlock_outcome.
    now destruct (isLive later). }
  destruct (isLive h && processor (pipeline h) && audioContext (pipeline h));
    destruct sendThrows; cbn; repeat split; try discriminate; apply Hlater.
Qed.

End SendPathFacts.

Section SessionFacts.
Import AudioUtils GeminiLive.

(** *** Missing credential *)

(** C3, as the claim states it, fails: [connect] without a key leaves the
    status where it was, here [DISCONNECTED], and not [ERROR]. *)
Lemma connect_missing_key_counterexample :
  status (exec (connect (mkProps None false) (healthy 1))
               (initial (mkAudioConfig interactive 0) true))
  <> ERROR.
Proof. cbn. discriminate. Qed.

(** C3, amended: [connect] with an absent or empty key only surfaces the
    message ["API Key is missing."] and returns: the status, the active flag,
    the reconnect flag and everything else stay as they were, nothing is
    requested from the platform and no reconnect is scheduled. *)
Theorem connect_missing_key (systemAudio : bool) (env : ConnectEnv) (h : Hook) :
  connect (mkProps None systemAudio) env h
  = (Returned tt, set_errorMessage (Some "API Key is missing."%string) h) /\
  connect (mkProps (Some ""%string) systemAudio) env h
  = (Returned tt, set_errorMessage (Some "API Key is missing."%string) h) /\
  status (set_errorMessage (Some "API Key is missing."%string) h) = status h /\
  isLive (set_errorMessage (Some "API Key is missing."%string) h) = isLive h /\
  shouldReconnect (set_errorMessage (Some "API Key is missing."%string) h)
  = shouldReconnect h /\
  reconnectTimers (set_errorMessage (Some "API Key is missing."%string) h)
  = reconnectTimers h /\
  session (set_errorMessage (Some "API Key is missing."%string) h) = session h /\
  effects (set_errorMessage (Some "API Key is missing."%string) h) = effects h.
Proof. repeat split. Qed.

(** *** Disconnect while a reconnect is pending *)

(** C1 on the code: after the user's [disconnect] the hook is at rest with
    both flags cleared, yet the reconnect timer is still pending; when it
    fires, its callback runs [connect] unguarded, which marks the hook live
    again, moves it to [CONNECTING], acquires the microphone and opens a
    second session.  What the callback does is the same whatever the two
    flags hold: it reads neither. *)
Theorem reconnect_timer_after_disconnect
    (cfg : AudioConfig) (talkbackEnabled : bool) :
  let h := disconnectedWhilePending cfg talkbackEnabled in
  let h' := exec (reconnectTimerFires (healthy 2)) h in
  (status h = DISCONNECTED /\ isLive h = false /\ shouldReconnect h = false /\
   session h = None /\ reconnectTimers h = [withKey]) /\
  (status h' = CONNECTING /\ isLive h' = true /\ session h' = Some 2 /\
   processor (pipeline h') = true /\
   effects h'
   = effects h ++ [NewAudioContext (latencyMode cfg); GetUserMedia;
                   LiveConnect "key"]) /\
  (forall (g : Hook) (rest : list Props) (env : ConnectEnv) (live pending : bool),
      exec (reconnectTimerFires env)
        (set_isLive live (set_shouldReconnect pending
           (set_reconnectTimers (withKey :: rest) g)))
      = exec (reconnectTimerFires env) (set_reconnectTimers (withKey :: rest) g)).
Proof.
  cbn. repeat split.
Qed.

End SessionFacts.

(* ===================================================================== *)
(** * Part III: further properties of the code                            *)
(* ===================================================================== *)

Section LifecycleFacts.
Import AudioUtils GeminiLive.

(** Teardown is total, releases every handle, drops whatever text was still
    waiting for the debounce timer, keeps segments, visible buffer, status,
    session ref and timers, and can be repeated: a second teardown changes
    nothing. *)
Theorem stopAudioPipeline_idempotent (h : Hook) :
  let h' := exec stopAudioPipeline h in
  fst (stopAudioPipeline h) = Returned tt /\
  isLive h' = false /\ pipeline h' = noPipeline /\
  bufferAccumulator (transcript h') = ""%string /\
  bufferDebounceTimer (transcript h') = false /\
  segments (transcript h') = segments (transcript h) /\
  currentTranscriptBuffer (transcript h')
  = currentTranscriptBuffer (transcript h) /\
  status h' = status h /\ session h' = session h /\
  reconnectTimers h' = reconnectTimers h /\ effects h' = effects h /\
  exec stopAudioPipeline h' = h'.
Proof. repeat split. Qed.

(** [disconnect] never throws, whether or not closing the session does, and
    from every state it ends at rest: status [DISCONNECTED], not live, no
    reconnect requested or indicated, session ref cleared, every audio handle
    released.  The session is asked to close exactly when a handle was held.
    Segments and the visible buffer survive, the error message too. *)
Theorem disconnect_postcondition (closeThrows : bool) (h : Hook) :
  let h' := exec (disconnect closeThrows) h in
  fst (disconnect closeThrows h) = Returned tt /\
  status h' = DISCONNECTED /\ isLive h' = false /\
  shouldReconnect h' = false /\ isReconnecting h' = false /\
  session h' = None /\ pipeline h' = noPipeline /\
  effects h'
  = effects h ++ match session h with
                 | Some handle => [SessionClose handle]
                 | None => []
                 end /\
  segments (transcript h') = segments (transcript h) /\
  currentTranscriptBuffer (transcript h')
  = currentTranscriptBuffer (transcript h) /\
  errorMessage h' = errorMessage h.
Proof.
  destruct h as [st em ir il sr [n|] cf tb tr pl rt ef], closeThrows;
    cbv -[app]; rewrite ?app_nil_r; repeat split.
Qed.

(** Once the user has disconnected, every late callback of the old session
    finds nothing to do: a handshake that completes ([onopen]), a close or an
    error event, a debounce timer, an audio block and a send continuation all
    leave the state exactly as [disconnect] left it. *)
Theorem callbacks_after_disconnect_are_noops
    (closeThrows sendThrows : bool) (props : Props) (rate : posreal)
    (inputData : Float32Array) (pcmBlob : Blob) (h : Hook) :
  let d := exec (disconnect closeThrows) h in
  onopen d = (Returned tt, d) /\
  onclose d = (Returned tt, d) /\
  onerror props d = (Returned tt, d) /\
  debounceTimerFires d = (Returned tt, d) /\
  audioCallback rate sendThrows inputData d = (Returned inputData, d) /\
  sendBlock sendThrows pcmBlob d = (Returned tt, d).
Proof.
  intros d.
  assert (Hlive : isLive d = false)
    by (destruct h as [st em ir il sr [n|] cf tb tr pl rt ef], closeThrows;
        reflexivity).
  assert (Hcalls : onopen d = (Returned tt, d) /\ onclose d = (Returned tt, d) /\
                   onerror props d = (Returned tt, d) /\
                   debounceTimerFires d = (Returned tt, d)).
  { subst d.
    destruct h as [st em ir il sr [n|] cf tb [sg cb ba bt] pl rt ef], closeThrows;
      cbv; repeat split. }
  destruct Hcalls as (Ho & Hc & He & Hd).
  repeat split; try assumption.
  - unfold audioCallback, onaudioprocess, mbind, Js_bind, read.
    rewrite Hlive. reflexivity.
  - rewrite sendBlock_outcome, Hlive. reflexivity.
Qed.

(** A session error while live surfaces no error message: the status becomes
    [CONNECTING] with the reconnecting indicator set, the audio handles are
    released, and exactly one reconnect timer is added.  An error while not
    live only tears down: no timer, status and indicator untouched.  Because
    the teardown clears the live flag, a second error in a row adds no second
    timer. *)
Theorem onerror_schedules_one_reconnect (props : Props) (h : Hook) :
  let h' := exec (onerror props) h in
  fst (onerror props h) = Returned tt /\
  errorMessage h' = errorMessage h /\
  isLive h' = false /\ pipeline h' = noPipeline /\
  status h' = (if isLive h then CONNECTING else status h) /\
  isReconnecting h' = (if isLive h then true else isReconnecting h) /\
  shouldReconnect h' = (if isLive h then true else shouldReconnect h) /\
  reconnectTimers h'
  = reconnectTimers h ++ (if isLive h then [props] else []) /\
  reconnectTimers (exec (onerror props) h') = reconnectTimers h' /\
  effects h' = effects h.
Proof.
  destruct h as [st em ir [] sr s cf tb tr pl rt ef];
    cbv -[app]; rewrite ?app_nil_r; repeat split.
Qed.

(** A close event that arrives while a reconnect is requested is ignored
    altogether; in particular the close that follows a live error does not
    undo the [CONNECTING] status.  Any other close ends in [DISCONNECTED] with
    the audio handles released. *)
Theorem onclose_ignored_while_reconnecting (props : Props) (h : Hook) :
  (shouldReconnect h = true -> onclose h = (Returned tt, h)) /\
  (isLive h = true ->
   onclose (exec (onerror props) h) = (Returned tt, exec (onerror props) h)) /\
  (shouldReconnect h = false ->
   status (exec onclose h) = DISCONNECTED /\
   isLive (exec onclose h) = false /\
   pipeline (exec onclose h) = noPipeline /\
   reconnectTimers (exec onclose h) = reconnectTimers h).
Proof.
  destruct h as [st em ir il sr s cf tb tr pl rt ef].
  cbn [shouldReconnect isLive].
  split; [|split]; intros ->; cbv; repeat split.
Qed.

Lemma onclose_ignored_while_reconnecting_witness :
  onclose (exec (onerror withKey)
             (exec onopen (exec (connect withKey (healthy 1))
                                (initial (mkAudioConfig interactive 0) true))))
  = (Returned tt,
     exec (onerror withKey)
          (exec onopen (exec (connect withKey (healthy 1))
                             (initial (mkAudioConfig interactive 0) true)))).
Proof.
  apply (proj1 (proj2 (onclose_ignored_while_reconnecting withKey
    (exec onopen (exec (connect withKey (healthy 1))
                       (initial (mkAudioConfig interactive 0) true)))))).
  reflexivity.
Defined.

End LifecycleFacts.

Section ConnectFacts.
Import AudioUtils GeminiLive Lifecycle.

(** With a key, a [connect] whose setup fails at any step never throws: it
    ends in [ERROR], not live, with every audio handle released, the session
    ref as it was and the message of the failure surfaced (the specific one
    for a denied microphone).  No remote session is opened unless the failing
    step was the opening itself, and no reconnect is scheduled. *)
Theorem connect_failure_releases_everything
    (c : ascii) (key : string) (systemAudio : bool) (env : ConnectEnv) (h : Hook) :
  setupSucceeds env = false ->
  let props := mkProps (Some (String c key)) systemAudio in
  let h' := exec (connect props env) h in
  fst (connect props env h) = Returned tt /\
  status h' = ERROR /\ isLive h' = false /\ shouldReconnect h' = false /\
  pipeline h' = noPipeline /\ session h' = session h /\
  errorMessage h' = Some (failureMessage env) /\
  reconnectTimers h' = reconnectTimers h /\
  isReconnecting h' = isReconnecting h /\
  effects h' = effects h ++ setupEffects (latencyMode (config h)) props env /\
  existsb isLiveConnect (setupEffects (latencyMode (config h)) props env)
  = contextStarts env
    && match microphone env with MicGranted => true | _ => false end.
Proof.
  intros Hfail props h'. subst props h'.
  destruct h as [st em ir il sr s cf tb tr pl rt ef].
  destruct env as [[] [] [[]|] [n|]], systemAudio; try discriminate Hfail;
    cbv -[app]; rewrite <- ?app_assoc; repeat split.
Qed.

Lemma connect_failure_releases_everything_witness :
  status (exec (connect (mkProps (Some "key"%string) true)
                        (mkEnv true MicDenied None (Some 1)))
               (initial (mkAudioConfig interactive 0) true)) = ERROR.
Proof.
  apply (connect_failure_releases_everything "k" "ey" true
           (mkEnv true MicDenied None (Some 1))
           (initial (mkAudioConfig interactive 0) true)).
  reflexivity.
Defined.

(** With a key, a [connect] whose context, microphone and session all
    succeed ends live in [CONNECTING] (not yet [CONNECTED]) with the error
    message cleared, the new session handle stored and the capture pipeline
    built, whether or not the optional display capture succeeded: a failed or
    cancelled display capture only leaves the system source out. *)
Theorem connect_success_despite_display
    (c : ascii) (key : string) (systemAudio : bool) (env : ConnectEnv) (h : Hook) :
  setupSucceeds env = true ->
  let props := mkProps (Some (String c key)) systemAudio in
  let h' := exec (connect props env) h in
  fst (connect props env h) = Returned tt /\
  status h' = CONNECTING /\ isLive h' = true /\ shouldReconnect h' = false /\
  errorMessage h' = None /\ session h' = liveSession env /\
  audioContext (pipeline h') = true /\ stream (pipeline h') = true /\
  source (pipeline h') = true /\ processor (pipeline h') = true /\
  analyser (pipeline h') = true /\
  systemStream (pipeline h')
  = (systemStream (pipeline h)
     || systemAudio && match display env with Some _ => true | None => false end) /\
  systemSource (pipeline h')
  = (systemSource (pipeline h)
     || systemAudio && bool_decide (display env = Some true)) /\
  audioSources (pipeline h') = audioSources (pipeline h) /\
  reconnectTimers h' = reconnectTimers h /\
  effects h' = effects h ++ setupEffects (latencyMode (config h)) props env.
Proof.
  intros Hok props h'. subst props h'.
  destruct h as [st em ir il sr s cf tb tr [ac sm ss pr so sy an au] rt ef].
  destruct env as [[] [] [[]|] [n|]], systemAudio; try discriminate Hok;
    cbv -[app orb]; rewrite ?orb_true_r, ?orb_false_r, <- ?app_assoc;
    repeat split.
Qed.

Lemma connect_success_despite_display_witness :
  status (exec (connect (mkProps (Some "key"%string) true)
                        (mkEnv true MicGranted None (Some 1)))
               (initial (mkAudioConfig interactive 0) true)) = CONNECTING.
Proof.
  apply (connect_success_despite_display "k" "ey" true
           (mkEnv true MicGranted None (Some 1))
           (initial (mkAudioConfig interactive 0) true)).
  reflexivity.
Defined.

(** The automatic reconnect, end to end.  From a live hook with no timer
    pending, a session error followed by the timer firing on a platform where
    setup succeeds and then the new session opening ends [CONNECTED] and live,
    with the reconnecting indicator cleared, the timer consumed and no error
    message: the message is the old one while waiting and none afterwards. *)
Theorem reconnect_cycle_recovers
    (c : ascii) (key : string) (systemAudio : bool) (env : ConnectEnv) (h : Hook) :
  isLive h = true -> reconnectTimers h = [] -> setupSucceeds env = true ->
  let props := mkProps (Some (String c key)) systemAudio in
  let waiting := exec (onerror props) h in
  let h' := exec onopen (exec (reconnectTimerFires env) waiting) in
  (status waiting = CONNECTING /\ isReconnecting waiting = true /\
   errorMessage waiting = errorMessage h) /\
  status h' = CONNECTED /\ isLive h' = true /\ isReconnecting h' = false /\
  shouldReconnect h' = false /\ errorMessage h' = None /\
  reconnectTimers h' = [] /\ session h' = liveSession env.
Proof.
  intros Hlive Htimers Hok props waiting h'. subst props waiting h'.
  destruct h as [st em ir il sr s cf tb tr pl rt ef]. cbn in Hlive, Htimers.
  subst il rt.
  destruct env as [[] [] [[]|] [n|]], systemAudio; try discriminate Hok;
    cbv; repeat split.
Qed.

Lemma reconnect_cycle_recovers_witness :
  status (exec onopen (exec (reconnectTimerFires (healthy 2))
            (exec (onerror (mkProps (Some "key"%string) false))
               (exec onopen (exec (connect withKey (healthy 1))
                  (initial (mkAudioConfig interactive 0) true))))))
  = CONNECTED.
Proof.
  apply (reconnect_cycle_recovers "k" "ey" false (healthy 2)
           (exec onopen (exec (connect withKey (healthy 1))
                  (initial (mkAudioConfig interactive 0) true))));
    reflexivity.
Defined.

(** When the reconnect attempt itself fails, the hook ends in [ERROR] with
    the failure's message, not live and with nothing scheduled, but the
    reconnecting indicator set by the error handler is still on: only
    [onopen] and [disconnect] clear it. *)
Theorem failed_reconnect_keeps_indicator
    (c : ascii) (key : string) (systemAudio : bool) (env : ConnectEnv) (h : Hook) :
  isLive h = true -> reconnectTimers h = [] -> setupSucceeds env = false ->
  let props := mkProps (Some (String c key)) systemAudio in
  let h' := exec (reconnectTimerFires env) (exec (onerror props) h) in
  status h' = ERROR /\ errorMessage h' = Some (failureMessage env) /\
  isReconnecting h' = true /\ isLive h' = false /\
  shouldReconnect h' = false /\ reconnectTimers h' = [] /\
  pipeline h' = noPipeline.
Proof.
  intros Hlive Htimers Hfail props h'. subst props h'.
  destruct h as [st em ir il sr s cf tb tr pl rt ef]. cbn in Hlive, Htimers.
  subst il rt.
  destruct env as [[] [] [[]|] [n|]], systemAudio; try discriminate Hfail;
    cbv; repeat split.
Qed.

Lemma failed_reconnect_keeps_indicator_witness :
  isReconnecting
    (exec (reconnectTimerFires (mkEnv true MicGranted None None))
       (exec (onerror (mkProps (Some "key"%string) false))
          (exec onopen (exec (connect withKey (healthy 1))
             (initial (mkAudioConfig interactive 0) true)))))
  = true.
Proof.
  apply (failed_reconnect_keeps_indicator "k" "ey" false
           (mkEnv true MicGranted None None)
           (exec onopen (exec (connect withKey (healthy 1))
                  (initial (mkAudioConfig interactive 0) true))));
    reflexivity.
Defined.

End ConnectFacts.

Section TranscriptMoreFacts.
Import GeminiLive TranscriptViews.

Lemma bare_app (a b : list string) : bare (a ++ b) = (bare a ++ bare b)%string.
Proof.
  induction a as [|x a IH]; [reflexivity|].
  change (bare ((x :: a) ++ b)) with (x ++ bare (a ++ b))%string.
  change (bare (x :: a)) with (x ++ bare a)%string.
  now rewrite IH, string_app_assoc.
Qed.

Lemma textOf_app who (a b : list TranscriptSegment) :
  textOf who (a ++ b) = (textOf who a ++ textOf who b)%string.
Proof. unfold textOf. now rewrite List.filter_app, List.map_app, bare_app. Qed.

Lemma textOf_single who (l : TranscriptSegment) :
  textOf who [l] = if Sender_eqb (sender l) who then text l else ""%string.
Proof.
  unfold textOf. cbn [List.filter].
  destruct (Sender_eqb (sender l) who); [|reflexivity].
  cbn [map bare fold_right]. apply string_app_nil_r.
Qed.

Lemma mergeFragment_textOf who fragment now prev (s : Sender) :
  textOf s (mergeFragment who fragment now prev)
  = (textOf s prev ++ if Sender_eqb who s then fragment else "")%string.
Proof.
  destruct prev as [|l prev0 _] using rev_ind.
  - change (mergeFragment who fragment now []) with [newSegment who fragment now].
    rewrite textOf_single. reflexivity.
  - rewrite mergeFragment_snoc.
    destruct (Sender_eqb (sender l) who) eqn:Es; cbn [andb].
    + apply Sender_eqb_eq in Es.
      destruct (isPartial l).
      * rewrite !textOf_app, !textOf_single. cbn [sender text]. rewrite Es.
        destruct (Sender_eqb who s);
          now rewrite ?string_app_assoc, ?string_app_nil_r.
      * rewrite (textOf_app s (prev0 ++ [l])), textOf_single. reflexivity.
    + rewrite (textOf_app s (prev0 ++ [l])), textOf_single. reflexivity.
Qed.

(** However the segment list gets cut up, no fragment is lost, duplicated,
    reordered or given to the other speaker: after any run of fragments, what
    each speaker has said is what that speaker had said before followed by that
    speaker's fragments in arrival order.  The list never shrinks and grows by
    at most one segment per fragment. *)
Theorem merge_conserves_each_speakers_text
    (arrivals : list (Sender * string * Z)) (prev : list TranscriptSegment)
    (who : Sender) :
  textOf who (mergeAll arrivals prev)
  = (textOf who prev ++ bare (fragmentsOf who arrivals))%string /\
  length prev <= length (mergeAll arrivals prev) <= length prev + length arrivals.
Proof.
  revert prev. induction arrivals as [|[[w f] t] rest IH]; intros prev.
  - split.
    + change (mergeAll [] prev) with prev.
      change (bare (fragmentsOf who [])) with ""%string.
      now rewrite string_app_nil_r.
    + change (mergeAll [] prev) with prev. cbn [length]. lia.
  - change (mergeAll ((w, f, t) :: rest) prev)
      with (mergeAll rest (mergeFragment w f t prev)).
    destruct (IH (mergeFragment w f t prev)) as [Htext Hlen].
    assert (Hone : length prev <= length (mergeFragment w f t prev)
                   <= length prev + 1).
    { unfold mergeFragment. destruct (prev !! (length prev - 1)) as [l|].
      - destruct (Sender_eqb (sender l) w && isPartial l).
        + rewrite length_insert. lia.
        + rewrite length_app. cbn. lia.
      - rewrite length_app. cbn. lia. }
    split; [|cbn [length]; lia].
    rewrite Htext, mergeFragment_textOf. unfold fragmentsOf.
    cbn [List.filter fst snd]. destruct (Sender_eqb w who).
    + cbn [map bare fold_right fst snd]. now rewrite string_app_assoc.
    + now rewrite string_app_nil_r.
Qed.

(** A turn-complete signal clears the partial flag of every segment and
    changes nothing else: count, ids, senders, texts and timestamps stay, and
    so do the visible buffer, the accumulator and the timer; a second signal
    changes nothing.  After it, the next fragment of either speaker opens a new
    segment.  A fragment carried by the same message as the signal is merged
    first and finalized with the rest. *)
Theorem turnComplete_finalizes (t : Transcript) :
  map (fun s => (id s, sender s, text s, timestamp s))
      (segments (finalizeSegments t))
  = map (fun s => (id s, sender s, text s, timestamp s)) (segments t) /\
  Forall (fun s => isPartial s = false) (segments (finalizeSegments t)) /\
  currentTranscriptBuffer (finalizeSegments t) = currentTranscriptBuffer t /\
  bufferAccumulator (finalizeSegments t) = bufferAccumulator t /\
  bufferDebounceTimer (finalizeSegments t) = bufferDebounceTimer t /\
  finalizeSegments (finalizeSegments t) = finalizeSegments t /\
  (forall who fragment now,
      mergeFragment who fragment now (segments (finalizeSegments t))
      = segments (finalizeSegments t) ++ [newSegment who fragment now]) /\
  (forall c s now h,
      segments (transcript (exec
        (onmessage (mkMessage (Some (String c s)) None true None) now) h))
      = segments (finalizeSegments
          (mkTranscript (mergeFragment user (String c s) now
                           (segments (transcript h))) "" "" false))).
Proof.
  destruct t as [segs buf acc timer]. unfold finalizeSegments.
  cbn [segments currentTranscriptBuffer bufferAccumulator bufferDebounceTimer].
  assert (Hall : Forall (fun s => isPartial s = false)
    (map (fun s => mkSegment (id s) (sender s) (text s) (timestamp s) false) segs)).
  { apply List.Forall_forall. intros x Hx.
    apply in_map_iff in Hx as (y & <- & _). reflexivity. }
  repeat split.
  - rewrite List.map_map. reflexivity.
  - exact Hall.
  - f_equal. rewrite List.map_map. reflexivity.
  - intros who fragment now.
    set (fin := map _ segs) in *.
    destruct fin as [|l fin0 _] using rev_ind; [reflexivity|].
    rewrite mergeFragment_snoc.
    apply Forall_app in Hall as [_ Hl]. inversion_clear Hl as [|? ? Hp _].
    now rewrite Hp, andb_false_r.
Qed.

(** Text that arrived less than a debounce interval before the user
    disconnects is kept in the segment list but never reaches the visible
    buffer: [disconnect] cancels the timer and empties the accumulator, so
    nothing is left to flush. *)
Theorem disconnect_drops_pending_text
    (closeThrows : bool) (c : ascii) (s : string) (now : Z) (h : Hook) :
  let received :=
    exec (onmessage (mkMessage (Some (String c s)) None false None) now) h in
  let h' := exec debounceTimerFires (exec (disconnect closeThrows) received) in
  bufferDebounceTimer (transcript received) = true /\
  bufferAccumulator (transcript received)
  = (bufferAccumulator (transcript h) ++ " " ++ String c s)%string /\
  segments (transcript h')
  = mergeFragment user (String c s) now (segments (transcript h)) /\
  currentTranscriptBuffer (transcript h')
  = currentTranscriptBuffer (transcript h) /\
  bufferAccumulator (transcript h') = ""%string /\
  bufferDebounceTimer (transcript h') = false.
Proof.
  destruct h as [st em ir il sr [n|] cf tb [sg cb ba bt] pl rt ef], closeThrows, bt;
    cbv -[mergeFragment append]; repeat split.
Qed.

Lemma onmessage_runs (msg : LiveServerMessage) (now : Z) (h : Hook) :
  onmessage msg now h
  = (Returned tt,
     onAudioChunk (inlineData msg)
       (set_transcript
          (if turnComplete msg
           then finalizeSegments
                  (onTranscription model (outputTranscription msg) now
                     (onTranscription user (inputTranscription msg) now
                        (transcript h)))
           else onTranscription model (outputTranscription msg) now
                  (onTranscription user (inputTranscription msg) now
                     (transcript h))) h)).
Proof.
  unfold onmessage, mbind, Js_bind, modify, mret, Js_ret.
  destruct h as [st em ir il sr s cf tb tr pl rt ef].
  destruct (turnComplete msg); reflexivity.
Qed.

Lemma onAudioChunk_fields (chunk : option string) (h : Hook) :
  status (onAudioChunk chunk h) = status h /\
  isLive (onAudioChunk chunk h) = isLive h /\
  shouldReconnect (onAudioChunk chunk h) = shouldReconnect h /\
  isReconnecting (onAudioChunk chunk h) = isReconnecting h /\
  session (onAudioChunk chunk h) = session h /\
  errorMessage (onAudioChunk chunk h) = errorMessage h /\
  reconnectTimers (onAudioChunk chunk h) = reconnectTimers h /\
  effects (onAudioChunk chunk h) = effects h /\
  transcript (onAudioChunk chunk h) = transcript h /\
  exists started,
    audioSources (pipeline (onAudioChunk chunk h))
    = audioSources (pipeline h) ++ started /\
    length started
    <= if truthy chunk && audioContext (pipeline h) && talkback h then 1 else 0.
Proof.
  unfold onAudioChunk.
  destruct (truthy chunk && audioContext (pipeline h) && talkback h).
  - destruct (Base64.decode (default ""%string chunk)) as [bytes|].
    + destruct (Nat.even (length bytes) && negb (length bytes =? 0)%nat).
      * repeat split. exists [bytes]. split; [reflexivity | cbn; lia].
      * repeat split. exists []. rewrite app_nil_r. split; [reflexivity | cbn; lia].
    + repeat split. exists []. rewrite app_nil_r. split; [reflexivity | cbn; lia].
  - repeat split. exists []. rewrite app_nil_r. split; [reflexivity | cbn; lia].
Qed.

(** Receiving a message never throws and cannot disturb the connection:
    status, flags, session ref, error message, timers and requests are as
    before, and so is the visible buffer (only the timer's flush writes it).
    At most one reply buffer starts playing, and none when voice replies are
    switched off, the audio context is gone or the message has no audio. *)
Theorem onmessage_confined (msg : LiveServerMessage) (now : Z) (h : Hook) :
  let h' := exec (onmessage msg now) h in
  fst (onmessage msg now h) = Returned tt /\
  status h' = status h /\ isLive h' = isLive h /\
  shouldReconnect h' = shouldReconnect h /\
  isReconnecting h' = isReconnecting h /\ session h' = session h /\
  errorMessage h' = errorMessage h /\
  reconnectTimers h' = reconnectTimers h /\ effects h' = effects h /\
  currentTranscriptBuffer (transcript h')
  = currentTranscriptBuffer (transcript h) /\
  (exists started,
      audioSources (pipeline h') = audioSources (pipeline h) ++ started /\
      length started
      <= if truthy (inlineData msg) && audioContext (pipeline h) && talkback h
         then 1 else 0).
Proof.
  intros h'. subst h'. unfold exec. rewrite onmessage_runs. cbn [fst snd].
  match goal with
  | |- context [set_transcript ?t h] => set (t' := t)
  end.
  pose proof (onAudioChunk_fields (inlineData msg) (set_transcript t' h))
    as (H1 & H2 & H3 & H4 & H5 & H6 & H7 & H8 & H9 & started & Hs & Hl).
  cbn [status isLive shouldReconnect isReconnecting session errorMessage
       reconnectTimers effects transcript pipeline talkback set_transcript]
    in H1, H2, H3, H4, H5, H6, H7, H8, H9, Hs, Hl.
  rewrite H9.
  assert (Hbuf : currentTranscriptBuffer t' = currentTranscriptBuffer (transcript h)).
  { subst t'. destruct (turnComplete msg), (inputTranscription msg) as [[|? ?]|],
      (outputTranscription msg) as [[|? ?]|]; reflexivity. }
  repeat split; try assumption. exists started. repeat split; assumption.
Qed.

End TranscriptMoreFacts.

Section PlaybackFacts.
Import AudioUtils Playback.
Local Open Scope Z_scope.

Ltac euclid_lia := zify; Z.to_euclidean_division_equations; lia.

(** Induction over a list two elements at a time. *)
Lemma list_ind2 {A} (P : list A -> Prop) :
  P [] -> (forall a, P [a]) -> (forall a b l, P l -> P (a :: b :: l)) ->
  forall l, P l.
Proof.
  intros H0 H1 H2 l.
  assert (Hboth : P l /\ forall a, P (a :: l)).
  { induction l as [|x l [IH0 IH1]]; [now auto|].
    split; [apply IH1 | intros a; now apply H2]. }
  apply Hboth.
Qed.

Lemma Z_of_byte_range (b : byte) : 0 <= Z_of_byte b < 256.
Proof.
  unfold Z_of_byte. pose proof (N_ascii_bounded (ascii_of_byte b)). lia.
Qed.

Lemma Z_of_byte_of_Z (z : Z) : Z_of_byte (byte_of_Z z) = z mod 256.
Proof.
  unfold Z_of_byte, byte_of_Z. rewrite ascii_of_byte_of_ascii.
  assert (Hm : 0 <= z mod 256 < 256) by (apply Z.mod_pos_bound; lia).
  rewrite N_ascii_embedding by lia. lia.
Qed.

(** Little-endian packing and unpacking of 16-bit samples are inverse. *)
Lemma int16_of_bytes_int16_bytes (l : Int16Array) :
  Forall (fun z => -32768 <= z < 32768) l ->
  int16_of_bytes (int16_bytes l) = Some l.
Proof.
  induction 1 as [|z l Hz _ IH]; [reflexivity|].
  change (int16_bytes (z :: l))
    with (byte_of_Z z :: byte_of_Z (z / 256) :: int16_bytes l).
  cbn [int16_of_bytes]. rewrite IH, !Z_of_byte_of_Z.
  destruct (Z.ltb_spec (z mod 256 + 256 * ((z / 256) mod 256)) 32768);
    do 2 f_equal; euclid_lia.
Qed.

Lemma int16_of_bytes_spec (bytes : list byte) :
  match int16_of_bytes bytes with
  | Some l => (2 * length l = length bytes)%nat /\
              Forall (fun z => -32768 <= z < 32768) l
  | None => Nat.odd (length bytes) = true
  end.
Proof.
  induction bytes as [| a | lo hi rest IH] using list_ind2.
  - cbn. split; [reflexivity | constructor].
  - reflexivity.
  - cbn [int16_of_bytes]. destruct (int16_of_bytes rest) as [l|].
    + destruct IH as [Hlen Hall]. split; [cbn [length]; lia|].
      constructor; [|assumption].
      pose proof (Z_of_byte_range lo). pose proof (Z_of_byte_range hi).
      destruct (Z.ltb_spec (Z_of_byte lo + 256 * Z_of_byte hi) 32768); lia.
    + cbn [length]. now rewrite Nat.odd_succ_succ.
Qed.

Lemma pcm16_in_range (data : Float32Array) :
  Forall (fun z => -32768 <= z < 32768) (pcm16 data).
Proof.
  unfold pcm16. apply List.Forall_forall. intros z Hz.
  apply in_map_iff in Hz as (d & <- & _). destruct d as [x|].
  - pose proof (pcm_sample_range x). lia.
  - cbv. split; [discriminate | reflexivity].
Qed.

Lemma decode_encode_bytes (b : Base64.Uint8Array) :
  Base64.decode (Base64.encode b) = Some b.
Proof.
  unfold Base64.decode, Base64.encode. rewrite encode_loop.
  replace ("" ++ string_of_list_ascii (map ascii_of_byte b))%string
    with (string_of_list_ascii (map ascii_of_byte b)) by reflexivity.
  rewrite atob_btoa. cbv beta iota zeta.
  rewrite decode_loop, List.map_map.
  rewrite (List.map_ext _ (fun x => x)), List.map_id
    by (intros; apply byte_of_ascii_of_byte).
  reflexivity.
Qed.

Lemma map_nth_seq {A B} (f : A -> B) (d : A) (l : list A) :
  map (fun i => f (nth (i * 1 + 0) l d)) (seq 0 (length l)) = map f l.
Proof.
  rewrite (List.map_ext _ (fun i => f (nth i l d)))
    by (intros i; now rewrite Nat.mul_1_r, Nat.add_0_r).
  induction l as [|x l IH]; [reflexivity|].
  cbn [length seq map]. f_equal.
  rewrite <- seq_shift, List.map_map. exact IH.
Qed.

(** What [decodeAudioData] does with one channel, in one equation. *)
Lemma decodeAudioData_mono (bytes : list byte) (rate : R) :
  decodeAudioData bytes rate 1
  = match int16_of_bytes bytes with
    | Some (z :: l) =>
        Some (mkAudioBuffer rate [map (fun z => (IZR z / 32768)%R) (z :: l)])
    | _ => None
    end.
Proof.
  unfold decodeAudioData. destruct (int16_of_bytes bytes) as [[|z l]|];
    try reflexivity.
  rewrite Nat.div_1_r. cbn [Nat.eqb orb length seq map].
  do 3 f_equal. apply (map_nth_seq (fun z => (IZR z / 32768)%R) 0 (z :: l)).
Qed.

Lemma pcm_sample_zero : pcm_sample (Num 0) = 0.
Proof.
  rewrite pcm_sample_scaled. destruct (Rlt_dec 0 0) as [H0 | _]; [lra|].
  rewrite tanh_0, fl64_0, Rmult_0_l, fl64_0.
  unfold js_trunc, js_floor.
  destruct (Rle_dec 0 0); [|lra]. apply floor_unique. lra.
Qed.

Lemma pcm16_silence (n : nat) : pcm16 (replicate n (Num 0)) = replicate n 0.
Proof.
  induction n as [|n IH]; [reflexivity|].
  cbn [replicate pcm16 map]. fold (pcm16 (replicate n (Num 0))).
  now rewrite IH, pcm_sample_zero.
Qed.

(** Codec round trip: a non-empty block encoded by [createBlob], carried as
    base64 and decoded by [decode] and [decodeAudioData] comes back as one
    channel holding the 16-bit samples divided by 32768, one per input sample;
    in particular silence comes back as zeros. *)
Theorem createBlob_decodes_back (d : jsnum) (rest : Float32Array) (rate : R) :
  (match Base64.decode (data (createBlob (d :: rest))) with
   | Some bytes => decodeAudioData bytes rate 1
   | None => None
   end
   = Some (mkAudioBuffer rate
             [map (fun z => (IZR z / 32768)%R) (pcm16 (d :: rest))])) /\
  (forall n : nat,
      map (fun z => (IZR z / 32768)%R) (pcm16 (replicate n (Num 0)))
      = replicate n 0%R).
Proof.
  split.
  - unfold createBlob. cbn [data]. rewrite decode_encode_bytes.
    rewrite decodeAudioData_mono,
      (int16_of_bytes_int16_bytes _ (pcm16_in_range _)).
    reflexivity.
  - intros n. rewrite pcm16_silence.
    induction n as [|n IH]; [reflexivity|].
    cbn [replicate map]. rewrite IH. f_equal. lra.
Qed.

(** [decodeAudioData] with one channel fails exactly on an empty or an
    odd-length byte array; when it succeeds the buffer has the requested rate
    and a single channel with one sample per two bytes, each sample in
    [-1, 1). *)
Theorem decodeAudioData_mono_result (bytes : list byte) (rate : R) :
  (decodeAudioData bytes rate 1 = None
   <-> bytes = [] \/ Nat.odd (length bytes) = true) /\
  (forall buf, decodeAudioData bytes rate 1 = Some buf ->
     sampleRate buf = rate /\
     exists samples,
       channelData buf = [samples] /\
       (2 * length samples = length bytes)%nat /\
       Forall (fun x => (-1 <= x < 1)%R) samples).
Proof.
  rewrite decodeAudioData_mono. pose proof (int16_of_bytes_spec bytes) as Hspec.
  destruct (int16_of_bytes bytes) as [[|z l]|].
  - destruct Hspec as [Hlen _]. destruct bytes; [|cbn in Hlen; lia].
    split; [tauto | discriminate].
  - destruct Hspec as [Hlen Hall]. split.
    + split; [discriminate|]. intros [-> | Hodd]; [cbn in Hlen; lia|].
      rewrite <- Hlen, Nat.odd_mul in Hodd. discriminate.
    + intros buf [= <-]. split; [reflexivity|].
      eexists. split; [reflexivity|].
      split; [cbn [map length] in *; rewrite length_map; lia|].
      apply List.Forall_forall. intros x Hx.
      change (In x (map (fun z => (IZR z / 32768)%R) (z :: l))) in Hx.
      apply in_map_iff in Hx as (y & <- & Hy).
      rewrite List.Forall_forall in Hall. specialize (Hall y Hy).
      destruct Hall as [Hlo Hhi]. apply IZR_le in Hlo. apply IZR_lt in Hhi.
      split; lra.
  - split; [tauto | discriminate].
Qed.

Lemma decodeAudioData_mono_result_witness :
  sampleRate (mkAudioBuffer 24000 [[(IZR 256 / 32768)%R]]) = 24000%R /\
  exists samples,
    channelData (mkAudioBuffer 24000 [[(IZR 256 / 32768)%R]]) = [samples] /\
    (2 * length samples = length [x00; x01])%nat /\
    Forall (fun x => (-1 <= x < 1)%R) samples.
Proof.
  apply (proj2 (decodeAudioData_mono_result [x00; x01] 24000)).
  rewrite decodeAudioData_mono. reflexivity.
Defined.

(** The reply-audio part of the hook plays a chunk exactly when
    [decodeAudioData] accepts its bytes. *)
Lemma onAudioChunk_plays_what_decodes
    (chunk : option string) (h : GeminiLive.Hook) :
  GeminiLive.audioSources (GeminiLive.pipeline (GeminiLive.onAudioChunk chunk h))
  = GeminiLive.audioSources (GeminiLive.pipeline h)
    ++ (if GeminiLive.truthy chunk
           && GeminiLive.audioContext (GeminiLive.pipeline h)
           && GeminiLive.talkback h
        then match Base64.decode (default ""%string chunk) with
             | Some bytes =>
                 match decodeAudioData bytes 24000 1 with
                 | Some _ => [bytes]
                 | None => []
                 end
             | None => []
             end
        else []).
Proof.
  unfold GeminiLive.onAudioChunk.
  destruct (GeminiLive.truthy chunk
            && GeminiLive.audioContext (GeminiLive.pipeline h)
            && GeminiLive.talkback h); [|now rewrite app_nil_r].
  destruct (Base64.decode (default ""%string chunk)) as [bytes|];
    [|now rewrite app_nil_r].
  rewrite decodeAudioData_mono. pose proof (int16_of_bytes_spec bytes) as Hspec.
  destruct (int16_of_bytes bytes) as [[|z l]|].
  - destruct Hspec as [Hlen _]. destruct bytes; [|cbn in Hlen; lia].
    cbn. now rewrite app_nil_r.
  - destruct Hspec as [Hlen _].
    assert (He : Nat.even (length bytes) = true).
    { rewrite <- Hlen, Nat.even_mul. reflexivity. }
    assert (Hz : (length bytes =? 0)%nat = false).
    { apply Nat.eqb_neq. cbn [length] in Hlen. lia. }
    rewrite He, Hz. reflexivity.
  - rewrite <- Nat.negb_odd, Hspec. cbn. now rewrite app_nil_r.
Qed.

End PlaybackFacts.

Section CodecMoreFacts.
Import AudioUtils.

Lemma btoa_chars_length (l : list N) :
  length (Base64.btoa_chars l) = (4 * ((length l + 2) / 3))%nat.
Proof.
  induction l as [| a | a b | a b c l IH] using list_ind3; try reflexivity.
  cbn [Base64.btoa_chars length]. rewrite IH.
  replace (S (S (S (length l))) + 2)%nat with (length l + 2 + 1 * 3)%nat by lia.
  rewrite Nat.div_add by lia. lia.
Qed.

Lemma string_of_list_ascii_length (l : list ascii) :
  String.length (string_of_list_ascii l) = length l.
Proof. induction l as [|c l IH]; cbn; [reflexivity | now rewrite IH]. Qed.

Lemma int16_bytes_length (l : Int16Array) :
  length (int16_bytes l) = (2 * length l)%nat.
Proof.
  induction l as [|z l IH]; [reflexivity|].
  change (int16_bytes (z :: l))
    with (byte_of_Z z :: byte_of_Z (z / 256) :: int16_bytes l).
  cbn [length]. lia.
Qed.

(** The transport string of [n] bytes has [4 * ceil (n / 3)] characters, all
    of them from the base64 alphabet or the padding sign; so the frame that
    [createBlob] makes of [k] samples carries [4 * ceil (2 k / 3)] characters,
    whatever the samples are. *)
Theorem encode_length_and_alphabet (bytes : Base64.Uint8Array) :
  String.length (Base64.encode bytes) = (4 * ((length bytes + 2) / 3))%nat /\
  Forall (fun c => In c Base64.alphabet \/ c = Base64.pad)
         (list_ascii_of_string (Base64.encode bytes)) /\
  (forall samples : Float32Array,
      String.length (data (createBlob samples))
      = (4 * ((2 * length samples + 2) / 3))%nat).
Proof.
  assert (Hlen : forall b : Base64.Uint8Array,
    String.length (Base64.encode b) = (4 * ((length b + 2) / 3))%nat).
  { intros b. unfold Base64.encode, Base64.btoa. rewrite encode_loop.
    replace ("" ++ string_of_list_ascii (map ascii_of_byte b))%string
      with (string_of_list_ascii (map ascii_of_byte b)) by reflexivity.
    rewrite string_of_list_ascii_length, btoa_chars_length,
      list_ascii_of_string_of_list_ascii, !length_map. reflexivity. }
  split; [apply Hlen|]. split.
  - unfold Base64.encode, Base64.btoa. rewrite encode_loop.
    replace ("" ++ string_of_list_ascii (map ascii_of_byte bytes))%string
      with (string_of_list_ascii (map ascii_of_byte bytes)) by reflexivity.
    rewrite !list_ascii_of_string_of_list_ascii, btoa_chars_split.
    set (l := map N_of_ascii (map ascii_of_byte bytes)).
    assert (Hl : Forall (fun b => (b < 256)%N) l).
    { apply List.Forall_forall. intros b Hb. unfold l in Hb.
      apply in_map_iff in Hb as (c & <- & _). apply N_ascii_bounded. }
    pose proof (btoa_sextets_bounded l Hl) as Hsx.
    apply Forall_app. split.
    + apply List.Forall_forall. intros c Hc.
      apply in_map_iff in Hc as (n & <- & Hn).
      rewrite List.Forall_forall in Hsx. specialize (Hsx n Hn).
      left. unfold Base64.sextet_char. apply nth_In.
      change (length Base64.alphabet) with 64%nat. lia.
    + destruct (btoa_padding_cases l) as [-> | [-> | ->]];
        repeat constructor; now right.
  - intros samples. unfold createBlob. cbn [data].
    rewrite Hlen, int16_bytes_length. unfold pcm16. now rewrite length_map.
Qed.

End CodecMoreFacts.

Section SoftClipFacts.
Import AudioUtils.
Local Open Scope R_scope.

Lemma floor_monotone (x y : R) : x <= y -> (Int_part x <= Int_part y)%Z.
Proof.
  intros Hxy. apply floor_le. destruct (floor_spec x). lra.
Qed.

Lemma js_trunc_monotone (x y : R) : x <= y -> (js_trunc x <= js_trunc y)%Z.
Proof.
  intros Hxy. unfold js_trunc, js_floor, js_ceil.
  destruct (Rle_dec 0 x) as [Hx | Hx], (Rle_dec 0 y) as [Hy | Hy]; try lra.
  - now apply floor_monotone.
  - assert (H1 : 0 <= - x) by lra. pose proof (floor_nonneg _ H1).
    pose proof (floor_nonneg _ Hy). lia.
  - assert (H1 : - y <= - x) by lra. pose proof (floor_monotone _ _ H1). lia.
Qed.

(** The conversion of a sample to 16 bits is monotone: a larger input never
    gives a smaller PCM value, so soft clipping and the two scale factors
    cannot fold or wrap the signal.  Zero maps to zero, and [NaN] is stored
    as zero. *)
Theorem pcm_sample_monotone :
  (forall x y : R, x <= y -> (pcm_sample (Num x) <= pcm_sample (Num y))%Z) /\
  pcm_sample (Num 0) = 0%Z /\ pcm_sample NaN = 0%Z.
Proof.
  split; [|split; [apply pcm_sample_zero | reflexivity]].
  intros x y Hxy. rewrite !pcm_sample_scaled.
  apply js_trunc_monotone, fl64_le.
  pose proof (fl64_le _ _ (tanh_monotone x y Hxy)) as Ht.
  destruct (soft_clip_range x) as (_ & Hxn & _).
  destruct (soft_clip_range y) as (_ & _ & Hyp).
  destruct (Rlt_dec x 0) as [Hx | Hx], (Rlt_dec y 0) as [Hy | Hy]; lra.
Qed.

Lemma pcm_sample_monotone_witness :
  (pcm_sample (Num (-1)) <= pcm_sample (Num 1))%Z.
Proof. apply (proj1 pcm_sample_monotone (-1) 1). lra. Defined.

End SoftClipFacts.

Section ResamplerMoreFacts.
Import AudioUtils.
Local Open Scope R_scope.

Lemma get_map_Num (xs : list R) (k : Z) :
  (0 <= k <= Z.of_nat (length xs) - 1)%Z ->
  get (map Num xs) k = Num (nth (Z.to_nat k) xs 0).
Proof.
  intros Hk. unfold get. destruct (Z.ltb_spec k 0); [lia|].
  assert (Hlt : (Z.to_nat k < length xs)%nat) by lia.
  revert Hlt. generalize (Z.to_nat k). clear.
  induction xs as [|x xs IH]; intros [|n] Hn; cbn in *; try lia; [reflexivity|].
  apply IH. lia.
Qed.

Lemma nth_in_range (xs : list R) (lo hi : R) (n : nat) :
  Forall (fun x => lo <= x <= hi) xs -> (n < length xs)%nat ->
  lo <= nth n xs 0 <= hi.
Proof.
  intros Hall Hn. rewrite List.Forall_forall in Hall. apply Hall.
  now apply nth_In.
Qed.

(** Linear interpolation never overshoots: if every input sample is a finite
    number within [lo, hi], then at any positive rate the resampler returns,
    its output is finite throughout, and every output sample is within
    [lo, hi] too. *)
Theorem downsampleTo16k_stays_in_range
    (xs : list R) (inputRate lo hi : R) :
  0 < inputRate ->
  Forall (fun x => lo <= x <= hi) xs ->
  exists ys : list R,
    downsampleTo16k (map Num xs) inputRate = Some (map Num ys) /\
    Forall (fun y => lo <= y <= hi) ys.
Proof.
  intros Hpos Hall.
  destruct (Req_dec_T inputRate PCM_SAMPLE_RATE) as [He | Hne].
  { exists xs. split; [|assumption]. unfold downsampleTo16k.
    destruct (Req_dec_T inputRate PCM_SAMPLE_RATE); [reflexivity | contradiction]. }
  rewrite downsampleTo16k_eval by assumption.
  set (ratio := inputRate / PCM_SAMPLE_RATE).
  assert (Hr : 0 < ratio).
  { unfold ratio, PCM_SAMPLE_RATE. apply Rdiv_lt_0_compat; lra. }
  rewrite length_map.
  set (N := Z.to_nat (js_round (INR (length xs) / ratio))).
  set (pick := fun i : nat =>
    nth (Z.to_nat (fst (read_indices (map Num xs) ratio i))) xs 0
      * (1 - (INR i * ratio - IZR (fst (read_indices (map Num xs) ratio i))))
    + nth (Z.to_nat (snd (read_indices (map Num xs) ratio i))) xs 0
      * (INR i * ratio - IZR (fst (read_indices (map Num xs) ratio i)))).
  assert (Hb : forall i, In i (seq 0 N) ->
    (0 <= fst (read_indices (map Num xs) ratio i) <= Z.of_nat (length xs) - 1)%Z /\
    (0 <= snd (read_indices (map Num xs) ratio i) <= Z.of_nat (length xs) - 1)%Z).
  { intros i Hi. apply in_seq in Hi.
    pose proof (read_indices_in_bounds (map Num xs) ratio i Hr) as H.
    rewrite length_map in H. apply H. unfold N in Hi. lia. }
  exists (map pick (seq 0 N)). split.
  - f_equal. rewrite List.map_map. apply List.map_ext_in. intros i Hi.
    destruct (Hb i Hi) as [Hf Hc]. unfold lerp_sample, pick.
    destruct (read_indices (map Num xs) ratio i) as [f c]. cbn [fst snd] in *.
    rewrite !get_map_Num by assumption. reflexivity.
  - apply List.Forall_forall. intros y Hy.
    apply in_map_iff in Hy as (i & <- & Hi). destruct (Hb i Hi) as [Hf Hc].
    unfold pick.
    assert (Hw : 0 <= INR i * ratio
                      - IZR (fst (read_indices (map Num xs) ratio i)) < 1).
    { unfold read_indices, js_floor. cbn [fst].
      destruct (floor_spec (INR i * ratio)). lra. }
    set (w := INR i * ratio - IZR (fst (read_indices (map Num xs) ratio i))) in *.
    pose proof (nth_in_range xs lo hi
      (Z.to_nat (fst (read_indices (map Num xs) ratio i))) Hall) as Ha.
    pose proof (nth_in_range xs lo hi
      (Z.to_nat (snd (read_indices (map Num xs) ratio i))) Hall) as Hb'.
    specialize (Ha ltac:(lia)). specialize (Hb' ltac:(lia)).
    split; nra.
Qed.

Lemma downsampleTo16k_stays_in_range_witness :
  exists ys : list R,
    downsampleTo16k (map Num [0; 2; 4]) 24000 = Some (map Num ys) /\
    Forall (fun y => 0 <= y <= 4) ys.
Proof.
  apply (downsampleTo16k_stays_in_range [0; 2; 4] 24000 0 4); [lra|].
  repeat constructor; lra.
Defined.

(** Despite its name the function converts in both directions: at a rate
    above 16000 the output is never longer than the input, at a rate below
    16000 it is never shorter (the signal is stretched by interpolation). *)
Theorem downsampleTo16k_length_direction
    (buffer : Float32Array) (inputRate : R) :
  0 < inputRate ->
  exists out,
    downsampleTo16k buffer inputRate = Some out /\
    (PCM_SAMPLE_RATE <= inputRate -> (length out <= length buffer)%nat) /\
    (inputRate <= PCM_SAMPLE_RATE -> (length buffer <= length out)%nat).
Proof.
  intros Hpos.
  destruct (Req_dec_T inputRate PCM_SAMPLE_RATE) as [He | Hne].
  { exists buffer. unfold downsampleTo16k.
    destruct (Req_dec_T inputRate PCM_SAMPLE_RATE); [|contradiction].
    repeat split; lia. }
  rewrite downsampleTo16k_eval by assumption. eexists. split; [reflexivity|].
  rewrite length_map, length_seq.
  set (ratio := inputRate / PCM_SAMPLE_RATE).
  assert (Hr : 0 < ratio).
  { unfold ratio, PCM_SAMPLE_RATE. apply Rdiv_lt_0_compat; lra. }
  set (q := INR (length buffer) / ratio).
  assert (Hq : q * ratio = INR (length buffer)) by (unfold q; field; lra).
  pose proof (pos_INR (length buffer)) as Hn.
  assert (Hq0 : 0 <= q).
  { unfold q. apply Rmult_le_pos; [assumption|]. left. now apply Rinv_0_lt_compat. }
  pose proof (js_round_nonneg q Hq0) as Hround.
  split; intros Hdir.
  - assert (H1 : 1 <= ratio).
    { unfold ratio, PCM_SAMPLE_RATE in *.
      apply Rmult_le_reg_r with 16000; [lra|]. field_simplify. lra. }
    assert (Hlt : q + / 2 < IZR (Z.of_nat (length buffer) + 1)).
    { rewrite plus_IZR, <- INR_IZR_INZ. nra. }
    pose proof (floor_lt _ _ Hlt) as Hfl. unfold js_round in *. lia.
  - assert (H1 : ratio <= 1).
    { unfold ratio, PCM_SAMPLE_RATE in *.
      apply Rmult_le_reg_r with 16000; [lra|]. field_simplify. lra. }
    assert (Hle : IZR (Z.of_nat (length buffer)) <= q + / 2).
    { rewrite <- INR_IZR_INZ. nra. }
    pose proof (floor_le _ _ Hle) as Hfl. unfold js_round in *. lia.
Qed.

Lemma downsampleTo16k_length_direction_witness :
  exists out,
    downsampleTo16k [Num 0; Num 2; Num 4] 24000 = Some out /\
    (PCM_SAMPLE_RATE <= 24000 -> (length out <= length [Num 0; Num 2; Num 4])%nat) /\
    (24000 <= PCM_SAMPLE_RATE -> (length [Num 0; Num 2; Num 4] <= length out)%nat).
Proof. apply (downsampleTo16k_length_direction [Num 0; Num 2; Num 4] 24000). lra. Defined.

(** At a rate that is a whole multiple [k >= 2] of 16000 (32 kHz, 48 kHz)
    every interpolation weight is zero: the output is the input decimated,
    sample [i] of the output being sample [k * i] of the input, with no
    averaging of the samples in between. *)
Theorem downsampleTo16k_integer_ratio_decimates
    (buffer : Float32Array) (k : nat) :
  (2 <= k)%nat ->
  exists out,
    downsampleTo16k buffer (PCM_SAMPLE_RATE * INR k) = Some out /\
    Z.of_nat (length out) = js_round (INR (length buffer) / INR k) /\
    forall i : nat, (i < length out)%nat ->
      (k * i < length buffer)%nat /\ out !! i = buffer !! (k * i)%nat.
Proof.
  intros Hk.
  assert (Hk2 : 2 <= INR k) by (apply (le_INR 2 k) in Hk; cbn in Hk; lra).
  rewrite downsampleTo16k_eval by (unfold PCM_SAMPLE_RATE; nra).
  replace (PCM_SAMPLE_RATE * INR k / PCM_SAMPLE_RATE) with (INR k)
    by (unfold PCM_SAMPLE_RATE; field).
  assert (Hr : 0 < INR k) by lra.
  assert (Hn : (0 <= js_round (INR (length buffer) / INR k))%Z).
  { apply js_round_nonneg. apply Rmult_le_pos; [apply pos_INR|].
    left. now apply Rinv_0_lt_compat. }
  eexists. split; [reflexivity|]. rewrite length_map, length_seq.
  split; [lia|]. intros i Hi.
  pose proof (read_indices_in_bounds buffer (INR k) i Hr ltac:(lia)) as [Hf Hc].
  assert (Hidx : read_indices buffer (INR k) i
                 = (Z.of_nat (k * i), Z.of_nat (k * i))).
  { unfold read_indices, js_floor, js_ceil in *. cbn [fst snd] in Hf, Hc.
    assert (Hpos : INR i * INR k = IZR (Z.of_nat (k * i))).
    { rewrite <- INR_IZR_INZ, mult_INR. ring. }
    rewrite Hpos in *. rewrite <- opp_IZR, !floor_IZR in *. f_equal; lia. }
  rewrite Hidx in Hf, Hc. cbn [fst snd] in Hf, Hc.
  split; [lia|]. unfold Float32Array in *.
  rewrite lookup_map_seq by lia. unfold lerp_sample. rewrite Hidx.
  rewrite lerp_same. unfold get. destruct (Z.ltb_spec (Z.of_nat (k * i)) 0); [lia|].
  rewrite Nat2Z.id.
  destruct (lookup_lt_is_Some_2 buffer (k * i)%nat ltac:(lia)) as [v Hv].
  rewrite Hv. reflexivity.
Qed.

Lemma downsampleTo16k_integer_ratio_decimates_witness :
  exists out,
    downsampleTo16k [Num 0; Num 1; Num 2; Num 3; Num 4; Num 5]
                    (PCM_SAMPLE_RATE * INR 3) = Some out /\
    Z.of_nat (length out)
    = js_round (INR (length [Num 0; Num 1; Num 2; Num 3; Num 4; Num 5]) / INR 3) /\
    forall i : nat, (i < length out)%nat ->
      (3 * i < length [Num 0; Num 1; Num 2; Num 3; Num 4; Num 5])%nat /\
      out !! i = [Num 0; Num 1; Num 2; Num 3; Num 4; Num 5] !! (3 * i)%nat.
Proof.
  apply (downsampleTo16k_integer_ratio_decimates
           [Num 0; Num 1; Num 2; Num 3; Num 4; Num 5] 3). lia.
Defined.

End ResamplerMoreFacts.

Section GateMoreFacts.
Import Binary64 AudioUtils GeminiLive.
Local Open Scope R_scope.

Lemma blockRms_nonneg (block : Float32Array) (r : R) :
  blockRms block = Num r -> 0 <= r.
Proof.
  unfold blockRms, jsqrt64. destruct (jdiv64 _ _) as [x|]; [|discriminate].
  destruct (Rlt_dec x 0); [discriminate|]. intros [= <-].
  apply fl64_nonneg, sqrt_pos.
Qed.

(** The gate fails open: a threshold of zero or less never silences a
    block, and neither does a block containing a [NaN] sample, whatever the
    threshold.  The gate keeps the block length, and gating twice is gating
    once. *)
Theorem noiseGate_fails_open (threshold : R) (block : Float32Array) :
  (threshold <= 0 -> noiseGate threshold block = block) /\
  (In NaN block -> noiseGate threshold block = block) /\
  length (noiseGate threshold block) = length block /\
  noiseGate threshold (noiseGate threshold block) = noiseGate threshold block.
Proof.
  repeat split.
  - intros Hthr. unfold noiseGate, jlt.
    destruct (blockRms block) as [r|] eqn:Er; [|reflexivity].
    pose proof (blockRms_nonneg block r Er).
    destruct (Rlt_dec r threshold); [lra | reflexivity].
  - intros Hin. unfold noiseGate, blockRms.
    now rewrite sumSquares_loop_has_NaN.
  - unfold noiseGate. destruct (jlt _ _); [apply length_map | reflexivity].
  - unfold noiseGate. destruct (jlt (blockRms block) (Num threshold)) eqn:E.
    + destruct (jlt (blockRms (map (fun _ => Num 0) block)) (Num threshold));
        [|reflexivity].
      now rewrite List.map_map.
    + now rewrite E.
Qed.

Lemma noiseGate_fails_open_witness :
  noiseGate 0 [Num 1; Num 0] = [Num 1; Num 0].
Proof. apply (proj1 (noiseGate_fails_open 0 [Num 1; Num 0])). lra. Defined.

Lemma noiseGate_gates (threshold rms : R) (block : Float32Array) :
  blockRms block = Num rms -> rms < threshold ->
  noiseGate threshold block = replicate (length block) (Num 0).
Proof.
  intros Hrms Hlt. unfold noiseGate. rewrite Hrms. unfold jlt.
  destruct (Rlt_dec rms threshold); [apply fill_zero | contradiction].
Qed.

Lemma downsampleTo16k_replicate (rate : posreal) (n : nat) (v : jsnum) :
  exists m, downsampleTo16k (replicate n v) rate = Some (replicate m v).
Proof.
  destruct (Req_dec_T rate PCM_SAMPLE_RATE) as [He | Hne].
  { exists n. unfold downsampleTo16k.
    destruct (Req_dec_T rate PCM_SAMPLE_RATE); [reflexivity | contradiction]. }
  rewrite downsampleTo16k_eval by (try apply cond_pos; assumption).
  rewrite length_replicate. eexists. f_equal. apply map_seq_const.
  intros i Hi. unfold lerp_sample.
  assert (Hr : 0 < rate / PCM_SAMPLE_RATE).
  { unfold PCM_SAMPLE_RATE. apply Rdiv_lt_0_compat; [apply cond_pos | lra]. }
  pose proof (read_indices_in_bounds (replicate n v) _ i Hr) as Hb.
  rewrite length_replicate in Hb. destruct Hb as [Hf Hc]; [lia|].
  destruct (read_indices (replicate n v) (rate / PCM_SAMPLE_RATE) i) as [f c].
  cbn [fst snd] in Hf, Hc. rewrite !get_replicate by assumption.
  apply lerp_same.
Qed.

(** The gate silences a block but does not hold it back: on a live hook a
    block whose energy, as the loop computes it, is below the threshold is
    still resampled, encoded and sent, as a frame of zero samples only. *)
Theorem gated_block_is_sent_as_silence
    (rate : posreal) (block : Float32Array) (rms : R) (h : Hook) :
  isLive h && processor (pipeline h) && audioContext (pipeline h) = true ->
  blockRms block = Num rms -> rms < noiseGateThreshold (config h) ->
  exists m : nat,
    downsampleTo16k (replicate (length block) (Num 0)) rate
    = Some (replicate m (Num 0)) /\
    audioCallback rate false block h
    = (Returned (replicate (length block) (Num 0)),
       perform (SendMedia (createBlob (replicate m (Num 0)))) h) /\
    pcm16 (replicate m (Num 0)) = replicate m 0%Z.
Proof.
  intros Hguard Hrms Hlt.
  destruct (downsampleTo16k_replicate rate (length block) (Num 0)) as [m Hm].
  exists m. split; [exact Hm|]. split; [|apply pcm16_silence].
  apply andb_prop in Hguard as [Hguard Hctx].
  apply andb_prop in Hguard as [Hlive Hproc].
  unfold audioCallback, onaudioprocess, mbind, Js_bind, read.
  rewrite Hlive, Hproc, Hctx. cbn [negb orb].
  rewrite (noiseGate_gates _ _ _ Hrms Hlt), Hm. cbn [mret Js_ret fst snd].
  rewrite sendBlock_outcome, Hlive. reflexivity.
Qed.

Lemma gated_block_is_sent_as_silence_witness :
  exists m : nat,
    downsampleTo16k
      (replicate (length [Num (/ 1024); Num (- / 1024)]) (Num 0))
      (mkposreal 48000 ltac:(lra))
    = Some (replicate m (Num 0)) /\
    audioCallback (mkposreal 48000 ltac:(lra)) false
      [Num (/ 1024); Num (- / 1024)]
      (exec (connect withKey (healthy 1))
            (initial (mkAudioConfig interactive (1 / 100)) true))
    = (Returned (replicate (length [Num (/ 1024); Num (- / 1024)]) (Num 0)),
       perform (SendMedia (createBlob (replicate m (Num 0))))
         (exec (connect withKey (healthy 1))
               (initial (mkAudioConfig interactive (1 / 100)) true))) /\
    pcm16 (replicate m (Num 0)) = replicate m 0%Z.
Proof.
  apply (gated_block_is_sent_as_silence (mkposreal 48000 ltac:(lra))
           [Num (/ 1024); Num (- / 1024)] (/ 1024)
           (exec (connect withKey (healthy 1))
                 (initial (mkAudioConfig interactive (1 / 100)) true))).
  - reflexivity.
  - apply blockRms_quiet_block.
  - change (noiseGateThreshold
              (config (exec (connect withKey (healthy 1))
                 (initial (mkAudioConfig interactive (1 / 100)) true))))
      with (1 / 100).
    lra.
Defined.

End GateMoreFacts.

Section TextInputFacts.
Import GeminiLive TextInput.

Lemma dropWhile_nil {A} (f : A -> bool) (l : list A) :
  dropWhile f l = [] <-> Forall (fun x => f x = true) l.
Proof.
  induction l as [|x l IH]; cbn.
  - split; [constructor | reflexivity].
  - destruct (f x) eqn:Ex.
    + rewrite IH. split; [now constructor | now inversion 1].
    + split; [discriminate | inversion 1; congruence].
Qed.

Lemma dropWhile_head {A} (f : A -> bool) (l : list A) (x : A) (r : list A) :
  dropWhile f l = x :: r -> f x = false.
Proof.
  induction l as [|y l IH]; cbn; [discriminate|].
  destruct (f y) eqn:Ey; [exact IH | now intros [= -> _]].
Qed.

Lemma string_of_list_ascii_nil (l : list ascii) :
  string_of_list_ascii l = EmptyString <-> l = [].
Proof. destruct l; cbn; split; congruence. Qed.

(** A text is blank for [trim] exactly when all its characters are white
    space. *)
Lemma blank_spec (s : string) :
  blank s = true
  <-> Forall (fun c => isWhiteSpace c = true) (list_ascii_of_string s).
Proof.
  unfold blank.
  assert (Hb : (match trim s with EmptyString => true | String _ _ => false end)
               = true <-> trim s = EmptyString)
    by (destruct (trim s); split; congruence).
  rewrite Hb. unfold trim. rewrite string_of_list_ascii_nil.
  set (l := list_ascii_of_string s).
  split.
  - intros Hrev. apply (f_equal (@rev ascii)) in Hrev.
    rewrite rev_involutive in Hrev. cbn in Hrev.
    apply dropWhile_nil in Hrev.
    destruct (dropWhile isWhiteSpace l) as [|x r] eqn:Ed.
    + now apply dropWhile_nil.
    + pose proof (dropWhile_head _ _ _ _ Ed) as Hx.
      rewrite List.Forall_forall in Hrev.
      rewrite (Hrev x) in Hx; [discriminate|].
      apply (proj1 (in_rev (x :: r) x)). now left.
  - intros Hall. apply dropWhile_nil in Hall. rewrite Hall. reflexivity.
Qed.

Lemma sendTextMessage_runs (sendThrows : bool) (text : string) (now : Z) (h : Hook) :
  blank text = false ->
  sendTextMessage sendThrows text now h
  = (match session h with
     | Some _ =>
         if isLive h then
           if sendThrows then Thrown OtherError else Returned (Some text)
         else Returned None
     | None => Returned None
     end,
     set_transcript
       (queueTranscriptUpdate text
          (mkTranscript
             (segments (transcript h) ++ [mkSegment (pretty now) user text now false])
             (currentTranscriptBuffer (transcript h))
             (bufferAccumulator (transcript h))
             (bufferDebounceTimer (transcript h)))) h).
Proof.
  intros Hb. unfold sendTextMessage. rewrite Hb.
  unfold mbind, Js_bind, modify, read, mret, Js_ret, throw.
  destruct h as [st em ir [] sr [n|] cf tb tr pl rt ef], sendThrows; reflexivity.
Qed.

(** A typed message made of white space only is ignored.  Any other text is
    recorded exactly as typed, untrimmed, as a finished user segment, and
    queued for the visible buffer, whether or not a session is up; it is
    handed to the session only when one is held and the hook is live, and if
    that call throws the exception leaves the function after the text has
    already been recorded.  Because the segment is not partial, user speech
    arriving next starts a segment of its own. *)
Theorem sendTextMessage_records_then_sends
    (sendThrows : bool) (text : string) (now : Z) (h : Hook) :
  (Forall (fun c => isWhiteSpace c = true) (list_ascii_of_string text) ->
   sendTextMessage sendThrows text now h = (Returned None, h)) /\
  (~ Forall (fun c => isWhiteSpace c = true) (list_ascii_of_string text) ->
   let h' := exec (sendTextMessage sendThrows text now) h in
   segments (transcript h')
   = segments (transcript h) ++ [mkSegment (pretty now) user text now false] /\
   bufferAccumulator (transcript h')
   = (bufferAccumulator (transcript h) ++ " " ++ text)%string /\
   bufferDebounceTimer (transcript h') = true /\
   currentTranscriptBuffer (transcript h')
   = currentTranscriptBuffer (transcript h) /\
   fst (sendTextMessage sendThrows text now h)
   = match session h with
     | Some _ =>
         if isLive h then
           if sendThrows then Thrown OtherError else Returned (Some text)
         else Returned None
     | None => Returned None
     end /\
   (forall fragment later,
       mergeFragment user fragment later (segments (transcript h'))
       = segments (transcript h') ++ [newSegment user fragment later])).
Proof.
  split.
  - intros Hws. apply blank_spec in Hws. unfold sendTextMessage.
    now rewrite Hws.
  - intros Hnws h'. subst h'.
    assert (Hb : blank text = false).
    { destruct (blank text) eqn:E; [|reflexivity].
      apply blank_spec in E. contradiction. }
    unfold exec. rewrite (sendTextMessage_runs _ _ _ _ Hb). cbn [fst snd].
    destruct h as [st em ir il sr s cf tb [sg cb ba bt] pl rt ef].
    cbn [transcript set_transcript queueTranscriptUpdate segments
         currentTranscriptBuffer bufferAccumulator bufferDebounceTimer].
    repeat split.
    + now destruct bt.
    + intros fragment later. rewrite mergeFragment_snoc. cbn [isPartial].
      now rewrite andb_false_r.
Qed.

Lemma sendTextMessage_records_then_sends_witness :
  sendTextMessage false "  " 5 (initial (mkAudioConfig interactive 0) true)
  = (Returned None, initial (mkAudioConfig interactive 0) true).
Proof.
  apply (proj1 (sendTextMessage_records_then_sends false "  " 5
                  (initial (mkAudioConfig interactive 0) true))).
  repeat constructor.
Defined.

(** Submitting the input box: a blank input changes nothing.  Otherwise the
    text is recorded once and the box is cleared, unless the send throws: then
    the text is already in the transcript but stays in the box, so submitting
    again records it a second time. *)
Theorem handleManualSubmit_clears_after_send
    (now later : Z) (h : Hook) (input : string) :
  (blank input = true ->
   forall sendThrows,
     handleManualSubmit sendThrows now (mkForm h input)
     = (Returned None, mkForm h input)) /\
  (blank input = false ->
   let sent := handleManualSubmit false now (mkForm h input) in
   manualInput (snd sent) = ""%string /\
   segments (transcript (hook (snd sent)))
   = segments (transcript h) ++ [mkSegment (pretty now) user input now false]) /\
  (blank input = false -> session h <> None -> isLive h = true ->
   let failed := handleManualSubmit true now (mkForm h input) in
   let again := handleManualSubmit true later (snd failed) in
   fst failed = Thrown OtherError /\
   manualInput (snd failed) = input /\
   segments (transcript (hook (snd again)))
   = segments (transcript h)
     ++ [mkSegment (pretty now) user input now false;
         mkSegment (pretty later) user input later false]).
Proof.
  assert (Hrun : forall sendThrows t text g,
    blank text = false ->
    handleManualSubmit sendThrows t (mkForm g text)
    = match session g with
      | Some _ =>
          if isLive g then
            if sendThrows
            then (Thrown OtherError,
                  mkForm (snd (sendTextMessage sendThrows text t g)) text)
            else (Returned (Some text),
                  mkForm (snd (sendTextMessage sendThrows text t g)) "")
          else (Returned None,
                mkForm (snd (sendTextMessage sendThrows text t g)) "")
      | None => (Returned None,
                 mkForm (snd (sendTextMessage sendThrows text t g)) "")
      end).
  { intros sendThrows t text g Hb. unfold handleManualSubmit.
    cbn [manualInput TextInput.hook].
    rewrite Hb, (sendTextMessage_runs _ _ _ _ Hb). cbn [snd].
    now destruct (session g), (isLive g), sendThrows. }
  split; [|split].
  - intros Hb sendThrows. unfold handleManualSubmit. cbn [manualInput].
    now rewrite Hb.
  - intros Hb sent. subst sent. rewrite (Hrun _ _ _ _ Hb).
    rewrite (sendTextMessage_runs _ _ _ _ Hb). cbn [snd].
    destruct h as [st em ir il sr s cf tb [sg cb ba bt] pl rt ef].
    now destruct s, il.
  - intros Hb Hs Hlive failed again. subst again failed.
    rewrite (Hrun _ _ _ _ Hb). destruct (session h) as [n|] eqn:Es;
      [|contradiction].
    rewrite Hlive. cbn [fst snd manualInput].
    split; [reflexivity|]. split; [reflexivity|].
    rewrite (Hrun _ _ _ _ Hb), !(sendTextMessage_runs _ _ _ _ Hb). cbn [snd].
    destruct h as [st em ir il sr s cf tb [sg cb ba bt] pl rt ef].
    cbn in Es, Hlive. subst s il. cbn. now rewrite <- app_assoc.
Qed.

Lemma handleManualSubmit_clears_after_send_witness :
  handleManualSubmit false 1
    (mkForm (initial (mkAudioConfig interactive 0) true) " ")
  = (Returned None, mkForm (initial (mkAudioConfig interactive 0) true) " ") /\
  manualInput
    (snd (handleManualSubmit false 1
            (mkForm (initial (mkAudioConfig interactive 0) true) "hi")))
  = ""%string.
Proof.
  pose proof (handleManualSubmit_clears_after_send 1 2
                (initial (mkAudioConfig interactive 0) true) " ") as [Hblank _].
  pose proof (handleManualSubmit_clears_after_send 1 2
                (initial (mkAudioConfig interactive 0) true) "hi")
    as [_ [Hsent _]].
  split.
  - apply Hblank. reflexivity.
  - apply Hsent. reflexivity.
Defined.

End TextInputFacts.

Section ChartFacts.
Import Notes.

Lemma bump_topics (t : string) (acc : list StatPoint) (u : string) :
  In u (map topic (bump t acc)) <-> u = t \/ In u (map topic acc).
Proof.
  induction acc as [|p rest IH]; cbn.
  - intuition congruence.
  - destruct (String.eqb_spec (topic p) t) as [He | Hne]; cbn.
    + intuition congruence.
    + rewrite IH. tauto.
Qed.

Lemma bump_NoDup (t : string) (acc : list StatPoint) :
  List.NoDup (map topic acc) -> List.NoDup (map topic (bump t acc)).
Proof.
  induction acc as [|p rest IH]; cbn; intros Hnd.
  - constructor; [intros [] | constructor].
  - destruct (String.eqb_spec (topic p) t) as [He | Hne]; cbn; [assumption|].
    inversion_clear Hnd as [|? ? Hnotin Hrest]. constructor; [|now apply IH].
    rewrite bump_topics. intros [Hu | Hin]; [congruence | contradiction].
Qed.

Lemma bump_counts (c : string -> nat) (t : string) (acc : list StatPoint) :
  List.NoDup (map topic acc) ->
  (forall p, In p acc -> count p = c (topic p)) ->
  (~ In t (map topic acc) -> c t = 0) ->
  forall p, In p (bump t acc) ->
    count p = c (topic p) + (if String.eqb (topic p) t then 1 else 0).
Proof.
  induction acc as [|q rest IH]; cbn [bump]; intros Hnd Hc Hnew p Hp.
  - destruct Hp as [<- | []]. cbn [count topic]. rewrite String.eqb_refl.
    rewrite Hnew by (intros []). reflexivity.
  - inversion_clear Hnd as [|? ? Hnotin Hrest].
    destruct (String.eqb_spec (topic q) t) as [He | Hne].
    + destruct Hp as [<- | Hp].
      * cbn [count topic]. rewrite (proj2 (String.eqb_eq _ _) He).
        rewrite (Hc q) by now left. lia.
      * assert (Hpt : topic p <> t).
        { intros Heq. apply Hnotin. rewrite He, <- Heq. now apply in_map. }
        rewrite (proj2 (String.eqb_neq _ _) Hpt), (Hc p) by now right. lia.
    + destruct Hp as [<- | Hp].
      * rewrite (proj2 (String.eqb_neq _ _) Hne), (Hc q) by now left. lia.
      * apply IH; try assumption.
        -- intros p' Hp'. apply Hc. now right.
        -- intros Hnot. apply Hnew. cbn. intros [Hq | Hin]; [congruence | contradiction].
Qed.

Lemma count_occ_snoc (ts : list string) (t u : string) :
  count_occ string_dec (ts ++ [t]) u
  = count_occ string_dec ts u + (if String.eqb u t then 1 else 0).
Proof.
  rewrite count_occ_app. cbn [count_occ].
  destruct (string_dec t u) as [-> | Hne].
  - now rewrite String.eqb_refl.
  - rewrite (proj2 (String.eqb_neq u t)) by congruence. reflexivity.
Qed.

(** The counting pass gives one entry per distinct topic, holding the
    number of times the topic occurs. *)
Lemma countTopics_spec (ts : list string) :
  List.NoDup (map topic (countTopics ts)) /\
  (forall p, In p (countTopics ts) ->
     count p = count_occ string_dec ts (topic p)) /\
  (forall u, In u (map topic (countTopics ts)) <-> In u ts).
Proof.
  induction ts as [|t ts (Hnd & Hc & Hin)] using rev_ind.
  - cbn. repeat split; try constructor; try tauto; intros p [].
  - unfold countTopics in *. rewrite fold_left_app. cbn [fold_left].
    set (acc := fold_left (fun acc t => bump t acc) ts []) in *.
    repeat split.
    + now apply bump_NoDup.
    + intros p Hp. rewrite count_occ_snoc.
      apply (bump_counts (count_occ string_dec ts) t acc); try assumption.
      intros Hnot. apply count_occ_not_In. now rewrite <- Hin.
    + rewrite bump_topics, Hin, in_app_iff. cbn. intuition congruence.
    + rewrite bump_topics, Hin, in_app_iff. cbn. intuition congruence.
Qed.

Lemma insertDesc_perm (p : StatPoint) (l : list StatPoint) :
  Permutation (insertDesc p l) (p :: l).
Proof.
  induction l as [|q r IH]; cbn [insertDesc]; [reflexivity|].
  destruct (count p <? count q)%nat; [|reflexivity].
  rewrite IH. apply perm_swap.
Qed.

Lemma sortDesc_perm (l : list StatPoint) : Permutation (sortDesc l) l.
Proof.
  induction l as [|p l IH]; cbn [sortDesc fold_right]; [reflexivity|].
  fold (sortDesc l). rewrite insertDesc_perm. now constructor.
Qed.

Lemma insertDesc_sorted (p : StatPoint) (l : list StatPoint) :
  StronglySorted (fun a b => count b <= count a) l ->
  StronglySorted (fun a b => count b <= count a) (insertDesc p l).
Proof.
  induction 1 as [|q r Hs IH Hall]; cbn [insertDesc].
  - repeat constructor.
  - destruct (Nat.ltb_spec (count p) (count q)).
    + constructor; [assumption|].
      apply List.Forall_forall. intros x Hx.
      apply (Permutation_in _ (insertDesc_perm p r)) in Hx.
      destruct Hx as [<- | Hx]; [lia|].
      rewrite List.Forall_forall in Hall. now apply Hall.
    + constructor; [now constructor|]. constructor; [lia|].
      eapply List.Forall_impl; [|exact Hall]. cbn. intros; lia.
Qed.

Lemma sortDesc_sorted (l : list StatPoint) :
  StronglySorted (fun a b => count b <= count a) (sortDesc l).
Proof.
  induction l as [|p l IH]; cbn [sortDesc fold_right];
    [constructor | now apply insertDesc_sorted].
Qed.

Lemma sorted_app_order {A} (R : A -> A -> Prop) (l1 l2 : list A) :
  StronglySorted R (l1 ++ l2) ->
  forall a b, In a l1 -> In b l2 -> R a b.
Proof.
  induction l1 as [|x l1 IH]; cbn; intros Hs a b Ha Hb; [destruct Ha|].
  inversion_clear Hs as [|? ? Hs' Hall]. destruct Ha as [<- | Ha].
  - rewrite List.Forall_forall in Hall. apply Hall, in_or_app. now right.
  - now apply IH.
Qed.

Lemma sorted_prefix {A} (R : A -> A -> Prop) (l1 l2 : list A) :
  StronglySorted R (l1 ++ l2) -> StronglySorted R l1.
Proof.
  induction l1 as [|x l1 IH]; cbn; intros Hs; [constructor|].
  inversion_clear Hs as [|? ? Hs' Hall]. constructor; [now apply IH|].
  apply Forall_app in Hall. tauto.
Qed.

(** The chart shows the most frequent topics: at most five entries, one per
    topic, ordered by falling count, each count being the number of times the
    topic occurs over all notes; a topic that occurs but is not shown has been
    pushed out by five entries that occur at least as often. *)
Theorem chartData_shows_top_five (ns : list OrganizedNote) :
  length (chartData ns) <= 5 /\
  List.NoDup (map topic (chartData ns)) /\
  StronglySorted (fun a b => count b <= count a) (chartData ns) /\
  (forall p, In p (chartData ns) ->
     In (topic p) (allTopics ns) /\
     count p = count_occ string_dec (allTopics ns) (topic p) /\ 1 <= count p) /\
  (forall t, In t (allTopics ns) -> ~ In t (map topic (chartData ns)) ->
     length (chartData ns) = 5 /\
     forall p, In p (chartData ns) ->
       count_occ string_dec (allTopics ns) t <= count p).
Proof.
  unfold chartData. set (ts := allTopics ns).
  destruct (countTopics_spec ts) as (Hnd & Hc & Hin).
  set (sorted := sortDesc (countTopics ts)).
  pose proof (sortDesc_perm (countTopics ts)) as Hperm. fold sorted in Hperm.
  pose proof (sortDesc_sorted (countTopics ts)) as Hsorted. fold sorted in Hsorted.
  rewrite <- (take_drop 5 sorted) in Hsorted, Hperm.
  assert (Hmem : forall p, In p (take 5 sorted) -> In p (countTopics ts)).
  { intros p Hp. apply (Permutation_in _ Hperm), in_or_app. now left. }
  split; [rewrite length_take; lia|].
  split.
  { apply (Permutation_map topic), Permutation_sym in Hperm.
    apply (Permutation_NoDup Hperm) in Hnd. rewrite List.map_app in Hnd.
    now apply List.NoDup_app_remove_r in Hnd. }
  split; [now apply sorted_prefix in Hsorted|].
  split.
  - intros p Hp. pose proof (Hmem p Hp) as Hp'.
    assert (Hocc : In (topic p) ts) by (apply Hin; now apply in_map).
    split; [exact Hocc|]. split; [now apply Hc|].
    rewrite (Hc p Hp').
    now apply (proj1 (count_occ_In string_dec ts (topic p))).
  - intros t Ht Hshown.
    apply Hin, in_map_iff in Ht as (q & Hq & Hqin).
    apply (Permutation_in _ (Permutation_sym Hperm)), in_app_or in Hqin.
    destruct Hqin as [Hq5 | Hqd].
    { exfalso. apply Hshown. rewrite <- Hq. now apply in_map. }
    split.
    + rewrite length_take. destruct (drop 5 sorted) eqn:Ed; [destruct Hqd|].
      destruct (Nat.lt_ge_cases 5 (length sorted)) as [Hlt | Hge]; [lia|].
      rewrite drop_ge in Ed by lia. discriminate.
    + intros p Hp.
      pose proof (sorted_app_order _ _ _ Hsorted p q Hp Hqd) as Hle. cbn in Hle.
      rewrite <- Hq, <- (Hc q); [exact Hle|].
      apply (Permutation_in _ Hperm), in_or_app. now right.
Qed.

Lemma chartData_shows_top_five_witness :
  In (topic (mkStat "a" 1))
     (allTopics [mkNote (mkNoteData "" "" ["a"] [] [] neutral) ""]) /\
  count (mkStat "a" 1)
  = count_occ string_dec
      (allTopics [mkNote (mkNoteData "" "" ["a"] [] [] neutral) ""])
      (topic (mkStat "a" 1)) /\
  1 <= count (mkStat "a" 1).
Proof.
  apply (proj1 (proj2 (proj2 (proj2 (chartData_shows_top_five
           [mkNote (mkNoteData "" "" ["a"] [] [] neutral) ""]))))).
  now left.
Defined.

End ChartFacts.

Section InsightFacts.
Import GeminiLive TextInput Notes.

(** Without a key, or for a transcript of white space only, nothing is sent
    to the text model and the result is [null], whatever the model would have
    answered.  Otherwise exactly one request goes out, carrying the transcript
    unchanged behind the fixed instruction, and a note comes back only when
    the model answers with a non-empty text that parses; the note is the
    parsed data with the time stamp of the call.  A rejected call, an empty
    answer and an unparsable answer all give [null]. *)
Theorem organizeTranscript_guards_and_result
    (parse : string -> option NoteData) (answer : ServiceAnswer) (nowISO transcript : string) (apiKey : option string) :
  (truthy apiKey = false \/
   Forall (fun c => isWhiteSpace c = true) (list_ascii_of_string transcript) ->
   organizeTranscript parse answer nowISO transcript apiKey = ([], None)) /\
  (truthy apiKey = true ->
   ~ Forall (fun c => isWhiteSpace c = true) (list_ascii_of_string transcript) ->
   fst (organizeTranscript parse answer nowISO transcript apiKey)
   = [prompt transcript] /\
   (forall note,
       snd (organizeTranscript parse answer nowISO transcript apiKey) = Some note
       <-> exists c text data,
             answer = Answers (Some (String c text)) /\
             parse (String c text) = Some data /\
             note = mkNote data nowISO)).
Proof.
  split.
  - intros [Hkey | Hws]; unfold organizeTranscript.
    + now rewrite Hkey.
    + apply blank_spec in Hws. rewrite Hws. now rewrite orb_true_r.
  - intros Hkey Hnws.
    assert (Hb : blank transcript = false).
    { destruct (blank transcript) eqn:E; [|reflexivity].
      apply blank_spec in E. contradiction. }
    unfold organizeTranscript. rewrite Hkey, Hb. cbn [negb orb fst snd].
    split; [reflexivity|]. intros note. split.
    + destruct answer as [|[[|c text]|]]; cbn; try discriminate.
      destruct (parse (String c text)) as [data|] eqn:Ep; [|discriminate].
      intros [= <-]. now exists c, text, data.
    + intros (c & text & data & -> & Hp & ->). cbn. now rewrite Hp.
Qed.

Lemma organizeTranscript_guards_and_result_witness :
  organizeTranscript (fun _ => None) (Answers (Some "{}"%string)) "t" "   "
    (Some "key"%string)
  = ([], None).
Proof.
  apply (proj1 (organizeTranscript_guards_and_result (fun _ => None)
                  (Answers (Some "{}"%string)) "t" "   " (Some "key"%string))).
  right. repeat constructor.
Defined.

(** An analysis never loses text by failing.  A run does nothing at all
    without a key or with fewer than 10 characters in the visible buffer.
    Otherwise it ends with the processing flag off, and either a note was
    produced, which is put in front of the notes while the visible buffer is
    emptied, or the notes and the buffer are exactly as before.  Segments and
    everything else in the hook are never touched, and at most one request is
    sent.  The effect that starts an analysis by itself does so only from 200
    characters on and never while one is in progress. *)
Theorem handleGenerateInsight_keeps_text_on_failure
    (parse : string -> option NoteData) (answer : ServiceAnswer) (nowISO : string) (apiKey : option string) (a : App) :
  let buffer := currentTranscriptBuffer (transcript (hook a)) in
  let run := handleGenerateInsight parse answer nowISO apiKey a in
  (truthy apiKey && (10 <=? String.length buffer)%nat = false -> run = ([], a)) /\
  (truthy apiKey && (10 <=? String.length buffer)%nat = true ->
   isProcessingNotes (snd run) = false /\
   fst run = fst (organizeTranscript parse answer nowISO buffer apiKey) /\
   match snd (organizeTranscript parse answer nowISO buffer apiKey) with
   | Some note =>
       notes (snd run) = note :: notes a /\
       hook (snd run) = setCurrentTranscriptBuffer "" (hook a)
   | None => notes (snd run) = notes a /\ hook (snd run) = hook a
   end) /\
  segments (transcript (hook (snd run))) = segments (transcript (hook a)) /\
  length (fst run) <= 1 /\
  (isProcessingNotes a = true \/ (String.length buffer < AUTO_ANALYZE_THRESHOLD)%nat ->
   autoAnalyze parse answer nowISO apiKey a = ([], a)).
Proof.
  intros buffer run.
  assert (Hauto : isProcessingNotes a = true
                  \/ (String.length buffer < AUTO_ANALYZE_THRESHOLD)%nat ->
                  autoAnalyze parse answer nowISO apiKey a = ([], a)).
  { intros [Hproc | Hshort]; unfold autoAnalyze; fold buffer.
    - rewrite Hproc. cbn [negb]. now rewrite andb_false_r.
    - unfold AUTO_ANALYZE_THRESHOLD in *.
      replace (200 <=? String.length buffer)%nat with false
        by (symmetry; apply Nat.leb_gt; lia).
      reflexivity. }
  assert (Hrun : run
    = if truthy apiKey && (10 <=? String.length buffer)%nat
      then (fst (organizeTranscript parse answer nowISO buffer apiKey),
            insightEnd (snd (organizeTranscript parse answer nowISO buffer apiKey))
              (mkApp (hook a) (notes a) true))
      else ([], a)).
  { subst run. unfold handleGenerateInsight, insightBegin. fold buffer.
    destruct (truthy apiKey); cbn [negb andb]; [|reflexivity].
    destruct (Nat.leb_spec 10 (String.length buffer)) as [Hlen | Hlen].
    - replace (String.length buffer <? 10)%nat with false
        by (symmetry; apply Nat.ltb_ge; lia).
      now destruct (organizeTranscript parse answer nowISO buffer apiKey).
    - replace (String.length buffer <? 10)%nat with true
        by (symmetry; apply Nat.ltb_lt; lia).
      reflexivity. }
  assert (Hreq : length (fst (organizeTranscript parse answer nowISO buffer apiKey))
                 <= 1).
  { unfold organizeTranscript.
    destruct (negb (truthy apiKey) || blank buffer); cbn; lia. }
  rewrite Hrun.
  destruct (truthy apiKey && (10 <=? String.length buffer)%nat).
  - cbn [fst snd]. split; [discriminate|]. split.
    + intros _. split; [now destruct (snd (organizeTranscript _ _ _ _ _))|].
      split; [reflexivity|].
      now destruct (snd (organizeTranscript parse answer nowISO buffer apiKey)).
    + split; [|split; assumption].
      destruct (snd (organizeTranscript parse answer nowISO buffer apiKey));
        [|reflexivity].
      cbn [insightEnd hook]. unfold setCurrentTranscriptBuffer.
      now destruct (hook a).
  - cbn [fst snd]. split; [reflexivity|]. split; [discriminate|].
    split; [reflexivity|]. split; [cbn; lia | assumption].
Qed.

Lemma handleGenerateInsight_keeps_text_on_failure_witness :
  handleGenerateInsight (fun _ => None) Rejects "t" (Some "key"%string)
    (mkApp (initial (mkAudioConfig interactive 0) true) [] false)
  = ([], mkApp (initial (mkAudioConfig interactive 0) true) [] false).
Proof.
  apply (proj1 (handleGenerateInsight_keeps_text_on_failure (fun _ => None)
                  Rejects "t" (Some "key"%string)
                  (mkApp (initial (mkAudioConfig interactive 0) true) [] false))).
  reflexivity.
Defined.

(** Text that reaches the visible buffer while an analysis is under way is
    emptied with the rest when the analysis succeeds, although it was not part
    of what was analysed: the transcript handed over is the buffer as it was
    when the analysis began.  The segment list still holds it. *)
Theorem insight_clears_text_arrived_meanwhile
    (apiKey : option string) (a : App) (c : ascii) (s : string) (now : Z)
    (note : OrganizedNote) :
  truthy apiKey = true ->
  (10 <= String.length (currentTranscriptBuffer (transcript (hook a))))%nat ->
  let begun := insightBegin apiKey a in
  let meanwhile :=
    exec debounceTimerFires
      (exec (onmessage (mkMessage (Some (String c s)) None false None) now)
            (hook (fst begun))) in
  let finished :=
    insightEnd (Some note)
      (mkApp meanwhile (notes (fst begun)) (isProcessingNotes (fst begun))) in
  snd begun = Some (currentTranscriptBuffer (transcript (hook a))) /\
  isProcessingNotes (fst begun) = true /\
  currentTranscriptBuffer (transcript meanwhile)
  = (currentTranscriptBuffer (transcript (hook a))
     ++ bufferAccumulator (transcript (hook a)) ++ " " ++ String c s)%string /\
  currentTranscriptBuffer (transcript (hook finished)) = ""%string /\
  notes finished = note :: notes a /\
  segments (transcript (hook finished))
  = mergeFragment user (String c s) now (segments (transcript (hook a))).
Proof.
  intros Hkey Hlen begun meanwhile finished.
  subst finished meanwhile begun. unfold insightBegin. rewrite Hkey.
  cbn [negb].
  replace (String.length (currentTranscriptBuffer (transcript (hook a))) <? 10)%nat
    with false by (symmetry; apply Nat.ltb_ge; lia).
  cbn [fst snd hook notes isProcessingNotes].
  destruct a as [[st em ir il sr sn cf tb [sg cb ba bt] pl rt ef] ns pr].
  cbn [hook transcript currentTranscriptBuffer bufferAccumulator segments].
  unfold insightEnd, setCurrentTranscriptBuffer.
  destruct bt; cbv -[mergeFragment append]; repeat split;
    destruct ba; reflexivity.
Qed.

Lemma insight_clears_text_arrived_meanwhile_witness :
  currentTranscriptBuffer (transcript (hook
    (insightEnd (Some (mkNote (mkNoteData "" "" [] [] [] neutral) ""))
       (mkApp
          (exec debounceTimerFires
             (exec (onmessage (mkMessage (Some "x"%string) None false None) 7)
                (hook (fst (insightBegin (Some "key"%string)
                   (mkApp (setCurrentTranscriptBuffer "0123456789"
                             (initial (mkAudioConfig interactive 0) true))
                          [] false))))))
          (notes (fst (insightBegin (Some "key"%string)
                   (mkApp (setCurrentTranscriptBuffer "0123456789"
                             (initial (mkAudioConfig interactive 0) true))
                          [] false))))
          (isProcessingNotes (fst (insightBegin (Some "key"%string)
                   (mkApp (setCurrentTranscriptBuffer "0123456789"
                             (initial (mkAudioConfig interactive 0) true))
                          [] false))))))))
  = ""%string.
Proof.
  apply (insight_clears_text_arrived_meanwhile (Some "key"%string)
           (mkApp (setCurrentTranscriptBuffer "0123456789"
                     (initial (mkAudioConfig interactive 0) true)) [] false)
           "x" "" 7 (mkNote (mkNoteData "" "" [] [] [] neutral) "")).
  - reflexivity.
  - cbn. lia.
Defined.

End InsightFacts.

Section VisualizerFacts.
Import Playback Visualizer.
Local Open Scope R_scope.

Lemma drawFrom_lookup (hc : bool) (w h : R) (n : nat) (bw : R)
    (data : list byte) (start : nat) (x : R) (i : nat) (value : byte) :
  data !! i = Some value ->
  drawFrom hc w h n bw start x data !! i
  = Some (drawBar hc w h n bw (start + i) value (x + INR i * (bw + 1))).
Proof.
  revert start x i. induction data as [|v data IH]; intros start x i Hi.
  - discriminate Hi.
  - destruct i as [|i]; cbn [drawFrom].
    + injection Hi as ->. cbn [lookup list_lookup]. f_equal.
      rewrite Nat.add_0_r. f_equal. cbn [INR]. lra.
    + cbn [lookup list_lookup] in *. rewrite (IH _ _ _ Hi).
      f_equal. replace (S start + i)%nat with (start + S i)%nat by lia.
      f_equal. rewrite S_INR. lra.
Qed.

Lemma drawFrom_length (hc : bool) (w h : R) (n : nat) (bw : R)
    (data : list byte) (start : nat) (x : R) :
  length (drawFrom hc w h n bw start x data) = length data.
Proof.
  revert start x. induction data as [|v data IH]; intros start x;
    cbn [drawFrom length]; [reflexivity | now rewrite IH].
Qed.

(** One bar is drawn per frequency bin.  Bar [i] starts at
    [i * (barWidth + 1)] with [barWidth = 2.5 * width / n], so every bin from
    index [0.4 * n] on is drawn at or beyond the right edge of the canvas and
    is never seen.  A bar is [value / 1.5] high, up to 170, and in the default
    theme its red and green components stay within [0, 195] and [0, 250). *)
Theorem draw_bars_geometry
    (highContrast : bool) (width height : R) (dataArray : list byte)
    (i : nat) (value : byte) :
  0 < width ->
  dataArray !! i = Some value ->
  length (draw highContrast width height dataArray) = length dataArray /\
  exists bar,
    draw highContrast width height dataArray !! i = Some bar /\
    barW bar = width / INR (length dataArray) * (25 / 10) /\
    barX bar = INR i * (barW bar + 1) /\
    barH bar = IZR (Z_of_byte value) / (15 / 10) /\
    0 <= barH bar <= 170 /\
    barY bar = height - barH bar /\
    (2 * INR (length dataArray) <= 5 * INR i -> width <= barX bar) /\
    match style bar with
    | Yellow => highContrast = true
    | Rgb r g b =>
        highContrast = false /\ 0 <= r <= 195 /\ 0 <= g < 250 /\ b = 50
    end.
Proof.
  intros Hw Hi. unfold draw. split; [apply drawFrom_length|].
  rewrite (drawFrom_lookup _ _ _ _ _ _ _ _ _ _ Hi). eexists. split; [reflexivity|].
  pose proof (lookup_lt_Some _ _ _ Hi) as Hlt.
  assert (Hn : 0 < INR (length dataArray)) by (apply lt_0_INR; lia).
  assert (Hin : INR i < INR (length dataArray)) by now apply lt_INR.
  pose proof (pos_INR i) as Hi0.
  pose proof (Z_of_byte_range value) as [Hlo Hhi].
  apply IZR_le in Hlo. assert (Hhi' : IZR (Z_of_byte value) <= 255).
  { apply (IZR_le _ 255). lia. }
  assert (Hq : 0 <= INR i / INR (length dataArray) < 1).
  { split.
    - apply Rmult_le_pos; [assumption|]. left. now apply Rinv_0_lt_compat.
    - apply Rmult_lt_reg_r with (INR (length dataArray)); [assumption|].
      unfold Rdiv. rewrite Rmult_assoc, Rinv_l by lra. lra. }
  unfold drawBar. cbn [barW barX barH barY style Nat.add].
  repeat split; try lra.
  - intros Hfar.
    set (n := INR (length dataArray)) in *.
    assert (Hbw : width / n * (25 / 10) * n = width * (25 / 10))
      by (field; lra).
    assert (Hstep : 0 <= width / n * (25 / 10)).
    { apply Rmult_le_pos; [|lra]. apply Rmult_le_pos; [lra|].
      left. now apply Rinv_0_lt_compat. }
    nra.
  - destruct highContrast; [reflexivity|]. repeat split; lra.
Qed.

Lemma draw_bars_geometry_witness :
  length (draw false 300 60 [x00; xff]) = length [x00; xff] /\
  exists bar,
    draw false 300 60 [x00; xff] !! 1%nat = Some bar /\
    barW bar = 300 / INR (length [x00; xff]) * (25 / 10) /\
    barX bar = INR 1 * (barW bar + 1) /\
    barH bar = IZR (Z_of_byte xff) / (15 / 10) /\
    0 <= barH bar <= 170 /\
    barY bar = 60 - barH bar /\
    (2 * INR (length [x00; xff]) <= 5 * INR 1 -> 300 <= barX bar) /\
    match style bar with
    | Yellow => false = true
    | Rgb r g b => false = false /\ 0 <= r <= 195 /\ 0 <= g < 250 /\ b = 50
    end.
Proof.
  apply (draw_bars_geometry false 300 60 [x00; xff] 1 xff); [lra | reflexivity].
Defined.

End VisualizerFacts.
